(** * LLM Snakes: the move-evaluation and elimination engine

    A shallow embedding of the most advanced variant of the program
    (N players, deep look-ahead scoring) and the properties of its
    grid model, move legality, territory evaluation, response parser,
    move execution and turn loop.

    Conventions of the embedding.
    - Go's [int] is a 64-bit two's complement integer.  Values are in [Z];
      coordinate arithmetic ([Row--], [Row++], ...) is written with its
      wrap-around, [wrap64].  Counters that only count entries held in
      memory ([count], [activeCount]) are far below 2^63 and are kept as
      plain [Z] sums.
    - Go maps are [gmap]s; reading a missing key yields the zero value.
    - Slices are lists; an index outside the slice is a run-time panic,
      which ends the program: fallible steps return [Run].
    - Go's [float64] is the primitive binary64 [float]; every operation
      is rounded on its own, to nearest even (no fused multiply-add), as
      [SpecFloat] specifies it. *)

From Stdlib Require Import ZArith String Ascii List Lia Bool.
From Stdlib Require Import Floats.
From Stdlib Require Import Reals Lra.
From stdpp Require Import gmap strings list fin_maps.

Import ListNotations.
#[local] Open Scope string_scope.
#[local] Open Scope Z_scope.

(** ** Machine integers *)

Definition wrap64 (z : Z) : Z := (z + 2 ^ 63) mod 2 ^ 64 - 2 ^ 63.

Definition int64_range (z : Z) : Prop := - 2 ^ 63 <= z < 2 ^ 63.

(** ** Run-time panics *)

Inductive Run (A : Type) : Type :=
| Ret (a : A)
| Panic (msg : string).
Arguments Ret {A} a.
Arguments Panic {A} msg.

#[global] Instance Run_ret : MRet Run := fun A a => Ret a.

#[global] Instance Run_bind : MBind Run := fun A B k m =>
  match m with
  | Ret a => k a
  | Panic msg => Panic msg
  end.

Definition index_out_of_range : string := "runtime error: index out of range".

(** [s[i]] on a slice. *)
Definition slice_get {A : Type} (s : list A) (i : Z) : Run A :=
  if (0 <=? i) && (i <? Z.of_nat (length s))
  then match s !! Z.to_nat i with
       | Some a => Ret a
       | None => Panic index_out_of_range
       end
  else Panic index_out_of_range.

(** [s[i] = v] on a slice. *)
Definition slice_set {A : Type} (s : list A) (i : Z) (v : A) : Run (list A) :=
  if (0 <=? i) && (i <? Z.of_nat (length s))
  then Ret (<[Z.to_nat i := v]> s)
  else Panic index_out_of_range.

(** ** Data model *)

Definition Empty : string := " ".

Definition PlayerIDs : list string :=
  ["1"; "2"; "3"; "4"; "5"; "6"; "7"; "8"; "9"; "A"].

Definition TrailChars : list string :=
  ["░"; "▒"; "▓"; "█"; "▀"; "▄"; "▌"; "▐"; "■"; "□"].

Inductive Direction : Type := Up | Down | Left | Right.

(** The string a [Direction] constant stands for. *)
Definition dir_name (d : Direction) : string :=
  match d with
  | Up => "up"
  | Down => "down"
  | Left => "left"
  | Right => "right"
  end.

#[global] Instance Direction_eq_dec : EqDecision Direction.
Proof. solve_decision. Defined.

#[global] Instance Direction_countable : Countable Direction.
Proof.
  refine (inj_countable'
            (fun d => match d with Up => 0%nat | Down => 1%nat
                               | Left => 2%nat | Right => 3%nat end)
            (fun n => match n with 0%nat => Up | 1%nat => Down
                               | 2%nat => Left | _ => Right end) _).
  intros []; reflexivity.
Defined.

Record Position : Type := mkPosition { Row : Z; Col : Z }.

#[global] Instance Position_eq_dec : EqDecision Position.
Proof. solve_decision. Defined.

#[global] Instance Position_countable : Countable Position.
Proof.
  refine (inj_countable' (fun p => (Row p, Col p))
                         (fun rc => mkPosition (fst rc) (snd rc)) _).
  intros []; reflexivity.
Defined.

Record Move : Type := mkMove {
  Player : string;
  MoveDirection : Direction;
  From : Position;
  To : Position
}.

(** [Temperature] is a float handed through to the endpoint. *)
Record PlayerConfig : Type := mkPlayerConfig {
  ID : string;
  Model : string;
  Temperature : float
}.

Record GameState : Type := mkGameState {
  Grid : list (list string);
  Size : Z;
  NumPlayers : Z;
  PlayerPos : gmap string Position;
  PlayerConfigs : gmap string PlayerConfig;
  ActivePlayers : gmap string bool;
  Moves : list Move;
  Visited : gmap Position bool
}.

(** Reading a Go map: the zero value for a missing key. *)
Definition visited_at (m : gmap Position bool) (p : Position) : bool :=
  default false (m !! p).

Definition active_at (m : gmap string bool) (player : string) : bool :=
  default false (m !! player).

Definition pos_at (m : gmap string Position) (player : string) : Position :=
  default (mkPosition 0 0) (m !! player).

(** ** Move legality and directional geometry *)

Definition IsValidMove (game : GameState) (pos : Position) : bool :=
  if (Row pos <? 0) || (Row pos >=? Size game)
     || (Col pos <? 0) || (Col pos >=? Size game)
  then false
  else if visited_at (Visited game) pos then false
  else true.

Definition getPlayerPos (game : GameState) (player : string) : Position :=
  pos_at (PlayerPos game) player.

Definition getNewPosition (pos : Position) (dir : Direction) : Position :=
  match dir with
  | Up => mkPosition (wrap64 (Row pos - 1)) (Col pos)
  | Down => mkPosition (wrap64 (Row pos + 1)) (Col pos)
  | Left => mkPosition (Row pos) (wrap64 (Col pos - 1))
  | Right => mkPosition (Row pos) (wrap64 (Col pos + 1))
  end.

(** The four candidate cells, in the fixed order up, down, left, right. *)
Definition four_neighbours (pos : Position) : list Position :=
  [ mkPosition (wrap64 (Row pos - 1)) (Col pos);
    mkPosition (wrap64 (Row pos + 1)) (Col pos);
    mkPosition (Row pos) (wrap64 (Col pos - 1));
    mkPosition (Row pos) (wrap64 (Col pos + 1)) ].

Definition GetValidMoves (game : GameState) (player : string) : list Direction :=
  let currentPos := pos_at (PlayerPos game) player in
  let directions :=
    [ (Up, mkPosition (wrap64 (Row currentPos - 1)) (Col currentPos));
      (Down, mkPosition (wrap64 (Row currentPos + 1)) (Col currentPos));
      (Left, mkPosition (Row currentPos) (wrap64 (Col currentPos - 1)));
      (Right, mkPosition (Row currentPos) (wrap64 (Col currentPos + 1))) ] in
  fold_left
    (fun (validMoves : list Direction) d =>
       if IsValidMove game (snd d) then (validMoves ++ [fst d])%list
       else validMoves)
    directions [].

Definition getBlockedMoves (game : GameState) (player : string)
    (validMoves : list Direction) : gmap Direction string :=
  let currentPos := getPlayerPos game player in
  let allDirs := [Up; Down; Left; Right] in
  fold_left
    (fun blocked dir =>
       if bool_decide (dir ∈ validMoves) then blocked
       else
         let newPos := getNewPosition currentPos dir in
         if (Row newPos <? 0) || (Row newPos >=? Size game)
            || (Col newPos <? 0) || (Col newPos >=? Size game)
         then <[dir := "out of bounds"]> blocked
         else if visited_at (Visited game) newPos
              then <[dir := "already visited"]> blocked
              else blocked)
    allDirs ∅.

Definition countAvailableMoves (game : GameState) (pos : Position) : Z :=
  fold_left
    (fun count newPos => if IsValidMove game newPos then count + 1 else count)
    (four_neighbours pos) 0.

Definition getAvailablePositions (game : GameState) (pos : Position)
    : list Position :=
  fold_left
    (fun (positions : list Position) newPos =>
       if IsValidMove game newPos then (positions ++ [newPos])%list
       else positions)
    (four_neighbours pos) [].

(** ** Territory and mobility evaluator *)

Record MoveEvaluation : Type := mkMoveEvaluation {
  EvalDirection : Direction;
  NewPos : Position;
  ImmediateMoves : Z;
  ReachableTerritory : Z;
  AvgDepthMobility : float;
  DistanceFromCenter : float;
  TotalScore : float;
  SafetyLevel : string
}.

(** [float64(n)] for an [int] n: the nearest binary64 value. *)
Definition float64_of_int (n : Z) : float :=
  SF2Prim (binary_normalize prec emax n 0 false).

(** A fresh state holding only [Size] and a copy of the visited cells,
    with [to] marked as well; every other field has its zero value. *)
Definition simulateMove (game : GameState) (to : Position) : GameState :=
  {| Grid := [];
     Size := Size game;
     NumPlayers := 0;
     PlayerPos := ∅;
     PlayerConfigs := ∅;
     ActivePlayers := ∅;
     Moves := [];
     Visited := <[to := true]> ((fun _ : bool => true) <$> Visited game) |}.

(** The body of the flood fill's inner [for] loop over the four cells
    around [current]. *)
Definition flood_visit (game : GameState)
    (st : gmap Position bool * list Position * Z) (next : Position)
    : gmap Position bool * list Position * Z :=
  let '(visited, queue, count) := st in
  if negb (visited_at visited next) && IsValidMove game next
  then (<[next := true]> visited, (queue ++ [next])%list, count + 1)
  else st.

(** The flood fill's [for len(queue) > 0] loop; [fuel] bounds the number
    of cells taken from the queue. *)
Fixpoint flood_loop (fuel : nat) (game : GameState)
    (visited : gmap Position bool) (queue : list Position) (count : Z)
    : option (gmap Position bool * Z) :=
  match queue with
  | [] => Some (visited, count)
  | current :: queue' =>
      match fuel with
      | O => None
      | S fuel' =>
          let '(visited', queue'', count') :=
            fold_left (flood_visit game) (four_neighbours current)
                      (visited, queue', count) in
          flood_loop fuel' game visited' queue'' count'
      end
  end.

(** Enough fuel for any board: the start cell and every cell of the grid
    leave the queue at most once ([floodFill_correct]). *)
Definition flood_fuel (game : GameState) : nat :=
  S (Z.to_nat (Size game * Size game)).

Definition floodFill (game : GameState) (start : Position)
    : option (gmap Position bool * Z) :=
  flood_loop (flood_fuel game) game {[start := true]} [start] 1.

Definition countReachableTerritory (game : GameState) (start : Position) : Z :=
  match floodFill game start with
  | Some (_, count) => count
  | None => 0
  end.

(** [calculateDepthMobility] by recursion on the remaining depth;
    [S depth'] is [maxDepth > 0] and [depth' <> 0] is [maxDepth > 1]. *)
Fixpoint depthMobility (depth : nat) (game : GameState) (pos : Position)
    : float :=
  match depth with
  | O => 0%float
  | S depth' =>
      let moves := getAvailablePositions game pos in
      match moves with
      | [] => 0%float
      | _ =>
          let totalMobility :=
            fold_left
              (fun (totalMobility : float) nextPos =>
                 let simGame := simulateMove game nextPos in
                 let mobilityAtNext :=
                   float64_of_int (countAvailableMoves simGame nextPos) in
                 let totalMobility := (totalMobility + mobilityAtNext)%float in
                 match depth' with
                 | O => totalMobility
                 | S _ =>
                     let deeperMobility := depthMobility depth' simGame nextPos in
                     (totalMobility + deeperMobility * 0.5)%float
                 end)
              moves 0%float in
          (totalMobility / float64_of_int (Z.of_nat (length moves)))%float
      end
  end.

Definition calculateDepthMobility (game : GameState) (pos : Position)
    (maxDepth : Z) : float :=
  depthMobility (Z.to_nat maxDepth) game pos.

Definition calculateDistance (x1 y1 x2 y2 : float) : float :=
  let dx := (x1 - x2)%float in
  let dy := (y1 - y2)%float in
  (dx * dx + dy * dy)%float.

Definition calculateMoveScore (eval : MoveEvaluation) (boardSize : Z) : float :=
  let score := 0%float in
  let score := (score + float64_of_int (ReachableTerritory eval) * 2)%float in
  let score := (score + AvgDepthMobility eval * 3)%float in
  let score := (score + float64_of_int (ImmediateMoves eval) * 5)%float in
  let maxDist := float64_of_int (wrap64 (boardSize * boardSize)) in
  let centerScore := ((maxDist - DistanceFromCenter eval) / maxDist)%float in
  (score + centerScore * 1)%float.

Definition determineSafetyLevel (eval : MoveEvaluation) : string :=
  if ImmediateMoves eval =? 0 then "DEATH TRAP"
  else if (ReachableTerritory eval >=? 20) && (ImmediateMoves eval >=? 3)
  then "EXCELLENT"
  else if (ReachableTerritory eval >=? 12) && (ImmediateMoves eval >=? 2)
  then "GOOD"
  else if (ImmediateMoves eval >=? 2) && (ReachableTerritory eval >=? 6)
  then "MODERATE"
  else if (ImmediateMoves eval =? 1) || (ReachableTerritory eval <? 5)
  then "RISKY"
  else "DANGEROUS".

Definition evaluateMove (game : GameState) (currentPos : Position)
    (dir : Direction) : MoveEvaluation :=
  let newPos := getNewPosition currentPos dir in
  let simGame := simulateMove game newPos in
  let immediateMoves := countAvailableMoves simGame newPos in
  let reachableTerritory := countReachableTerritory simGame newPos in
  let avgDepthMobility := calculateDepthMobility simGame newPos 2 in
  let centerRow := (float64_of_int (Size game) / 2)%float in
  let centerCol := (float64_of_int (Size game) / 2)%float in
  let distanceFromCenter :=
    calculateDistance (float64_of_int (Row newPos))
                      (float64_of_int (Col newPos)) centerRow centerCol in
  let eval :=
    {| EvalDirection := dir; NewPos := newPos;
       ImmediateMoves := immediateMoves;
       ReachableTerritory := reachableTerritory;
       AvgDepthMobility := avgDepthMobility;
       DistanceFromCenter := distanceFromCenter;
       TotalScore := 0%float; SafetyLevel := "" |} in
  let eval :=
    {| EvalDirection := EvalDirection eval; NewPos := NewPos eval;
       ImmediateMoves := ImmediateMoves eval;
       ReachableTerritory := ReachableTerritory eval;
       AvgDepthMobility := AvgDepthMobility eval;
       DistanceFromCenter := DistanceFromCenter eval;
       TotalScore := calculateMoveScore eval (Size game);
       SafetyLevel := "" |} in
  {| EvalDirection := EvalDirection eval; NewPos := NewPos eval;
     ImmediateMoves := ImmediateMoves eval;
     ReachableTerritory := ReachableTerritory eval;
     AvgDepthMobility := AvgDepthMobility eval;
     DistanceFromCenter := DistanceFromCenter eval;
     TotalScore := TotalScore eval;
     SafetyLevel := determineSafetyLevel eval |}.

(** ** The response parser *)

(** [\w] of the regular expression: an ASCII letter, digit or underscore. *)
Definition is_word_char (c : ascii) : bool :=
  let n := nat_of_ascii c in
  ((48 <=? n) && (n <=? 57) || (65 <=? n) && (n <=? 90)
   || (n =? 95) || (97 <=? n) && (n <=? 122))%nat.

Definition is_word (c : option ascii) : bool :=
  match c with
  | Some c => is_word_char c
  | None => false
  end.

(** [\b]: a word character on exactly one side; the start and the end of
    the text count as non-word. *)
Definition word_boundary (before after : option ascii) : bool :=
  xorb (is_word before) (is_word after).

Definition first_char (s : string) : option ascii :=
  match s with
  | EmptyString => None
  | String c _ => Some c
  end.

(** [strip_prefix w prev s]: when [s] starts with [w], the last character
    read and the rest of [s]. *)
Fixpoint strip_prefix (w : string) (prev : option ascii) (s : string)
    : option (option ascii * string) :=
  match w with
  | EmptyString => Some (prev, s)
  | String a w' =>
      match s with
      | EmptyString => None
      | String c s' =>
          if Ascii.eqb a c then strip_prefix w' (Some c) s' else None
      end
  end.

(** One alternative of [(up|down|left|right)] followed by [\b]. *)
Definition match_word (w : string) (prev : option ascii) (s : string) : bool :=
  match strip_prefix w prev s with
  | Some (last, rest) => word_boundary last (first_char rest)
  | None => false
  end.

(** The whole pattern [\b(up|down|left|right)\b] anchored at the start of
    [s], whose preceding character is [prev]; alternatives are tried in
    order, as a backtracking matcher does. *)
Definition match_here (prev : option ascii) (s : string) : option Direction :=
  if word_boundary prev (first_char s)
  then List.find (fun d => match_word (dir_name d) prev s) [Up; Down; Left; Right]
  else None.

(** [re.FindStringSubmatch]: the leftmost match; the result is the
    captured group, [matches[1]], and [None] stands for no match. *)
Fixpoint find_submatch (prev : option ascii) (s : string) : option Direction :=
  match match_here prev s with
  | Some d => Some d
  | None =>
      match s with
      | EmptyString => None
      | String c s' => find_submatch (Some c) s'
      end
  end.

Inductive ParseError : Type :=
| NotValid (dir : Direction)
| CouldNotParse.

(** The text of the [error] values [ParseDirection] builds. *)
Definition parse_error_text (e : ParseError) : string :=
  match e with
  | NotValid dir => "direction '" ++ dir_name dir ++ "' is not valid"
  | CouldNotParse => "could not parse direction from response"
  end.

Definition formatValidMoves (moves : list Direction) : string :=
  String.concat ", " (map dir_name moves).

(** ASCII instances of [strings.ToLower] and [strings.TrimSpace]: on text
    made of ASCII bytes they are the library functions. *)
Definition ascii_lower (c : ascii) : ascii :=
  let n := nat_of_ascii c in
  if ((65 <=? n) && (n <=? 90))%nat then ascii_of_nat (n + 32) else c.

Fixpoint ascii_ToLower (s : string) : string :=
  match s with
  | EmptyString => EmptyString
  | String c s' => String (ascii_lower c) (ascii_ToLower s')
  end.

Definition is_ascii_space (c : ascii) : bool :=
  let n := nat_of_ascii c in
  ((n =? 9) || (n =? 10) || (n =? 11) || (n =? 12) || (n =? 13) || (n =? 32))%nat.

Fixpoint trim_left (s : string) : string :=
  match s with
  | EmptyString => EmptyString
  | String c s' => if is_ascii_space c then trim_left s' else s
  end.

Fixpoint trim_right (s : string) : string :=
  match s with
  | EmptyString => EmptyString
  | String c s' =>
      match trim_right s' with
      | EmptyString => if is_ascii_space c then EmptyString else String c EmptyString
      | t => String c t
      end
  end.

Definition ascii_TrimSpace (s : string) : string := trim_right (trim_left s).

(** The standard library's [strings.ToLower] and [strings.TrimSpace]. *)
Class GoStrings : Type := {
  ToLower : string -> string;
  TrimSpace : string -> string
}.

#[global] Instance ascii_strings : GoStrings :=
  {| ToLower := ascii_ToLower; TrimSpace := ascii_TrimSpace |}.

Definition ParseDirection `{GoStrings} (response : string)
    (validMoves : list Direction) : Direction + ParseError :=
  let response := ToLower (TrimSpace response) in
  match List.find (fun dir => String.eqb response (dir_name dir)) validMoves with
  | Some dir => inl dir
  | None =>
      match find_submatch None response with
      | Some dir =>
          match List.find (fun validDir => bool_decide (dir = validDir)) validMoves with
          | Some _ => inl dir
          | None => inr (NotValid dir)
          end
      | None => inr CouldNotParse
      end
  end.

(** ** Move execution *)

(** The search for the player's index: [playerIndex] stays 0 when no
    identifier below [NumPlayers] matches. *)
Fixpoint find_player_index (n : nat) (i : Z) (player : string) : Run Z :=
  match n with
  | O => Ret 0
  | S n' =>
      id ← slice_get PlayerIDs i;
      if String.eqb id player then Ret i
      else find_player_index n' (i + 1) player
  end.

(** [grid[pos.Row][pos.Col] = v]. *)
Definition grid_set (grid : list (list string)) (pos : Position) (v : string)
    : Run (list (list string)) :=
  row ← slice_get grid (Row pos);
  row' ← slice_set row (Col pos) v;
  slice_set grid (Row pos) row'.

Definition MakeMove (game : GameState) (player : string)
    (direction : Direction) : Run GameState :=
  playerIndex ← find_player_index (Z.to_nat (NumPlayers game)) 0 player;
  trailChar ← slice_get TrailChars playerIndex;
  let currentPos := pos_at (PlayerPos game) player in
  let oldPos := currentPos in
  let newPos :=
    match direction with
    | Up => mkPosition (wrap64 (Row currentPos - 1)) (Col currentPos)
    | Down => mkPosition (wrap64 (Row currentPos + 1)) (Col currentPos)
    | Left => mkPosition (Row currentPos) (wrap64 (Col currentPos - 1))
    | Right => mkPosition (Row currentPos) (wrap64 (Col currentPos + 1))
    end in
  grid1 ← grid_set (Grid game) oldPos trailChar;
  let playerPos := <[player := newPos]> (PlayerPos game) in
  grid2 ← grid_set grid1 newPos player;
  let visited := <[newPos := true]> (Visited game) in
  let move := {| Player := player; MoveDirection := direction;
                 From := oldPos; To := newPos |} in
  Ret {| Grid := grid2; Size := Size game; NumPlayers := NumPlayers game;
         PlayerPos := playerPos; PlayerConfigs := PlayerConfigs game;
         ActivePlayers := ActivePlayers game;
         Moves := (Moves game ++ [move])%list; Visited := visited |}.

(** ** The Move Oracle and the process environment *)

(** One request sent to the text-generation endpoint. *)
Record Call : Type := mkCall {
  call_prompt : string;
  call_config : PlayerConfig
}.

Inductive Reply : Type :=
| Response (text : string)
| Failure (err : string).

(** What the program reads from outside: the command-line flags, the
    random source, the endpoint behind [CallLLM] (a function of the
    requests made before and the current one) and the rendering of the
    prompt text. *)
Class Environment : Type := {
  gridSize : Z;
  numPlayers : Z;
  modelName : string;
  temperature : float;
  maxRetries : Z;
  playerModels : list string;
  rand_source : nat -> Z;
  endpoint : list Call -> Call -> Reply;
  BuildPrompt : GameState -> string -> list Direction -> string
}.

Inductive LLMError : Type :=
| CallFailed (err : string)
| MaxRetriesExceeded.

Definition newline : string := String (ascii_of_nat 10) EmptyString.

Definition nil_dereference : string :=
  "runtime error: invalid memory address or nil pointer dereference".

Section Engine.

Context `{GoStrings} `{Environment}.

(** [CallLLM]: the request is recorded in the history and the reply of
    the endpoint is trimmed; [playerConfig] is a pointer, nil when the
    player has no entry. *)
Definition CallLLM (history : list Call) (prompt : string)
    (playerConfig : option PlayerConfig)
    : Run ((string + string) * list Call) :=
  match playerConfig with
  | None => Panic nil_dereference
  | Some config =>
      let call := {| call_prompt := prompt; call_config := config |} in
      match endpoint history call with
      | Failure err => Ret (inr err, call :: history)
      | Response text => Ret (inl (TrimSpace text), call :: history)
      end
  end.

(** The suffix a failed attempt adds to the prompt. *)
Definition retry_suffix (response : string) (validMoves : list Direction)
    : string :=
  newline ++ newline ++ "Your previous response '" ++ response
    ++ "' was invalid. Please respond with exactly one word: "
    ++ formatValidMoves validMoves.

(** The retry loop of [GetLLMMove]; [retries] is [maxRetries - retry]. *)
Fixpoint llm_attempts (retries : nat) (history : list Call) (prompt : string)
    (playerConfig : option PlayerConfig) (validMoves : list Direction)
    : Run ((Direction + LLMError) * list Call) :=
  match retries with
  | O => Ret (inr MaxRetriesExceeded, history)
  | S retries' =>
      r ← CallLLM history prompt playerConfig;
      match r with
      | (inr err, history') => Ret (inr (CallFailed err), history')
      | (inl response, history') =>
          match ParseDirection response validMoves with
          | inl direction => Ret (inl direction, history')
          | inr _ =>
              llm_attempts retries' history'
                (prompt ++ retry_suffix response validMoves)
                playerConfig validMoves
          end
      end
  end.

(** The response time, a wall-clock reading, is left out of the result. *)
Definition GetLLMMove (history : list Call) (game : GameState)
    (player : string) (validMoves : list Direction)
    : Run ((Direction + LLMError) * list Call) :=
  let prompt := BuildPrompt game player validMoves in
  let playerConfig := PlayerConfigs game !! player in
  llm_attempts (Z.to_nat maxRetries) history prompt playerConfig validMoves.

(** *** Game creation *)

Definition getPlayerModel (playerIndex : Z) : string :=
  if (playerIndex <? 0) || (playerIndex >=? Z.of_nat (length playerModels))
  then modelName
  else match playerModels !! Z.to_nat playerIndex with
       | Some m => if negb (String.eqb m "") then m else modelName
       | None => modelName
       end.

(** [rand.Intn(n)], the [k]-th draw of the process. *)
Definition rand_Intn (k : nat) (n : Z) : Run Z :=
  if n <=? 0 then Panic "invalid argument to Intn"
  else Ret (rand_source k mod n).

Definition abs (x : Z) : Z := if x <? 0 then wrap64 (- x) else x.

Definition tooClose (pos : Position) (playerPos : gmap string Position) : bool :=
  existsb
    (fun entry : string * Position =>
       let existingPos := snd entry in
       let rowDiff := abs (wrap64 (Row pos - Row existingPos)) in
       let colDiff := abs (wrap64 (Col pos - Col existingPos)) in
       wrap64 (rowDiff + colDiff) <? 3)
    (map_to_list playerPos).

(** The bounded search for a starting cell; [attempts] is what is left
    of [maxAttempts], [pos] the last cell drawn, [k] the draws so far. *)
Fixpoint place_player (attempts : nat) (k : nat) (pos : Position)
    (playerPos : gmap string Position) : Run (Position * nat) :=
  match attempts with
  | O => Ret (pos, k)
  | S attempts' =>
      row ← rand_Intn k gridSize;
      col ← rand_Intn (S k) gridSize;
      let pos := {| Row := row; Col := col |} in
      if tooClose pos playerPos
      then place_player attempts' (S (S k)) pos playerPos
      else Ret (pos, S (S k))
  end.

(** The first loop of [InitGame]: one configuration per player. *)
Fixpoint init_configs (n : nat) (i : Z) (configs : gmap string PlayerConfig)
    : Run (gmap string PlayerConfig) :=
  match n with
  | O => Ret configs
  | S n' =>
      playerID ← slice_get PlayerIDs i;
      init_configs n' (i + 1)
        (<[playerID := {| ID := playerID; Model := getPlayerModel i;
                          Temperature := temperature |}]> configs)
  end.

(** The last loop of [InitGame]: the players are placed in order. *)
Fixpoint init_players (n : nat) (i : Z) (k : nat) (game : GameState)
    : Run GameState :=
  match n with
  | O => Ret game
  | S n' =>
      playerID ← slice_get PlayerIDs i;
      placed ← place_player 1000 k {| Row := 0; Col := 0 |} (PlayerPos game);
      let pos := fst placed in
      grid ← grid_set (Grid game) pos playerID;
      init_players n' (i + 1) (snd placed)
        {| Grid := grid; Size := Size game; NumPlayers := NumPlayers game;
           PlayerPos := <[playerID := pos]> (PlayerPos game);
           PlayerConfigs := PlayerConfigs game;
           ActivePlayers := <[playerID := true]> (ActivePlayers game);
           Moves := Moves game;
           Visited := <[pos := true]> (Visited game) |}
  end.

Definition InitGame : Run GameState :=
  if gridSize <? 0 then Panic "runtime error: makeslice: len out of range"
  else
    configs ← init_configs (Z.to_nat numPlayers) 0 ∅;
    let grid := replicate (Z.to_nat gridSize)
                          (replicate (Z.to_nat gridSize) Empty) in
    init_players (Z.to_nat numPlayers) 0 0%nat
      {| Grid := grid; Size := gridSize; NumPlayers := numPlayers;
         PlayerPos := ∅; PlayerConfigs := configs; ActivePlayers := ∅;
         Moves := []; Visited := ∅ |}.

(** *** The turn loop *)

(** What one pass of the [for] loop of [PlayGame] works on. *)
Record LoopState : Type := mkLoopState {
  game_of : GameState;
  currentPlayerIndex : Z;
  moveCount : Z;
  calls_of : list Call
}.

(** "Find next active player": at most [NumPlayers] slots are scanned. *)
Fixpoint next_active (attempts : nat) (game : GameState)
    (currentPlayerIndex : Z) : Run Z :=
  match attempts with
  | O => Ret currentPlayerIndex
  | S attempts' =>
      playerID ← slice_get PlayerIDs currentPlayerIndex;
      if active_at (ActivePlayers game) playerID then Ret currentPlayerIndex
      else if NumPlayers game =? 0 then Panic "runtime error: integer divide by zero"
      else next_active attempts' game
             (Z.rem (currentPlayerIndex + 1) (NumPlayers game))
  end.

(** "Check if only one player remains": the count of active players and
    the last of them. *)
Fixpoint count_active (n : nat) (i : Z) (game : GameState)
    (activeCount : Z) (lastActivePlayer : string) : Run (Z * string) :=
  match n with
  | O => Ret (activeCount, lastActivePlayer)
  | S n' =>
      playerID ← slice_get PlayerIDs i;
      if active_at (ActivePlayers game) playerID
      then count_active n' (i + 1) game (activeCount + 1) playerID
      else count_active n' (i + 1) game activeCount lastActivePlayer
  end.

Definition set_active (game : GameState) (player : string) (b : bool)
    : GameState :=
  {| Grid := Grid game; Size := Size game; NumPlayers := NumPlayers game;
     PlayerPos := PlayerPos game; PlayerConfigs := PlayerConfigs game;
     ActivePlayers := <[player := b]> (ActivePlayers game);
     Moves := Moves game; Visited := Visited game |}.

(** The outcome of one pass: [PlayGame] returns, or the loop goes on. *)
Inductive Step : Type :=
| Return (result : string) (final : LoopState)
| Continue (next : LoopState).

Definition round (st : LoopState) : Run Step :=
  let game := game_of st in
  currentPlayerIndex ←
    next_active (Z.to_nat (NumPlayers game)) game (currentPlayerIndex st);
  currentPlayer ← slice_get PlayerIDs currentPlayerIndex;
  counted ← count_active (Z.to_nat (NumPlayers game)) 0 game 0 "";
  let activeCount := fst counted in
  let lastActivePlayer := snd counted in
  let st := {| game_of := game; currentPlayerIndex := currentPlayerIndex;
               moveCount := moveCount st; calls_of := calls_of st |} in
  if activeCount <=? 1 then
    if activeCount =? 1 then Ret (Return lastActivePlayer st)
    else Ret (Return "" st)
  else
    let moveCount := moveCount st + 1 in
    let validMoves := GetValidMoves game currentPlayer in
    match validMoves with
    | [] =>
        let game := set_active game currentPlayer false in
        if NumPlayers game =? 0 then Panic "runtime error: integer divide by zero"
        else
          Ret (Continue
                 {| game_of := game;
                    currentPlayerIndex :=
                      Z.rem (currentPlayerIndex + 1) (NumPlayers game);
                    moveCount := moveCount; calls_of := calls_of st |})
    | _ =>
        answer ← GetLLMMove (calls_of st) game currentPlayer validMoves;
        match answer with
        | (inr _, calls) =>
            Ret (Return "error"
                   {| game_of := game; currentPlayerIndex := currentPlayerIndex;
                      moveCount := moveCount; calls_of := calls |})
        | (inl direction, calls) =>
            game ← MakeMove game currentPlayer direction;
            if NumPlayers game =? 0 then Panic "runtime error: integer divide by zero"
            else
              Ret (Continue
                     {| game_of := game;
                        currentPlayerIndex :=
                          Z.rem (currentPlayerIndex + 1) (NumPlayers game);
                        moveCount := moveCount; calls_of := calls |})
        end
    end.

(** At most [n] passes of the loop: the value returned and the final
    state, or [None] while the loop is still running. *)
Fixpoint play_rounds (n : nat) (st : LoopState)
    : Run (option (string * LoopState)) :=
  match n with
  | O => Ret None
  | S n' =>
      step ← round st;
      match step with
      | Return result final => Ret (Some (result, final))
      | Continue next => play_rounds n' next
      end
  end.

(** [PlayGame] up to its loop: the state the first pass starts from. *)
Definition start_of (game : GameState) (calls : list Call) : LoopState :=
  {| game_of := game; currentPlayerIndex := 0; moveCount := 0;
     calls_of := calls |}.

(** [PlayGame], whose argument is only printed: the game is created and
    the loop runs; size * size * players passes are enough for it to
    return ([PlayGame_terminates]). *)
Definition PlayGame (calls : list Call) : Run (option (string * LoopState)) :=
  game ← InitGame;
  play_rounds (Z.to_nat (Size game * Size game * NumPlayers game))
              (start_of game calls).

Definition state_of (step : Step) : LoopState :=
  match step with
  | Return _ final => final
  | Continue next => next
  end.

(** The player whose turn it is: the first active one from the current
    index on. *)
Definition turn_of (st : LoopState) : Run string :=
  currentPlayerIndex ←
    next_active (Z.to_nat (NumPlayers (game_of st))) (game_of st)
                (currentPlayerIndex st);
  slice_get PlayerIDs currentPlayerIndex.

(** The states of the loop of [PlayGame]: it is entered, after the check
    of the player count in [main], on the game [InitGame] built. *)
Inductive reachable : LoopState -> Prop :=
| reachable_start (game : GameState) (calls : list Call) :
    2 <= numPlayers <= 10 ->
    InitGame = Ret game ->
    reachable (start_of game calls)
| reachable_round (st next : LoopState) :
    reachable st ->
    round st = Ret (Continue next) ->
    reachable next.

End Engine.

(** ** The parser as the specification words it *)

Definition last_char_from (prev : option ascii) (s : string) : option ascii :=
  fold_left (fun _ c => Some c) (list_ascii_of_string s) prev.

(** A standalone occurrence of the direction word [d] in the text that
    reads [prev] and then [s], at offset [i] of [s]: the word with, on
    each side, a non-word character or an end of the text. *)
Definition standalone_from (prev : option ascii) (s : string) (i : nat)
    (d : Direction) : Prop :=
  exists pre post,
    s = pre ++ dir_name d ++ post
    /\ String.length pre = i
    /\ is_word (last_char_from prev pre) = false
    /\ is_word (first_char post) = false.

Definition standalone_at (s : string) (i : nat) (d : Direction) : Prop :=
  standalone_from None s i d.

(** The first standalone occurrence of any of the four direction words. *)
Definition first_standalone (s : string) (d : Direction) : Prop :=
  exists i,
    standalone_at s i d
    /\ forall j d', (j < i)%nat -> ~ standalone_at s j d'.

(** ** Well-formed boards *)

Definition in_bounds (game : GameState) (pos : Position) : Prop :=
  0 <= Row pos < Size game /\ 0 <= Col pos < Size game.

(** The grid is [Size] rows of [Size] cells. *)
Definition grid_ok (size : Z) (grid : list (list string)) : Prop :=
  length grid = Z.to_nat size
  /\ Forall (fun row => length row = Z.to_nat size) grid.

(** [grid[pos.Row][pos.Col]], when the cell exists. *)
Definition cell_at (grid : list (list string)) (pos : Position) : option string :=
  row ← grid !! Z.to_nat (Row pos);
  row !! Z.to_nat (Col pos).

(** ** Territory as a set of cells *)

(** Every cell of a [size] x [size] board, row by row. *)
Definition board_cells (size : Z) : list Position :=
  map (fun rc : Z * Z => mkPosition (fst rc) (snd rc))
      (list_prod (seqZ 0 size) (seqZ 0 size)).

(** The cells the flood fill can reach: [start], and every legal cell
    among the four around a reached cell. *)
Inductive Reaches (game : GameState) (start : Position) : Position -> Prop :=
| Reaches_start : Reaches game start start
| Reaches_step (p q : Position) :
    Reaches game start p ->
    In q (four_neighbours p) ->
    IsValidMove game q = true ->
    Reaches game start q.

(** The not-yet-visited cells reachable from [start] by 4-directional
    adjacency. *)
Definition in_component (game : GameState) (start q : Position) : Prop :=
  IsValidMove game q = true /\ Reaches game start q.

(** The legal cells the flood fill has not marked yet. *)
Definition unseen (game : GameState) (visited : gmap Position bool)
    : list Position :=
  List.filter (fun p => IsValidMove game p && negb (visited_at visited p))
              (board_cells (Size game)).

(** ** Reading the state of a game *)

(** The identifiers of the players of a game, in rotation order. *)
Definition player_ids (game : GameState) : list string :=
  take (Z.to_nat (NumPlayers game)) PlayerIDs.

(** The players still in the game. *)
Definition active_players (game : GameState) : list string :=
  List.filter (fun id => active_at (ActivePlayers game) id) (player_ids game).

(** The cells of the board nobody has entered. *)
Definition free_cells (game : GameState) : list Position :=
  List.filter (fun p => negb (visited_at (Visited game) p))
              (board_cells (Size game)).

(** [PlayerIDs[i]] for an index in range. *)
Definition player_id (i : Z) : string := default "" (PlayerIDs !! Z.to_nat i).

(** A game as [InitGame] builds it and [MakeMove] keeps it: a square
    grid, and every player's head on the board, on a visited cell. *)
Record game_ok (game : GameState) : Prop := {
  ok_players : 1 <= NumPlayers game <= 10;
  ok_grid : grid_ok (Size game) (Grid game);
  ok_heads : forall id, id ∈ player_ids game ->
               in_bounds game (getPlayerPos game id)
               /\ visited_at (Visited game) (getPlayerPos game id) = true;
  ok_configs : forall id, id ∈ player_ids game ->
                 is_Some (PlayerConfigs game !! id)
}.

(** What the loop of [PlayGame] keeps: a well-formed game and an index
    that names a player. *)
Definition loop_ok (st : LoopState) : Prop :=
  game_ok (game_of st)
  /\ 0 <= currentPlayerIndex st < NumPlayers (game_of st).

(** The number of passes still possible: free cells and active players. *)
Definition measure (game : GameState) : nat :=
  (length (free_cells game) + length (active_players game))%nat.

(** ** What the loops maintain *)

(** What the loop maintains: [seen] lists the marked cells, each once. *)
Record flood_inv (game : GameState) (start : Position)
    (visited : gmap Position bool) (queue : list Position) (count : Z)
    (seen : list Position) : Prop := {
  inv_NoDup : NoDup seen;
  inv_marked : forall p, visited_at visited p = true <-> p ∈ seen;
  inv_count : count = Z.of_nat (length seen);
  inv_start : start ∈ seen;
  inv_reached : forall p, p ∈ seen -> Reaches game start p;
  inv_queue : forall p, p ∈ queue -> p ∈ seen;
  inv_closed : forall p q, p ∈ seen -> p ∉ queue ->
                           q ∈ four_neighbours p ->
                           IsValidMove game q = true -> q ∈ seen
}.

(** What the placement loop has established after [i] players. *)
Record placed_ok `{Environment} (configs : gmap string PlayerConfig) (i : Z)
    (game : GameState) : Prop := {
  placed_size : Size game = gridSize;
  placed_players : NumPlayers game = numPlayers;
  placed_grid : grid_ok gridSize (Grid game);
  placed_moves : Moves game = [];
  placed_configs : PlayerConfigs game = configs;
  placed_heads : forall id, id ∈ take (Z.to_nat i) PlayerIDs ->
                   in_bounds game (getPlayerPos game id)
                   /\ visited_at (Visited game) (getPlayerPos game id) = true
                   /\ active_at (ActivePlayers game) id = true
}.

(** What a pass does to a well-formed state: it returns, leaving the
    game as it is, or eliminates the player to move, or executes a move
    onto a cell that was not visited. *)
Definition pass_ok (st : LoopState) (step : Step) : Prop :=
  match step with
  | Return _ final => game_of final = game_of st
  | Continue next =>
      loop_ok next
      /\ S (measure (game_of next)) = measure (game_of st)
      /\ (1 <= length (active_players (game_of next)))%nat
      /\ ((exists player,
             player ∈ active_players (game_of st)
             /\ GetValidMoves (game_of st) player = []
             /\ game_of next = set_active (game_of st) player false
             /\ calls_of next = calls_of st)
          \/ (exists player direction,
                player ∈ active_players (game_of st)
                /\ direction ∈ GetValidMoves (game_of st) player
                /\ MakeMove (game_of st) player direction = Ret (game_of next)
                /\ visited_at (Visited (game_of st))
                     (getNewPosition (getPlayerPos (game_of st) player) direction)
                   = false
                /\ visited_at (Visited (game_of next))
                     (getNewPosition (getPlayerPos (game_of st) player) direction)
                   = true
                /\ active_players (game_of next) = active_players (game_of st)))
  end.

(** ** Binary64 rounding

    [SpecFloat] specifies the operations of [float] on mantissas and
    exponents.  The definitions below read them on the real numbers. *)

(** Powers of two. *)
Definition bpow (e : Z) : R := powerRZ 2 e.

(** The value of a mantissa and an exponent. *)
Definition fval (m : Z) (e : Z) : R := (IZR m * bpow e)%R.

(** The magnitude of a positive value: it lies in [2^(mag-1), 2^mag). *)
Definition mag (m : positive) (e : Z) : Z := Zpos (digits2_pos m) + e.

(** The record after [k] shifts of the exact mantissa [M]. *)
Definition shr_state (M : Z) (k : nat) : shr_record :=
  match k with
  | O => {| shr_m := M; shr_r := false; shr_s := false |}
  | S k' =>
      {| shr_m := M / 2 ^ Z.of_nat k;
         shr_r := Z.odd (M / 2 ^ Z.of_nat k');
         shr_s := negb (M mod 2 ^ Z.of_nat k' =? 0) |}
  end.

(** The exponent of the floats of magnitude [mg]. *)
Definition fexp64 (mg : Z) : Z := fexp prec emax mg.

(** The mantissa [M] shifted right by [n] bits and rounded to nearest
    even, with the exponent that results. *)
Definition round_shift (M e n : Z) : Z * Z :=
  let '(mrs, e') := shr {| shr_m := M; shr_r := false; shr_s := false |} e n in
  (round_nearest_even (shr_m mrs) (loc_of_shr_record mrs), e').

(** [r] is the integer nearest to [x / 2^c], the even one on a tie. *)
Definition rne_at (c r : Z) (x : R) : Prop :=
  (2 * Rabs (x - fval r c) <= bpow c)%R
  /\ ((2 * Rabs (x - fval r c) = bpow c)%R -> Z.even r = true).

(** The second alignment of [binary_round_aux], after the rounding. *)
Definition realign (r c : Z) : Z * Z :=
  let '(mrs, e) := shr_fexp prec emax r c loc_Exact in (shr_m mrs, e).

(** Rounding of the positive number [m * 2^e], exponent unbounded. *)
Definition round_pos (m : positive) (e : Z) : Z * Z :=
  let '(r, c) := round_shift (Zpos m) e (fexp64 (mag m e) - e) in
  realign r c.

(** The sign bit of a float applied to a real. *)
Definition cond_Ropp (s : bool) (x : R) : R := if s then (- x)%R else x.

(** The real value of a finite float, 0 for the others. *)
Definition SF2R (f : spec_float) : R :=
  match f with
  | S754_finite s m e => cond_Ropp s (fval (Zpos m) e)
  | _ => 0%R
  end.

(** [Rnd x f]: the float [f] is what rounding the real [x] returns. *)
Inductive Rnd : R -> spec_float -> Prop :=
| Rnd_zero (s : bool) : Rnd 0 (S754_zero s)
| Rnd_round (s : bool) (m : positive) (e : Z) :
    e <= fexp64 (mag m e) ->
    Rnd (cond_Ropp s (fval (Zpos m) e))
        (binary_round_aux prec emax s (Zpos m) e loc_Exact).

(** The shapes a rounding of sign [s] has. *)
Inductive signed_as (s : bool) : spec_float -> Prop :=
| signed_zero : signed_as s (S754_zero s)
| signed_finite (q : positive) (c : Z) :
    SpecFloat.bounded prec emax q c = true -> signed_as s (S754_finite s q c)
| signed_infinity : signed_as s (S754_infinity s).

(** Zero or finite: the floats that have a real value. *)
Definition is_finite_SF (f : spec_float) : bool :=
  match f with
  | S754_zero _ | S754_finite _ _ _ => true
  | _ => false
  end.

(** [a] is not above [b]: the comparison [b < a] is false, as it is when
    either is not a number. *)
Definition not_above (a b : spec_float) : Prop := SFltb b a = false.

(** The shapes of a rounding of sign [s] of a number of magnitude at
    least one. *)
Inductive large (s : bool) : spec_float -> Prop :=
| large_finite (q : positive) (c : Z) :
    SpecFloat.bounded prec emax q c = true ->
    (1 <= fval (Zpos q) c)%R -> large s (S754_finite s q c)
| large_infinity : large s (S754_infinity s).

(** The float [a] is not above [b]: [b < a] is false. *)
Definition float_not_above (a b : float) : Prop := (b <? a)%float = false.

(** The sum of [calculateMoveScore] from its four terms. *)
Definition weighted_sum (territory depth immediate centre : float) : float :=
  (0 + territory * 2 + depth * 3 + immediate * 5 + centre * 1)%float.

(** ** The score as the specification words it *)

(** The total score as the specification writes it. *)
Definition total_score_formula
    (territory avgDepthMobility immediateMobility normalizedCenterProximity
       : float) : float :=
  (2 * territory + 3 * avgDepthMobility + 5 * immediateMobility
   + 1 * normalizedCenterProximity)%float.

(** The share of the largest possible distance that is left. *)
Definition normalizedCenterProximity (maxPossibleDistance centerDistance : float)
    : float :=
  ((maxPossibleDistance - centerDistance) / maxPossibleDistance)%float.

(** The squared Euclidean distance between two points. *)
Definition squared_distance (x1 y1 x2 y2 : float) : float :=
  ((x1 - x2) * (x1 - x2) + (y1 - y2) * (y1 - y2))%float.

(** The geometric centre of a board along one axis, its cells being
    numbered from 0 to size - 1. *)
Definition geometric_center (size : Z) : float :=
  (float64_of_int (size - 1) / 2)%float.

(** ** Steps and their inverses *)

(** The direction that undoes [d]. *)
Definition opposite (d : Direction) : Direction :=
  match d with
  | Up => Down
  | Down => Up
  | Left => Right
  | Right => Left
  end.

(** ** The visited cells of a game in play *)

(** Every entry of the visited map marks a cell of the board as
    visited. *)
Definition visited_ok (game : GameState) : Prop :=
  forall p b, Visited game !! p = Some b -> b = true /\ in_bounds game p.

(** ** Why a direction is blocked *)

(** The reason [getBlockedMoves] gives for a direction that is not in
    the list of valid moves, if it gives one. *)
Definition blocked_reason (game : GameState) (player : string)
    (dir : Direction) : option string :=
  let newPos := getNewPosition (getPlayerPos game player) dir in
  if (Row newPos <? 0) || (Row newPos >=? Size game)
     || (Col newPos <? 0) || (Col newPos >=? Size game)
  then Some "out of bounds"
  else if visited_at (Visited game) newPos then Some "already visited"
       else None.

(** ** The ranking of the prompt *)

(** The inner loop of the sort of [BuildPrompt]: [n] passes, [j] going
    up from its value; a later evaluation with a greater score is
    exchanged with the one at [i]. *)
Fixpoint rank_inner (n : nat) (i j : Z) (evaluations : list MoveEvaluation)
    : Run (list MoveEvaluation) :=
  match n with
  | O => Ret evaluations
  | S n' =>
      ej ← slice_get evaluations j;
      ei ← slice_get evaluations i;
      evaluations ←
        (if (TotalScore ei <? TotalScore ej)%float
         then evaluations ← slice_set evaluations i ej;
              slice_set evaluations j ei
         else Ret evaluations);
      rank_inner n' i (j + 1) evaluations
  end.

(** The outer loop: [n] passes, [i] going up from its value. *)
Fixpoint rank_outer (n : nat) (i : Z) (evaluations : list MoveEvaluation)
    : Run (list MoveEvaluation) :=
  match n with
  | O => Ret evaluations
  | S n' =>
      evaluations ←
        rank_inner (Z.to_nat (Z.of_nat (length evaluations) - (i + 1)))
                   i (i + 1) evaluations;
      rank_outer n' (i + 1) evaluations
  end.

(** "Evaluate all moves and sort by score": the evaluations of the valid
    moves, in the order in which [BuildPrompt] displays them. *)
Definition rank_evaluations (game : GameState) (player : string)
    (validMoves : list Direction) : Run (list MoveEvaluation) :=
  let evaluations :=
    map (fun dir => evaluateMove game (getPlayerPos game player) dir)
        validMoves in
  rank_outer (Z.to_nat (Z.of_nat (length evaluations) - 1)) 0 evaluations.

(** ** Concrete games *)

(** A 3 x 3 board for two players whose endpoint always answers
    "up-left"; the first player is drawn at (0,0), the second at (2,2). *)
Definition demo_env : Environment :=
  {| gridSize := 3;
     numPlayers := 2;
     modelName := "llama3.2";
     temperature := 0.5%float;
     maxRetries := 3;
     playerModels := replicate 10 "";
     rand_source := fun k => match k with 0%nat | 1%nat => 0 | _ => 2 end;
     endpoint := fun _ _ => Response "up-left";
     BuildPrompt := fun _ player _ =>
       "You are playing a Snakes game as Player " ++ player |}.

Definition demo_config (id : string) : PlayerConfig :=
  {| ID := id; Model := "llama3.2"; Temperature := 0.5%float |}.

Definition demo_game : GameState :=
  {| Grid := [["1"; " "; " "]; [" "; " "; " "]; [" "; " "; "2"]];
     Size := 3;
     NumPlayers := 2;
     PlayerPos := {[ "1" := mkPosition 0 0; "2" := mkPosition 2 2 ]};
     PlayerConfigs := {[ "1" := demo_config "1"; "2" := demo_config "2" ]};
     ActivePlayers := {[ "1" := true; "2" := true ]};
     Moves := [];
     Visited := {[ mkPosition 0 0 := true; mkPosition 2 2 := true ]} |}.

(** [demo_game] after player 1 moved right, from (0,0) to (0,1). *)
Definition moved_game : GameState :=
  {| Grid := [["░"; "1"; " "]; [" "; " "; " "]; [" "; " "; "2"]];
     Size := 3;
     NumPlayers := 2;
     PlayerPos := {[ "1" := mkPosition 0 1; "2" := mkPosition 2 2 ]};
     PlayerConfigs := {[ "1" := demo_config "1"; "2" := demo_config "2" ]};
     ActivePlayers := {[ "1" := true; "2" := true ]};
     Moves := [ {| Player := "1"; MoveDirection := Right;
                   From := mkPosition 0 0; To := mkPosition 0 1 |} ];
     Visited := {[ mkPosition 0 0 := true; mkPosition 2 2 := true;
                   mkPosition 0 1 := true ]} |}.

(** A 1 x 1 board for two players: both start on the only cell. *)
Definition tiny_env : Environment :=
  {| gridSize := 1;
     numPlayers := 2;
     modelName := "llama3.2";
     temperature := 0.5%float;
     maxRetries := 3;
     playerModels := replicate 10 "";
     rand_source := fun _ => 0;
     endpoint := fun _ _ => Failure "connection refused";
     BuildPrompt := fun _ player _ =>
       "You are playing a Snakes game as Player " ++ player |}.

Definition tiny_game : GameState :=
  {| Grid := [["2"]];
     Size := 1;
     NumPlayers := 2;
     PlayerPos := {[ "1" := mkPosition 0 0; "2" := mkPosition 0 0 ]};
     PlayerConfigs := {[ "1" := demo_config "1"; "2" := demo_config "2" ]};
     ActivePlayers := {[ "1" := true; "2" := true ]};
     Moves := [];
     Visited := {[ mkPosition 0 0 := true ]} |}.

(** The loop state of [tiny_game] after its first pass, which eliminates
    player 1. *)
Definition tiny_after_elimination : LoopState :=
  {| game_of := set_active tiny_game "1" false;
     currentPlayerIndex := 1;
     moveCount := 1;
     calls_of := [] |}.


(** The evaluation of player 1 of [demo_game] moving right, to (0,1):
    2 x 7 + 3 x 2.5 + 5 x 2 + (9 - 2.5) / 9. *)
Definition demo_eval : MoveEvaluation :=
  {| EvalDirection := Right; NewPos := mkPosition 0 1;
     ImmediateMoves := 2; ReachableTerritory := 7;
     AvgDepthMobility := 2.5%float; DistanceFromCenter := 2.5%float;
     TotalScore := 0x1.01c71c71c71c7p+5%float; SafetyLevel := "MODERATE" |}.

(** The inputs of [demo_eval] with one more immediate move, with one
    more reachable cell, with a larger average depth mobility. *)
Definition more_moves_eval : MoveEvaluation :=
  {| EvalDirection := Right; NewPos := mkPosition 0 1;
     ImmediateMoves := 3; ReachableTerritory := 7;
     AvgDepthMobility := 2.5%float; DistanceFromCenter := 2.5%float;
     TotalScore := 0%float; SafetyLevel := "" |}.

Definition more_territory_eval : MoveEvaluation :=
  {| EvalDirection := Right; NewPos := mkPosition 0 1;
     ImmediateMoves := 2; ReachableTerritory := 8;
     AvgDepthMobility := 2.5%float; DistanceFromCenter := 2.5%float;
     TotalScore := 0%float; SafetyLevel := "" |}.

Definition more_depth_eval : MoveEvaluation :=
  {| EvalDirection := Right; NewPos := mkPosition 0 1;
     ImmediateMoves := 2; ReachableTerritory := 7;
     AvgDepthMobility := 3%float; DistanceFromCenter := 2.5%float;
     TotalScore := 0%float; SafetyLevel := "" |}.

(** * Properties *)

(** ** Safety tiers *)

(** C4: the safety tier follows the priority order of the specification:
    no immediate move gives "DEATH TRAP" whatever the other fields are;
    otherwise territory >= 20 with mobility >= 3 gives "EXCELLENT";
    otherwise territory >= 12 with mobility >= 2 gives "GOOD"; otherwise
    mobility >= 2 with territory >= 6 gives "MODERATE"; otherwise mobility
    1 or territory < 5 gives "RISKY"; otherwise "DANGEROUS". *)
Theorem determineSafetyLevel_priority (eval : MoveEvaluation) :
  let im := ImmediateMoves eval in
  let t := ReachableTerritory eval in
  let excellent := t >= 20 /\ im >= 3 in
  let good := t >= 12 /\ im >= 2 in
  let moderate := im >= 2 /\ t >= 6 in
  let risky := im = 1 \/ t < 5 in
  (im = 0 -> determineSafetyLevel eval = "DEATH TRAP")
  /\ (im <> 0 -> excellent -> determineSafetyLevel eval = "EXCELLENT")
  /\ (im <> 0 -> ~ excellent -> good -> determineSafetyLevel eval = "GOOD")
  /\ (im <> 0 -> ~ excellent -> ~ good -> moderate ->
      determineSafetyLevel eval = "MODERATE")
  /\ (im <> 0 -> ~ excellent -> ~ good -> ~ moderate -> risky ->
      determineSafetyLevel eval = "RISKY")
  /\ (im <> 0 -> ~ excellent -> ~ good -> ~ moderate -> ~ risky ->
      determineSafetyLevel eval = "DANGEROUS").
Proof.
  unfold determineSafetyLevel.
  destruct eval as [d p im t a dc ts sl]; cbv zeta;
    cbn [ImmediateMoves ReachableTerritory].
  destruct (im =? 0) eqn:E0; [apply Z.eqb_eq in E0 | apply Z.eqb_neq in E0].
  { repeat split; intros; first [reflexivity | contradiction]. }
  destruct (t >=? 20) eqn:E20, (im >=? 3) eqn:E3, (t >=? 12) eqn:E12,
    (im >=? 2) eqn:E2, (t >=? 6) eqn:E6, (im =? 1) eqn:E1, (t <? 5) eqn:E5;
    cbn [andb orb];
    repeat match goal with
      | H : (_ >=? _) = true |- _ => apply Z.geb_le in H
      | H : (_ >=? _) = false |- _ => rewrite Z.geb_leb in H; apply Z.leb_gt in H
      | H : (_ =? _) = true |- _ => apply Z.eqb_eq in H
      | H : (_ =? _) = false |- _ => apply Z.eqb_neq in H
      | H : (_ <? _) = true |- _ => apply Z.ltb_lt in H
      | H : (_ <? _) = false |- _ => apply Z.ltb_ge in H
      end;
    repeat split; intros; try reflexivity; exfalso; lia.
Qed.

(** ** The response parser *)

Lemma strip_prefix_spec (w : string) (prev : option ascii) (s : string)
    (last : option ascii) (rest : string) :
  strip_prefix w prev s = Some (last, rest)
  <-> s = w ++ rest /\ last = last_char_from prev w.
Proof.
  revert prev s. induction w as [|a w IH]; intros prev s; cbn.
  - split; [intros [= -> ->] | intros [-> ->]]; auto.
  - destruct s as [|c s]; [split; [discriminate | intros [[=] _]]|].
    destruct (Ascii.eqb_spec a c) as [->|Hne].
    + rewrite IH. unfold last_char_from; cbn. split.
      * intros [-> ->]; auto.
      * intros [[= ->] ->]; auto.
    + split; [discriminate | intros [[= ? ?] _]; congruence].
Qed.

Lemma last_char_from_word (prev : option ascii) (d : Direction) :
  is_word (last_char_from prev (dir_name d)) = true.
Proof. destruct d; reflexivity. Qed.

Lemma match_word_spec (d : Direction) (prev : option ascii) (s : string) :
  match_word (dir_name d) prev s = true
  <-> exists post, s = dir_name d ++ post /\ is_word (first_char post) = false.
Proof.
  unfold match_word.
  destruct (strip_prefix (dir_name d) prev s) as [[last rest]|] eqn:E.
  - apply strip_prefix_spec in E as [-> ->].
    unfold word_boundary. rewrite last_char_from_word. cbn [xorb].
    split.
    + intros Hb. exists rest. split; [reflexivity|].
      destruct (is_word (first_char rest)); [discriminate | reflexivity].
    + intros (post & Heq & Hw).
      assert (rest = post) as ->.
      { revert Heq. generalize (dir_name d) as w.
        induction w; cbn; [auto | intros [= ?]; auto]. }
      rewrite Hw. reflexivity.
  - split; [discriminate|]. intros (post & -> & _).
    assert (strip_prefix (dir_name d) prev (dir_name d ++ post)
            = Some (last_char_from prev (dir_name d), post)) as E'
      by (apply strip_prefix_spec; auto).
    congruence.
Qed.

(** Two direction words never start at the same place. *)
Lemma dir_name_prefix_inj (d d' : Direction) (post post' : string) :
  dir_name d ++ post = dir_name d' ++ post' -> d = d'.
Proof. destruct d, d'; cbn; intros [=]; reflexivity. Qed.

Lemma first_char_dir_name (d : Direction) (post : string) :
  is_word (first_char (dir_name d ++ post)) = true.
Proof. destruct d; reflexivity. Qed.

Lemma match_here_spec (prev : option ascii) (s : string) (d : Direction) :
  match_here prev s = Some d <-> standalone_from prev s 0 d.
Proof.
  unfold match_here, standalone_from. split.
  - destruct (word_boundary prev (first_char s)) eqn:Hb; [|discriminate].
    intros Hf. apply find_some in Hf as [_ Hm].
    apply match_word_spec in Hm as (post & -> & Hpost).
    exists "", post. cbn [String.append String.length].
    repeat split; auto.
    unfold word_boundary in Hb. rewrite first_char_dir_name in Hb.
    unfold last_char_from; cbn. destruct (is_word prev); [discriminate | auto].
  - intros (pre & post & -> & Hlen & Hprev & Hpost).
    destruct pre; [|discriminate].
    change ("" ++ dir_name d ++ post) with (dir_name d ++ post).
    unfold last_char_from in Hprev; cbn in Hprev.
    unfold word_boundary. rewrite first_char_dir_name, Hprev. cbn [xorb].
    assert (Hm : forall d', match_word (dir_name d') prev (dir_name d ++ post)
                            = bool_decide (d' = d)).
    { intros d'. case_bool_decide as Hd.
      - subst d'. apply match_word_spec. eauto.
      - destruct (match_word _ _ _) eqn:E; [|reflexivity].
        apply match_word_spec in E as (post' & E & _).
        symmetry in E. apply dir_name_prefix_inj in E. contradiction. }
    cbn [List.find]. rewrite !Hm. destruct d; reflexivity.
Qed.

Lemma standalone_from_nil (prev : option ascii) (i : nat) (d : Direction) :
  ~ standalone_from prev "" i d.
Proof.
  intros (pre & post & E & _). destruct pre; [destruct d|]; discriminate.
Qed.

Lemma standalone_from_shift (prev : option ascii) (c : ascii) (s : string)
    (i : nat) (d : Direction) :
  standalone_from prev (String c s) (S i) d <-> standalone_from (Some c) s i d.
Proof.
  unfold standalone_from. split.
  - intros (pre & post & E & Hlen & Hprev & Hpost).
    destruct pre as [|a pre]; [discriminate|]. cbn in E, Hlen.
    injection E as -> ->. exists pre, post. repeat split; auto with lia.
  - intros (pre & post & -> & Hlen & Hprev & Hpost).
    exists (String c pre), post. cbn. repeat split; auto with lia.
Qed.

(** The leftmost match of the regular expression is the first standalone
    occurrence; no match means no standalone occurrence at all. *)
Lemma find_submatch_spec (s : string) (prev : option ascii) :
  match find_submatch prev s with
  | Some d =>
      exists i, standalone_from prev s i d
                /\ forall j d', (j < i)%nat -> ~ standalone_from prev s j d'
  | None => forall i d, ~ standalone_from prev s i d
  end.
Proof.
  revert prev. induction s as [|c s IH]; intros prev; cbn [find_submatch].
  - destruct (match_here prev "") as [d|] eqn:E.
    + exists 0%nat. split; [apply match_here_spec, E | intros; lia].
    + intros i d. apply standalone_from_nil.
  - destruct (match_here prev (String c s)) as [d|] eqn:E.
    + exists 0%nat. split; [apply match_here_spec, E | intros; lia].
    + specialize (IH (Some c)).
      destruct (find_submatch (Some c) s) as [d|].
      * destruct IH as (i & Hi & Hmin). exists (S i). split.
        { apply standalone_from_shift, Hi. }
        intros [|j] d' Hj Hst.
        { apply match_here_spec in Hst. congruence. }
        apply standalone_from_shift in Hst. apply (Hmin j d'); [lia | exact Hst].
      * intros [|i] d Hst.
        { apply match_here_spec in Hst. congruence. }
        apply standalone_from_shift in Hst. exact (IH i d Hst).
Qed.

Lemma first_standalone_unique (s : string) (d d' : Direction) :
  first_standalone s d -> first_standalone s d' -> d = d'.
Proof.
  intros (i & Hi & Hmin) (i' & Hi' & Hmin').
  destruct (lt_eq_lt_dec i i') as [[Hlt|Heq]|Hgt].
  - exfalso. exact (Hmin' i d Hlt Hi).
  - subst i'. destruct Hi as (pre & post & E & Hlen & Hpre).
    destruct Hi' as (pre' & post' & E' & Hlen' & Hpre').
    rewrite E in E'. clear E. subst i. clear Hmin Hmin' Hpre Hpre'.
    revert pre' Hlen' E'. induction pre as [|a pre IH]; intros [|a' pre'] Hlen' E';
      try discriminate.
    + cbn in E'. eapply dir_name_prefix_inj, E'.
    + cbn in E', Hlen'. injection E' as _ E'. eapply IH; [|exact E']. lia.
  - exfalso. exact (Hmin i' d' Hgt Hi').
Qed.

(** The parser against the specification's wording, for any response. *)
Lemma ParseDirection_cases `{GoStrings} (response : string)
    (validMoves : list Direction) :
  let text := ToLower (TrimSpace response) in
  match ParseDirection response validMoves with
  | inl dir =>
      In dir validMoves
      /\ (text = dir_name dir
          \/ (forall d, In d validMoves -> text <> dir_name d)
             /\ first_standalone text dir)
  | inr err =>
      (forall d, In d validMoves -> text <> dir_name d)
      /\ (forall d, first_standalone text d -> ~ In d validMoves)
      /\ match err with
         | NotValid dir => first_standalone text dir
         | CouldNotParse => forall i d, ~ standalone_at text i d
         end
  end.
Proof.
  intros text. unfold ParseDirection. fold text.
  destruct (List.find (fun dir => String.eqb text (dir_name dir)) validMoves)
    as [dir|] eqn:Hexact.
  { apply find_some in Hexact as [Hin Heq]. apply String.eqb_eq in Heq. auto. }
  assert (Hno : forall d, In d validMoves -> text <> dir_name d).
  { intros d Hin Heq.
    apply (find_none _ _ Hexact) in Hin. apply String.eqb_neq in Hin. auto. }
  pose proof (find_submatch_spec text None) as Hsub.
  destruct (find_submatch None text) as [dir|].
  - assert (Hfirst : first_standalone text dir) by exact Hsub.
    destruct (List.find (fun validDir => bool_decide (dir = validDir)) validMoves)
      as [v|] eqn:Hvalid.
    + apply find_some in Hvalid as [Hin Heq]. apply bool_decide_eq_true in Heq.
      subst v. auto.
    + repeat split; auto.
      intros d Hd Hin. rewrite <- (first_standalone_unique _ _ _ Hfirst Hd) in Hin.
      apply (find_none _ _ Hvalid) in Hin. apply bool_decide_eq_false in Hin. auto.
  - repeat split; auto.
    intros d (i & Hi & _). destruct (Hsub i d Hi).
Qed.

(** An accepted direction is always one of the legal ones. *)
Lemma ParseDirection_legal `{GoStrings} (response : string)
    (validMoves : list Direction) (dir : Direction) :
  ParseDirection response validMoves = inl dir -> In dir validMoves.
Proof.
  intros E. pose proof (ParseDirection_cases response validMoves) as P.
  cbv zeta in P. rewrite E in P. exact (proj1 P).
Qed.

(** C7: on the lower-cased, trimmed response the parser accepts a legal
    direction whose name the text equals; otherwise it accepts the first
    standalone (word-boundary) occurrence of one of the four direction
    words when that word is legal; otherwise it fails with a parse error.
    "I think you should go UP!" with up and left legal is accepted as up. *)
Theorem ParseDirection_spec :
  (forall (S : GoStrings) (response : string) (validMoves : list Direction),
     let text := ToLower (TrimSpace response) in
     match ParseDirection response validMoves with
     | inl dir =>
         In dir validMoves
         /\ (text = dir_name dir
             \/ (forall d, In d validMoves -> text <> dir_name d)
                /\ first_standalone text dir)
     | inr err =>
         (forall d, In d validMoves -> text <> dir_name d)
         /\ (forall d, first_standalone text d -> ~ In d validMoves)
         /\ match err with
            | NotValid dir => first_standalone text dir
            | CouldNotParse => forall i d, ~ standalone_at text i d
            end
     end)
  /\ ParseDirection (H := ascii_strings) "I think you should go UP!" [Up; Left]
     = inl Up.
Proof.
  split; [|reflexivity].
  intros S response validMoves. apply ParseDirection_cases.
Qed.

(** ** The retry loop *)

Section Retry.

Context `{GoStrings} `{Environment}.

(** With a configuration at hand the retry loop never panics, and it
    only adds requests in front of the history. *)
Lemma llm_attempts_history (retries : nat) (history : list Call)
    (prompt : string) (config : PlayerConfig) (validMoves : list Direction) :
  exists answer made,
    llm_attempts retries history prompt (Some config) validMoves
    = Ret (answer, (made ++ history)%list)
    /\ (length made <= retries)%nat
    /\ (forall dir, answer = inl dir -> In dir validMoves).
Proof.
  revert history prompt.
  induction retries as [|n IH]; intros history prompt; cbn [llm_attempts].
  - exists (inr MaxRetriesExceeded), []. repeat split; [cbn; lia | discriminate].
  - unfold CallLLM.
    set (call := {| call_prompt := prompt; call_config := config |}).
    destruct (endpoint history call) as [text|err]; cbn.
    + destruct (ParseDirection (TrimSpace text) validMoves) as [dir|e] eqn:E.
      * exists (inl dir), [call]. repeat split; [cbn; lia|].
        intros d [= <-]. exact (ParseDirection_legal _ _ _ E).
      * destruct (IH (call :: history)
                     (prompt ++ retry_suffix (TrimSpace text) validMoves))
          as (answer & made & -> & Hlen & Hin).
        exists answer, (made ++ [call])%list.
        rewrite <- app_assoc. repeat split; auto.
        rewrite length_app; cbn; lia.
    + exists (inr (CallFailed err)), [call]. repeat split; [cbn; lia | discriminate].
Qed.

Lemma llm_attempts_response (retries : nat) (history : list Call)
    (prompt : string) (config : PlayerConfig) (validMoves : list Direction)
    (text : string) :
  let call := {| call_prompt := prompt; call_config := config |} in
  endpoint history call = Response text ->
  llm_attempts (S retries) history prompt (Some config) validMoves
  = match ParseDirection (TrimSpace text) validMoves with
    | inl direction => Ret (inl direction, call :: history)
    | inr _ =>
        llm_attempts retries (call :: history)
          (prompt ++ retry_suffix (TrimSpace text) validMoves)
          (Some config) validMoves
    end.
Proof.
  intros call Hreply. cbn [llm_attempts]. unfold CallLLM. fold call.
  rewrite Hreply. reflexivity.
Qed.

(** A response that does not parse is followed, while retries remain, by
    a second request whose prompt is the first one extended with the
    rejected response. *)
Lemma GetLLMMove_retry (history : list Call) (game : GameState)
    (player : string) (validMoves : list Direction) (config : PlayerConfig)
    (response : string) (err : ParseError) :
  let prompt := BuildPrompt game player validMoves in
  let first := {| call_prompt := prompt; call_config := config |} in
  let second :=
    {| call_prompt := prompt ++ retry_suffix (TrimSpace response) validMoves;
       call_config := config |} in
  PlayerConfigs game !! player = Some config ->
  2 <= maxRetries ->
  endpoint history first = Response response ->
  ParseDirection (TrimSpace response) validMoves = inr err ->
  exists answer later,
    GetLLMMove history game player validMoves
    = Ret (answer, (later ++ second :: first :: history)%list).
Proof.
  intros prompt first second Hconfig Hretries Hreply Hparse.
  unfold GetLLMMove. rewrite Hconfig.
  destruct (Z.to_nat maxRetries) as [|[|n]] eqn:En; try lia.
  rewrite (llm_attempts_response _ _ _ _ _ _ Hreply), Hparse.
  destruct (llm_attempts_history (S n) (first :: history)
              (prompt ++ retry_suffix (TrimSpace response) validMoves)
              config validMoves) as (answer & made & Hrun & _ & _).
  fold prompt first. rewrite Hrun.
  assert (Hmade : exists later, made = (later ++ [second])%list).
  { revert Hrun. cbn [llm_attempts]. unfold CallLLM. fold second.
    destruct (endpoint (first :: history) second) as [text|e]; cbn.
    - destruct (ParseDirection (TrimSpace text) validMoves) as [dir|e'].
      + intros [= _ Hm]. exists []. apply (app_inv_tail (first :: history)).
        exact (eq_sym Hm).
      + destruct (llm_attempts_history n (second :: first :: history)
                    ((prompt ++ retry_suffix (TrimSpace response) validMoves)
                       ++ retry_suffix (TrimSpace text) validMoves)
                    config validMoves) as (answer' & made' & -> & _ & _).
        intros [= _ Hm]. exists made'. apply (app_inv_tail (first :: history)).
        rewrite <- app_assoc. exact (eq_sym Hm).
    - intros [= _ Hm]. exists []. apply (app_inv_tail (first :: history)).
      exact (eq_sym Hm). }
  destruct Hmade as (later & ->). exists answer, later.
  rewrite <- app_assoc. reflexivity.
Qed.

End Retry.

(** C8, as the code has it: "up-left" is accepted as up whenever up is
    legal, because the hyphen is a non-word character and "up" is then a
    standalone word; [GetLLMMove] returns after this single request, and no
    retry is made.  A retry, with a prompt that echoes the rejected
    response, follows only a response that does not parse. *)
Theorem up_left_is_accepted (E : Environment) (history : list Call)
    (game : GameState) (player : string) (validMoves : list Direction)
    (config : PlayerConfig) :
  let prompt := BuildPrompt game player validMoves in
  let first := {| call_prompt := prompt; call_config := config |} in
  In Up validMoves ->
  PlayerConfigs game !! player = Some config ->
  1 <= maxRetries ->
  endpoint history first = Response "up-left" ->
  ParseDirection (H := ascii_strings) "up-left" validMoves = inl Up
  /\ GetLLMMove (H := ascii_strings) history game player validMoves
     = Ret (inl Up, first :: history)
  /\ (forall (other : list Call) (response : string) (err : ParseError),
        2 <= maxRetries ->
        endpoint other first = Response response ->
        ParseDirection (H := ascii_strings) (TrimSpace response) validMoves
        = inr err ->
        exists answer later,
          GetLLMMove (H := ascii_strings) other game player validMoves
          = Ret (answer,
                 (later
                  ++ {| call_prompt :=
                          prompt ++ newline ++ newline
                          ++ "Your previous response '" ++ TrimSpace response
                          ++ "' was invalid. Please respond with exactly one word: "
                          ++ formatValidMoves validMoves;
                        call_config := config |}
                  :: first :: other)%list)).
Proof.
  intros prompt first Hup Hconfig Hretries Hreply.
  assert (Hparse : ParseDirection (H := ascii_strings) "up-left" validMoves = inl Up).
  { unfold ParseDirection.
    change (ToLower (TrimSpace "up-left")) with "up-left".
    destruct (List.find _ validMoves) as [d|] eqn:Hf.
    - apply find_some in Hf as [_ Hf]. destruct d; discriminate.
    - change (find_submatch None "up-left") with (Some Up). cbv iota beta.
      match goal with
      | |- context [List.find ?f validMoves] =>
          destruct (List.find f validMoves) eqn:Hv; [reflexivity|]
      end.
      apply (find_none _ _ Hv) in Hup. discriminate. }
  split; [exact Hparse|]. split.
  - unfold GetLLMMove. rewrite Hconfig.
    destruct (Z.to_nat maxRetries) as [|n] eqn:En; [lia|].
    rewrite (llm_attempts_response _ _ _ _ _ _ Hreply).
    change (TrimSpace "up-left") with "up-left".
    rewrite Hparse. reflexivity.
  - intros other response err Hretries2 Hreply2 Hparse2.
    exact (GetLLMMove_retry other game player validMoves config response err
             Hconfig Hretries2 Hreply2 Hparse2).
Qed.

(** ** Move execution *)

Lemma IsValidMove_true (game : GameState) (pos : Position) :
  IsValidMove game pos = true
  <-> in_bounds game pos /\ visited_at (Visited game) pos = false.
Proof.
  unfold IsValidMove, in_bounds.
  destruct (Row pos <? 0) eqn:E1, (Row pos >=? Size game) eqn:E2,
    (Col pos <? 0) eqn:E3, (Col pos >=? Size game) eqn:E4,
    (visited_at (Visited game) pos); cbn;
    rewrite ?Z.geb_leb in *;
    repeat match goal with
      | H : (_ <? _) = true |- _ => apply Z.ltb_lt in H
      | H : (_ <? _) = false |- _ => apply Z.ltb_ge in H
      | H : (_ <=? _) = true |- _ => apply Z.leb_le in H
      | H : (_ <=? _) = false |- _ => apply Z.leb_gt in H
      end;
    split; try discriminate; try (intros [? ?]; first [discriminate | lia]);
    intros _; split; auto; lia.
Qed.

Lemma slice_get_Ret {A : Type} (s : list A) (i : Z) :
  0 <= i < Z.of_nat (length s) ->
  exists a, slice_get s i = Ret a /\ s !! Z.to_nat i = Some a.
Proof.
  intros Hi. unfold slice_get.
  destruct (s !! Z.to_nat i) as [a|] eqn:E.
  - exists a. split; [|reflexivity].
    replace ((0 <=? i) && (i <? Z.of_nat (length s))) with true; [reflexivity|].
    symmetry. apply andb_true_intro. split; [apply Z.leb_le | apply Z.ltb_lt]; lia.
  - apply lookup_ge_None in E. lia.
Qed.

Lemma slice_get_Panic {A : Type} (s : list A) (i : Z) :
  ~ 0 <= i < Z.of_nat (length s) -> slice_get s i = Panic index_out_of_range.
Proof.
  intros Hi. unfold slice_get.
  destruct (0 <=? i) eqn:E1, (i <? Z.of_nat (length s)) eqn:E2; cbn; try reflexivity.
  apply Z.leb_le in E1. apply Z.ltb_lt in E2. lia.
Qed.

Lemma slice_set_Ret {A : Type} (s : list A) (i : Z) (v : A) :
  0 <= i < Z.of_nat (length s) ->
  slice_set s i v = Ret (<[Z.to_nat i := v]> s).
Proof.
  intros Hi. unfold slice_set.
  replace ((0 <=? i) && (i <? Z.of_nat (length s))) with true; [reflexivity|].
  symmetry. apply andb_true_intro. split; [apply Z.leb_le | apply Z.ltb_lt]; lia.
Qed.

Lemma slice_set_Panic {A : Type} (s : list A) (i : Z) (v : A) :
  ~ 0 <= i < Z.of_nat (length s) -> slice_set s i v = Panic index_out_of_range.
Proof.
  intros Hi. unfold slice_set.
  destruct (0 <=? i) eqn:E1, (i <? Z.of_nat (length s)) eqn:E2; cbn; try reflexivity.
  apply Z.leb_le in E1. apply Z.ltb_lt in E2. lia.
Qed.

Lemma grid_ok_row (size : Z) (grid : list (list string)) (i : nat)
    (row : list string) :
  grid_ok size grid -> grid !! i = Some row -> length row = Z.to_nat size.
Proof.
  intros [_ Hrows] Hrow. rewrite Forall_forall in Hrows.
  apply Hrows. eapply list_elem_of_lookup_2, Hrow.
Qed.

(** Writing a cell of the board succeeds exactly on the board. *)
Lemma grid_set_Ret (size : Z) (grid : list (list string)) (pos : Position)
    (v : string) :
  grid_ok size grid ->
  0 <= Row pos < size -> 0 <= Col pos < size ->
  exists grid',
    grid_set grid pos v = Ret grid'
    /\ grid_ok size grid'
    /\ cell_at grid' pos = Some v
    /\ (forall other, other <> pos -> 0 <= Row other -> 0 <= Col other ->
          cell_at grid' other = cell_at grid other).
Proof.
  intros Hok Hr Hc. pose proof Hok as [Hlen Hrows].
  unfold grid_set.
  destruct (slice_get_Ret grid (Row pos)) as (row & -> & Hrow); [lia|].
  pose proof (grid_ok_row _ _ _ _ Hok Hrow) as Hrowlen.
  cbn. rewrite slice_set_Ret by lia. cbn. rewrite slice_set_Ret by lia.
  eexists. split; [reflexivity|]. split; [|split].
  - split.
    + rewrite length_insert. exact Hlen.
    + apply Forall_insert; [exact Hrows|]. rewrite length_insert. exact Hrowlen.
  - unfold cell_at. rewrite list_lookup_insert_eq by lia. cbn.
    apply list_lookup_insert_eq. lia.
  - intros other Hne Hor Hoc. unfold cell_at.
    destruct (decide (Z.to_nat (Row other) = Z.to_nat (Row pos))) as [Heq|Hneq].
    + rewrite Heq, list_lookup_insert_eq, Hrow by lia. cbn.
      apply list_lookup_insert_ne. intros Hceq.
      apply Hne. destruct other, pos; cbn in *. f_equal; lia.
    + rewrite list_lookup_insert_ne by auto. reflexivity.
Qed.

Lemma grid_set_Panic (size : Z) (grid : list (list string)) (pos : Position)
    (v : string) :
  grid_ok size grid ->
  ~ (0 <= Row pos < size /\ 0 <= Col pos < size) ->
  grid_set grid pos v = Panic index_out_of_range.
Proof.
  intros Hok Hout. pose proof Hok as [Hlen Hrows]. unfold grid_set.
  destruct (decide (0 <= Row pos < size)) as [Hr|Hr].
  - destruct (slice_get_Ret grid (Row pos)) as (row & -> & Hrow); [lia|].
    pose proof (grid_ok_row _ _ _ _ Hok Hrow) as Hrowlen.
    cbn. rewrite slice_set_Panic by lia. reflexivity.
  - rewrite slice_get_Panic by lia. reflexivity.
Qed.

(** The index search stays inside [PlayerIDs] for at most ten players. *)
Lemma find_player_index_Ret (n : nat) (i : Z) (player : string) :
  0 <= i -> i + Z.of_nat n <= 10 ->
  exists index, find_player_index n i player = Ret index /\ 0 <= index < 10.
Proof.
  revert i. induction n as [|n IH]; intros i Hi Hn; cbn [find_player_index].
  - exists 0. split; [reflexivity | lia].
  - destruct (slice_get_Ret PlayerIDs i) as (id & -> & _); [cbn; lia|]. cbn.
    destruct (String.eqb id player).
    + exists i. split; [reflexivity | lia].
    + apply IH; lia.
Qed.

Lemma wrap64_eq (z : Z) : exists k, wrap64 z = z - 2 ^ 64 * k.
Proof.
  unfold wrap64. exists ((z + 2 ^ 63) / 2 ^ 64).
  rewrite Z.mod_eq by lia. lia.
Qed.

Lemma wrap64_range (z : Z) : - 2 ^ 63 <= wrap64 z < 2 ^ 63.
Proof.
  unfold wrap64. pose proof (Z.mod_pos_bound (z + 2 ^ 63) (2 ^ 64)). lia.
Qed.

Lemma wrap64_small (z : Z) : - 2 ^ 63 <= z < 2 ^ 63 -> wrap64 z = z.
Proof. intros Hz. unfold wrap64. rewrite Z.mod_small; lia. Qed.

(** A step never stays in place, wrap-around included. *)
Lemma wrap64_pred_neq (z : Z) : wrap64 (z - 1) <> z.
Proof. destruct (wrap64_eq (z - 1)) as [k Hk]. lia. Qed.

Lemma wrap64_succ_neq (z : Z) : wrap64 (z + 1) <> z.
Proof. destruct (wrap64_eq (z + 1)) as [k Hk]. lia. Qed.

Lemma wrap64_pred_succ_neq (z : Z) : wrap64 (z - 1) <> wrap64 (z + 1).
Proof.
  destruct (wrap64_eq (z - 1)) as [k Hk], (wrap64_eq (z + 1)) as [k' Hk']. lia.
Qed.

Lemma getNewPosition_moves (pos : Position) (dir : Direction) :
  getNewPosition pos dir <> pos.
Proof.
  destruct pos as [r c], dir; cbn; intros [= Heq]; revert Heq;
    first [apply wrap64_pred_neq | apply wrap64_succ_neq].
Qed.

Lemma MakeMove_newPos (game : GameState) (player : string) (direction : Direction) :
  match direction with
  | Up => mkPosition (wrap64 (Row (pos_at (PlayerPos game) player) - 1))
                     (Col (pos_at (PlayerPos game) player))
  | Down => mkPosition (wrap64 (Row (pos_at (PlayerPos game) player) + 1))
                       (Col (pos_at (PlayerPos game) player))
  | Left => mkPosition (Row (pos_at (PlayerPos game) player))
                       (wrap64 (Col (pos_at (PlayerPos game) player) - 1))
  | Right => mkPosition (Row (pos_at (PlayerPos game) player))
                        (wrap64 (Col (pos_at (PlayerPos game) player) + 1))
  end = getNewPosition (getPlayerPos game player) direction.
Proof. destruct direction; reflexivity. Qed.

(** Inside the board [MakeMove] applies every effect, whether or not the
    destination was visited before. *)
Lemma MakeMove_effects (game : GameState) (player : string)
    (direction : Direction) :
  let oldPos := getPlayerPos game player in
  let newPos := getNewPosition oldPos direction in
  grid_ok (Size game) (Grid game) ->
  NumPlayers game <= 10 ->
  in_bounds game oldPos ->
  in_bounds game newPos ->
  exists game',
    MakeMove game player direction = Ret game'
    /\ Size game' = Size game
    /\ NumPlayers game' = NumPlayers game
    /\ PlayerPos game' = <[player := newPos]> (PlayerPos game)
    /\ PlayerConfigs game' = PlayerConfigs game
    /\ ActivePlayers game' = ActivePlayers game
    /\ Moves game'
       = (Moves game ++ [ {| Player := player; MoveDirection := direction;
                             From := oldPos; To := newPos |} ])%list
    /\ Visited game' = <[newPos := true]> (Visited game)
    /\ grid_ok (Size game) (Grid game')
    /\ cell_at (Grid game') newPos = Some player
    /\ (exists trailChar, In trailChar TrailChars
                          /\ cell_at (Grid game') oldPos = Some trailChar).
Proof.
  intros oldPos newPos Hgrid Hn [Hor Hoc] [Hnr Hnc].
  unfold MakeMove. rewrite MakeMove_newPos.
  change (pos_at (PlayerPos game) player) with (getPlayerPos game player).
  fold oldPos. fold newPos.
  destruct (find_player_index_Ret (Z.to_nat (NumPlayers game)) 0 player)
    as (index & -> & Hindex); [lia | lia |]. cbn.
  destruct (slice_get_Ret TrailChars index) as (trailChar & -> & Htrail);
    [cbn; lia|]. cbn.
  destruct (grid_set_Ret (Size game) (Grid game) oldPos trailChar)
    as (grid1 & -> & Hgrid1 & Hcell1 & _); auto. cbn.
  destruct (grid_set_Ret (Size game) grid1 newPos player)
    as (grid2 & -> & Hgrid2 & Hcell2 & Hother2); auto. cbn.
  eexists. split; [reflexivity|].
  cbn [Size NumPlayers PlayerPos PlayerConfigs ActivePlayers Moves Visited Grid].
  do 9 (split; [solve [auto]|]).
  exists trailChar. split.
  - change (In trailChar TrailChars).
    apply (proj1 (list_elem_of_In _ _)). eapply list_elem_of_lookup_2, Htrail.
  - rewrite Hother2; [exact Hcell1 | | lia | lia]. intros Heq. symmetry in Heq.
    revert Heq. apply getNewPosition_moves.
Qed.

(** Off the board the second cell write panics. *)
Lemma MakeMove_out_of_bounds (game : GameState) (player : string)
    (direction : Direction) :
  let oldPos := getPlayerPos game player in
  let newPos := getNewPosition oldPos direction in
  grid_ok (Size game) (Grid game) ->
  NumPlayers game <= 10 ->
  in_bounds game oldPos ->
  ~ in_bounds game newPos ->
  MakeMove game player direction = Panic index_out_of_range.
Proof.
  intros oldPos newPos Hgrid Hn [Hor Hoc] Hout.
  unfold MakeMove. rewrite MakeMove_newPos.
  change (pos_at (PlayerPos game) player) with (getPlayerPos game player).
  fold oldPos. fold newPos.
  destruct (find_player_index_Ret (Z.to_nat (NumPlayers game)) 0 player)
    as (index & -> & Hindex); [lia | lia |]. cbn.
  destruct (slice_get_Ret TrailChars index) as (trailChar & -> & Htrail);
    [cbn; lia|]. cbn.
  destruct (grid_set_Ret (Size game) (Grid game) oldPos trailChar)
    as (grid1 & -> & Hgrid1 & _); auto. cbn.
  rewrite (grid_set_Panic (Size game)); auto.
Qed.

(** C9, as the code has it: [MakeMove] does not check its destination
    again.  On a well-formed board, a destination that is on the board but
    already visited does not stop it: the trail and head markers are
    written, the player is moved and the move is logged, while the visited
    map keeps the destination marked.  Only a destination outside the
    board aborts the call, by an index-out-of-range panic. *)
Theorem MakeMove_trusts_caller (game : GameState) (player : string)
    (direction : Direction) :
  let oldPos := getPlayerPos game player in
  let newPos := getNewPosition oldPos direction in
  grid_ok (Size game) (Grid game) ->
  NumPlayers game <= 10 ->
  in_bounds game oldPos ->
  IsValidMove game newPos = false ->
  (in_bounds game newPos ->
   visited_at (Visited game) newPos = true
   /\ exists game',
       MakeMove game player direction = Ret game'
       /\ PlayerPos game' = <[player := newPos]> (PlayerPos game)
       /\ Moves game'
          = (Moves game ++ [ {| Player := player; MoveDirection := direction;
                                From := oldPos; To := newPos |} ])%list
       /\ cell_at (Grid game') newPos = Some player
       /\ (exists trailChar, In trailChar TrailChars
                             /\ cell_at (Grid game') oldPos = Some trailChar)
       /\ Visited game' = <[newPos := true]> (Visited game)
       /\ (forall pos, visited_at (Visited game') pos
                       = visited_at (Visited game) pos))
  /\ (~ in_bounds game newPos ->
      MakeMove game player direction = Panic index_out_of_range).
Proof.
  intros oldPos newPos Hgrid Hn Hold Hillegal. split.
  - intros Hin.
    assert (Hvis : visited_at (Visited game) newPos = true).
    { destruct (visited_at (Visited game) newPos) eqn:E; [reflexivity|].
      assert (IsValidMove game newPos = true) by (apply IsValidMove_true; auto).
      congruence. }
    split; [exact Hvis|].
    destruct (MakeMove_effects game player direction Hgrid Hn Hold Hin)
      as (game' & Hrun & _ & _ & Hpos & _ & _ & Hmoves & Hvisited & _ & Hhead & Htrail).
    exists game'. repeat split; auto.
    intros pos. rewrite Hvisited. unfold visited_at.
    destruct (decide (pos = newPos)) as [->|Hne].
    + rewrite lookup_insert_eq. symmetry. exact Hvis.
    + rewrite lookup_insert_ne by auto. reflexivity.
  - intros Hout. apply MakeMove_out_of_bounds; auto.
Qed.

(** ** The cells of the board *)

Lemma NoDup_list_prod {A B : Type} (l : list A) (k : list B) :
  NoDup l -> NoDup k -> NoDup (list_prod l k).
Proof.
  intros Hl Hk. induction Hl as [|x l Hx Hl IH]; cbn; [constructor|].
  apply NoDup_app. split; [|split].
  - apply NoDup_fmap_2; [intros ? ? [=]; auto | exact Hk].
  - intros [a b] Hin Hin'.
    apply list_elem_of_fmap in Hin as (y & [= -> ->] & _).
    apply list_elem_of_In, in_prod_iff in Hin' as [Hin' _].
    apply Hx, list_elem_of_In, Hin'.
  - exact IH.
Qed.

Lemma elem_of_board_cells (size : Z) (p : Position) :
  p ∈ board_cells size <-> 0 <= Row p < size /\ 0 <= Col p < size.
Proof.
  unfold board_cells. rewrite list_elem_of_fmap. split.
  - intros ([r c] & -> & Hin). cbn.
    apply list_elem_of_In, in_prod_iff in Hin as [Hr Hc].
    apply list_elem_of_In, elem_of_seqZ in Hr.
    apply list_elem_of_In, elem_of_seqZ in Hc. lia.
  - intros [Hr Hc]. exists (Row p, Col p). split; [destruct p; reflexivity|].
    apply list_elem_of_In, in_prod_iff.
    split; apply list_elem_of_In, elem_of_seqZ; lia.
Qed.

Lemma NoDup_board_cells (size : Z) : NoDup (board_cells size).
Proof.
  unfold board_cells. apply NoDup_fmap_2.
  - intros [r c] [r' c'] [=]; cbn in *; congruence.
  - apply NoDup_list_prod; apply NoDup_seqZ.
Qed.

Lemma length_board_cells (size : Z) :
  length (board_cells size) = (Z.to_nat size * Z.to_nat size)%nat.
Proof.
  unfold board_cells. rewrite length_map, length_prod, !length_seqZ. reflexivity.
Qed.

Lemma IsValidMove_board_cells (game : GameState) (p : Position) :
  IsValidMove game p = true -> p ∈ board_cells (Size game).
Proof.
  intros Hv. apply IsValidMove_true in Hv as [Hb _].
  apply elem_of_board_cells, Hb.
Qed.

(** Turning one cell of a duplicate-free list from kept to dropped
    shortens the filtered list by one. *)
Lemma length_filter_drop_one {A : Type} (f g : A -> bool) (x : A) (l : list A) :
  NoDup l -> x ∈ l -> f x = true -> g x = false ->
  (forall y, y <> x -> g y = f y) ->
  length (List.filter f l) = S (length (List.filter g l)).
Proof.
  intros Hnd Hin Hf Hg Hsame.
  induction Hnd as [|a l Ha Hnd IH]; [inversion Hin|].
  apply elem_of_cons in Hin as [->|Hin]; cbn.
  - rewrite Hf, Hg. cbn. f_equal. f_equal.
    apply filter_ext_in. intros y Hy. symmetry. apply Hsame.
    intros ->. apply Ha, list_elem_of_In, Hy.
  - assert (a <> x) as Hne by (intros ->; contradiction).
    rewrite (Hsame a Hne). destruct (f a); cbn; rewrite IH; auto.
Qed.

Lemma visited_at_insert (visited : gmap Position bool) (p q : Position) :
  visited_at (<[p := true]> visited) q
  = if decide (p = q) then true else visited_at visited q.
Proof.
  unfold visited_at. rewrite lookup_insert. destruct (decide (p = q)); reflexivity.
Qed.

Lemma length_unseen_insert (game : GameState) (visited : gmap Position bool)
    (p : Position) :
  IsValidMove game p = true -> visited_at visited p = false ->
  length (unseen game visited) = S (length (unseen game (<[p := true]> visited))).
Proof.
  intros Hv Hn. unfold unseen. apply (length_filter_drop_one _ _ p).
  - apply NoDup_board_cells.
  - apply IsValidMove_board_cells, Hv.
  - rewrite Hv, Hn. reflexivity.
  - rewrite visited_at_insert, decide_True by reflexivity.
    apply andb_false_r.
  - intros y Hy. rewrite visited_at_insert, decide_False by auto. reflexivity.
Qed.

(** ** The flood fill *)

(** One pass over the cells around [current]: the cells marked and queued
    are the legal, not yet marked ones, each once. *)
Lemma flood_visit_fold (game : GameState) (cells : list Position)
    (visited : gmap Position bool) (queue : list Position) (count : Z) :
  exists (fresh : list Position) (visited' : gmap Position bool),
    fold_left (flood_visit game) cells (visited, queue, count)
    = (visited', (queue ++ fresh)%list, count + Z.of_nat (length fresh))
    /\ NoDup fresh
    /\ (forall p, visited_at visited' p = true
                  <-> visited_at visited p = true \/ p ∈ fresh)
    /\ (forall p, p ∈ fresh ->
                  p ∈ cells /\ IsValidMove game p = true
                  /\ visited_at visited p = false)
    /\ (forall p, p ∈ cells -> IsValidMove game p = true ->
                  visited_at visited' p = true)
    /\ length (unseen game visited)
       = (length (unseen game visited') + length fresh)%nat.
Proof.
  revert visited queue count.
  induction cells as [|next cells IH]; intros visited queue count.
  - exists [], visited. cbn [fold_left length].
    split; [rewrite app_nil_r, Z.add_0_r; reflexivity|].
    split; [constructor|].
    split; [intros p; rewrite elem_of_nil; tauto|].
    split; [intros p Hp; inversion Hp|].
    split; [intros p Hp; inversion Hp | lia].
  - cbn [fold_left]. unfold flood_visit at 2.
    destruct (visited_at visited next) eqn:Hseen; cbn [negb andb];
      [|destruct (IsValidMove game next) eqn:Hvalid].
    + destruct (IH visited queue count)
        as (fresh & visited' & -> & Hnd & Hvis & Hfresh & Hall & Hlen).
      exists fresh, visited'.
      split; [reflexivity|]. split; [exact Hnd|]. split; [exact Hvis|].
      split; [|split; [|exact Hlen]].
      * intros p Hp. destruct (Hfresh p Hp) as (? & ? & ?).
        rewrite elem_of_cons. auto.
      * intros p Hp Hv. apply elem_of_cons in Hp as [->|Hp]; [|auto].
        apply Hvis. auto.
    + destruct (IH (<[next := true]> visited) (queue ++ [next])%list (count + 1))
        as (fresh & visited' & -> & Hnd & Hvis & Hfresh & Hall & Hlen).
      exists (next :: fresh), visited'. split; [|split; [|split; [|split; [|split]]]].
      * rewrite <- app_assoc. cbn [app length]. f_equal. lia.
      * apply NoDup_cons. split; [|exact Hnd].
        intros Hin. apply Hfresh in Hin as (_ & _ & Hin).
        rewrite visited_at_insert, decide_True in Hin by reflexivity. discriminate.
      * intros p. rewrite Hvis, visited_at_insert, elem_of_cons.
        destruct (decide (next = p)) as [->|Hne]; [tauto|].
        split; [intros [?|?]; auto | intros [?|[?|?]]; auto; congruence].
      * intros p Hp. apply elem_of_cons in Hp as [->|Hp].
        { split; [apply elem_of_cons; auto | auto]. }
        apply Hfresh in Hp as (Hin & Hv & Hn).
        rewrite visited_at_insert in Hn.
        destruct (decide (next = p)); [discriminate|].
        split; [apply elem_of_cons; auto | auto].
      * intros p Hp Hv. apply elem_of_cons in Hp as [->|Hp]; [|auto].
        apply Hvis. left. rewrite visited_at_insert, decide_True; reflexivity.
      * rewrite (length_unseen_insert game visited next Hvalid Hseen), Hlen.
        cbn [length]. lia.
    + destruct (IH visited queue count)
        as (fresh & visited' & -> & Hnd & Hvis & Hfresh & Hall & Hlen).
      exists fresh, visited'.
      split; [reflexivity|]. split; [exact Hnd|]. split; [exact Hvis|].
      split; [|split; [|exact Hlen]].
      * intros p Hp. destruct (Hfresh p Hp) as (? & ? & ?).
        rewrite elem_of_cons. auto.
      * intros p Hp Hv. apply elem_of_cons in Hp as [->|Hp]; [congruence | auto].
Qed.

(** With the queue empty, the marked cells are the reachable ones. *)
Lemma flood_inv_done (game : GameState) (start : Position)
    (visited : gmap Position bool) (count : Z) (seen : list Position) :
  flood_inv game start visited [] count seen ->
  forall p, p ∈ seen <-> Reaches game start p.
Proof.
  intros Hinv p. split; [apply (inv_reached _ _ _ _ _ _ Hinv)|].
  induction 1 as [|p q Hp IH Hq Hv].
  - apply (inv_start _ _ _ _ _ _ Hinv).
  - apply (inv_closed _ _ _ _ _ _ Hinv p q); auto.
    + intros Hin; inversion Hin.
    + apply list_elem_of_In, Hq.
Qed.

(** The loop ends within the fuel and keeps the invariant. *)
Lemma flood_loop_correct (game : GameState) (start : Position) (fuel : nat) :
  forall visited queue count seen,
    flood_inv game start visited queue count seen ->
    (length queue + length (unseen game visited) <= fuel)%nat ->
    exists visited' seen',
      flood_loop fuel game visited queue count
      = Some (visited', Z.of_nat (length seen'))
      /\ flood_inv game start visited' [] (Z.of_nat (length seen')) seen'.
Proof.
  induction fuel as [|fuel IH]; intros visited queue count seen Hinv Hfuel.
  - destruct queue as [|current queue]; [|cbn in Hfuel; lia].
    exists visited, seen. cbn. rewrite (inv_count _ _ _ _ _ _ Hinv).
    split; [reflexivity|]. rewrite <- (inv_count _ _ _ _ _ _ Hinv). exact Hinv.
  - destruct queue as [|current queue].
    { exists visited, seen. cbn. rewrite (inv_count _ _ _ _ _ _ Hinv).
      split; [reflexivity|]. rewrite <- (inv_count _ _ _ _ _ _ Hinv). exact Hinv. }
    cbn [flood_loop].
    destruct (flood_visit_fold game (four_neighbours current) visited queue count)
      as (fresh & visited' & -> & Hnd & Hvis & Hfresh & Hall & Hlen).
    destruct Hinv as [Hnodup Hmarked Hcount Hstart Hreached Hqueue Hclosed].
    apply (IH visited' (queue ++ fresh)%list _ (seen ++ fresh)%list).
    + split.
      * apply NoDup_app. split; [exact Hnodup|]. split; [|exact Hnd].
        intros p Hp Hp'. apply Hmarked in Hp.
        apply Hfresh in Hp' as (_ & _ & Hp'). congruence.
      * intros p. rewrite Hvis, elem_of_app, Hmarked. reflexivity.
      * rewrite length_app, Hcount. lia.
      * apply elem_of_app. auto.
      * intros p Hp. apply elem_of_app in Hp as [Hp|Hp]; [auto|].
        apply Hfresh in Hp as (Hin & Hv & _).
        apply (Reaches_step game start current p); auto.
        -- apply Hreached, Hqueue, elem_of_cons. auto.
        -- apply list_elem_of_In, Hin.
      * intros p Hp. apply elem_of_app. apply elem_of_app in Hp as [Hp|Hp]; [|auto].
        left. apply Hqueue, elem_of_cons. auto.
      * intros p q Hp Hnq Hq Hv. apply not_elem_of_app in Hnq as [Hnq Hnf].
        apply elem_of_app in Hp as [Hp|Hp]; [|contradiction].
        apply elem_of_app. rewrite <- Hmarked, <- Hvis.
        destruct (decide (p = current)) as [->|Hne]; [auto|].
        apply Hvis. left. apply Hmarked.
        apply (Hclosed p q); auto.
        apply not_elem_of_cons. auto.
    + rewrite length_app. cbn [length] in Hfuel. lia.
Qed.

Lemma length_unseen_bound (game : GameState) (visited : gmap Position bool) :
  (length (unseen game visited) <= Z.to_nat (Size game * Size game))%nat.
Proof.
  unfold unseen. etransitivity; [apply List.filter_length_le|].
  rewrite length_board_cells.
  destruct (Z_lt_le_dec (Size game) 0) as [Hneg|Hpos].
  - rewrite (Z2Nat.nonpos (Size game)) by lia. cbn. lia.
  - rewrite Z2Nat.inj_mul by lia. lia.
Qed.

(** The flood fill ends, and what it marked are the cells reachable from
    the start, each counted once. *)
Lemma floodFill_correct (game : GameState) (start : Position) :
  exists visited seen,
    floodFill game start = Some (visited, Z.of_nat (length seen))
    /\ NoDup seen
    /\ (forall p, visited_at visited p = true <-> p ∈ seen)
    /\ (forall p, p ∈ seen <-> Reaches game start p).
Proof.
  unfold floodFill.
  destruct (flood_loop_correct game start (flood_fuel game)
              {[start := true]} [start] 1 [start])
    as (visited & seen & Hrun & Hinv).
  - split.
    + apply NoDup_singleton.
    + intros p. rewrite list_elem_of_singleton. unfold visited_at.
      destruct (decide (p = start)) as [->|Hne].
      * rewrite lookup_singleton_eq. tauto.
      * rewrite lookup_singleton_ne by auto. cbn. split; [discriminate | contradiction].
    + reflexivity.
    + apply list_elem_of_singleton. reflexivity.
    + intros p Hp. apply list_elem_of_singleton in Hp as ->. constructor.
    + auto.
    + intros p q Hp Hq. apply list_elem_of_singleton in Hp as ->.
      exfalso. apply Hq. apply list_elem_of_singleton. reflexivity.
  - unfold flood_fuel. cbn [length].
    pose proof (length_unseen_bound game {[start := true]}). lia.
  - exists visited, seen. split; [exact Hrun|].
    split; [apply (inv_NoDup _ _ _ _ _ _ Hinv)|].
    split; [apply (inv_marked _ _ _ _ _ _ Hinv)|].
    apply (flood_inv_done _ _ _ _ _ Hinv).
Qed.

Lemma countReachableTerritory_spec (game : GameState) (start : Position) :
  exists seen,
    NoDup seen
    /\ (forall p, p ∈ seen <-> Reaches game start p)
    /\ countReachableTerritory game start = Z.of_nat (length seen).
Proof.
  destruct (floodFill_correct game start) as (visited & seen & Hrun & Hnd & _ & Hseen).
  exists seen. unfold countReachableTerritory. rewrite Hrun. auto.
Qed.

(** *** The simulated visitation set *)

Lemma visited_at_simulateMove (game : GameState) (to p : Position) :
  visited_at (Visited (simulateMove game to)) p = true
  <-> p = to \/ is_Some (Visited game !! p).
Proof.
  unfold simulateMove, visited_at; cbn [Visited].
  destruct (decide (to = p)) as [->|Hne].
  - rewrite lookup_insert_eq. cbn. tauto.
  - rewrite lookup_insert_ne, lookup_fmap by auto.
    destruct (Visited game !! p) as [b|]; cbn.
    + split; [intros _; right; eauto | reflexivity].
    + split; [discriminate | intros [->|[b Hb]]; [contradiction | discriminate]].
Qed.

Lemma IsValidMove_simulateMove_to (game : GameState) (to : Position) :
  IsValidMove (simulateMove game to) to = false.
Proof.
  destruct (IsValidMove (simulateMove game to) to) eqn:E; [|reflexivity].
  apply IsValidMove_true in E as [_ E].
  assert (visited_at (Visited (simulateMove game to)) to = true)
    by (apply visited_at_simulateMove; auto).
  congruence.
Qed.

Lemma Reaches_component (game : GameState) (start p : Position) :
  Reaches game start p <-> p = start \/ in_component game start p.
Proof.
  split.
  - intros Hp. destruct Hp as [|q p Hq Hin Hv]; [auto|].
    right. split; [exact Hv|]. apply (Reaches_step game start q p); auto.
  - intros [->|[_ Hp]]; [constructor | exact Hp].
Qed.

(** *** Immediate moves *)

Lemma countAvailableMoves_length (game : GameState) (pos : Position) :
  countAvailableMoves game pos
  = Z.of_nat (length (List.filter (IsValidMove game) (four_neighbours pos))).
Proof.
  unfold countAvailableMoves, four_neighbours. cbn [fold_left List.filter].
  repeat match goal with
    | |- context [IsValidMove game ?p] => destruct (IsValidMove game p)
    end; reflexivity.
Qed.

Lemma NoDup_four_neighbours (pos : Position) : NoDup (four_neighbours pos).
Proof.
  destruct pos as [r c]. unfold four_neighbours; cbn [Row Col].
  pose proof (wrap64_pred_neq r). pose proof (wrap64_succ_neq r).
  pose proof (wrap64_pred_neq c). pose proof (wrap64_succ_neq c).
  pose proof (wrap64_pred_succ_neq r). pose proof (wrap64_pred_succ_neq c).
  repeat (apply NoDup_cons; split;
          [rewrite ?not_elem_of_cons; repeat split;
           first [apply not_elem_of_nil | intros [= ? ?]; congruence
                 | intros [= ?]; congruence]|]).
  constructor.
Qed.

Lemma not_elem_of_four_neighbours (pos : Position) : pos ∉ four_neighbours pos.
Proof.
  destruct pos as [r c]. unfold four_neighbours; cbn [Row Col].
  pose proof (wrap64_pred_neq r). pose proof (wrap64_succ_neq r).
  pose proof (wrap64_pred_neq c). pose proof (wrap64_succ_neq c).
  rewrite ?not_elem_of_cons; repeat split;
    first [apply not_elem_of_nil | intros [= ? ?]; congruence
          | intros [= ?]; congruence].
Qed.

(** The flood-fill count covers the start and its legal neighbours. *)
Lemma countReachableTerritory_neighbours (game : GameState) (start : Position) :
  countAvailableMoves game start + 1 <= countReachableTerritory game start.
Proof.
  destruct (countReachableTerritory_spec game start) as (seen & Hnd & Hseen & ->).
  rewrite countAvailableMoves_length.
  set (near := List.filter (IsValidMove game) (four_neighbours start)).
  assert (Hle : (length (start :: near) <= length seen)%nat).
  { apply submseteq_length, NoDup_submseteq.
    - apply NoDup_cons. split.
      + intros Hin. apply list_elem_of_In, filter_In in Hin as [Hin _].
        apply (not_elem_of_four_neighbours start), list_elem_of_In, Hin.
      + apply NoDup_ListNoDup, List.NoDup_filter, NoDup_ListNoDup,
          NoDup_four_neighbours.
    - intros p Hp. apply Hseen. apply elem_of_cons in Hp as [->|Hp]; [constructor|].
      apply list_elem_of_In, filter_In in Hp as [Hin Hv].
      apply (Reaches_step game start start p); auto. constructor. }
  cbn [length] in Hle. lia.
Qed.

(** ** Reachable territory of an evaluated move *)

Lemma evaluateMove_fields (game : GameState) (currentPos : Position)
    (dir : Direction) :
  let newPos := getNewPosition currentPos dir in
  let simGame := simulateMove game newPos in
  NewPos (evaluateMove game currentPos dir) = newPos
  /\ ImmediateMoves (evaluateMove game currentPos dir)
     = countAvailableMoves simGame newPos
  /\ ReachableTerritory (evaluateMove game currentPos dir)
     = countReachableTerritory simGame newPos.
Proof. repeat split. Qed.

Lemma IsValidMove_simulateMove (game : GameState) (to q : Position) :
  IsValidMove (simulateMove game to) q = true -> IsValidMove game q = true.
Proof.
  intros Hv. apply IsValidMove_true in Hv as [Hb Hfree].
  apply IsValidMove_true. split; [exact Hb|].
  destruct (visited_at (Visited game) q) eqn:E; [|reflexivity].
  assert (visited_at (Visited (simulateMove game to)) q = true) as Hsim.
  { apply visited_at_simulateMove. right. unfold visited_at in E.
    destruct (Visited game !! q); [eauto | discriminate]. }
  congruence.
Qed.

(** The count of the flood fill over the simulated set: the landing cell
    and the cells of the simulated board reachable from it. *)
Lemma ReachableTerritory_count (game : GameState) (currentPos : Position)
    (dir : Direction) :
  let newPos := getNewPosition currentPos dir in
  let simGame := simulateMove game newPos in
  exists component : list Position,
    NoDup component
    /\ newPos ∈ component
    /\ (forall q, q ∈ component <-> Reaches simGame newPos q)
    /\ (forall q, q ∈ component -> q = newPos \/ in_component simGame newPos q)
    /\ ReachableTerritory (evaluateMove game currentPos dir)
       = Z.of_nat (length component).
Proof.
  intros newPos simGame.
  destruct (countReachableTerritory_spec simGame newPos)
    as (seen & Hnd & Hseen & Hcount).
  exists seen. split; [exact Hnd|]. split; [apply Hseen; constructor|].
  split; [exact Hseen|]. split; [|exact Hcount].
  intros q Hq. apply Reaches_component, Hseen, Hq.
Qed.


(** C10: the reachable territory of an evaluated move is at least its
    count of immediate moves plus one, the landing cell itself; it is
    never 0, even for a landing cell enclosed by visited cells or walls. *)
Theorem territory_covers_mobility (game : GameState) (currentPos : Position)
    (dir : Direction) :
  ImmediateMoves (evaluateMove game currentPos dir) + 1
  <= ReachableTerritory (evaluateMove game currentPos dir)
  /\ 1 <= ReachableTerritory (evaluateMove game currentPos dir).
Proof.
  destruct (evaluateMove_fields game currentPos dir) as (_ & -> & ->).
  pose proof (countReachableTerritory_neighbours
                (simulateMove game (getNewPosition currentPos dir))
                (getNewPosition currentPos dir)) as Hle.
  split; [exact Hle|].
  rewrite countAvailableMoves_length in Hle. lia.
Qed.

(** ** Players and rotation *)

Lemma NoDup_PlayerIDs : NoDup PlayerIDs.
Proof.
  unfold PlayerIDs.
  repeat (apply NoDup_cons; split;
          [rewrite ?not_elem_of_cons; repeat split;
           first [apply not_elem_of_nil | discriminate]|]).
  constructor.
Qed.

Lemma NoDup_player_ids (game : GameState) : NoDup (player_ids game).
Proof.
  eapply sublist_NoDup; [apply NoDup_PlayerIDs | apply sublist_take].
Qed.

Lemma slice_get_player_id (i : Z) :
  0 <= i < 10 -> slice_get PlayerIDs i = Ret (player_id i).
Proof.
  intros Hi. destruct (slice_get_Ret PlayerIDs i) as (id & -> & Hid); [cbn; lia|].
  unfold player_id. rewrite Hid. reflexivity.
Qed.

Lemma player_id_elem_of (game : GameState) (i : Z) :
  NumPlayers game <= 10 -> 0 <= i < NumPlayers game ->
  player_id i ∈ player_ids game.
Proof.
  intros Hn Hi. unfold player_ids, player_id.
  destruct (PlayerIDs !! Z.to_nat i) as [id|] eqn:E.
  - cbn. apply list_elem_of_lookup. exists (Z.to_nat i).
    rewrite lookup_take_lt by lia. exact E.
  - apply lookup_ge_None in E. cbn in E. lia.
Qed.

Lemma elem_of_player_ids (game : GameState) (id : string) :
  NumPlayers game <= 10 -> id ∈ player_ids game ->
  exists i, 0 <= i < NumPlayers game /\ id = player_id i.
Proof.
  intros Hn Hin. unfold player_ids in Hin.
  apply list_elem_of_lookup in Hin as (k & Hk).
  apply lookup_take_Some in Hk as [Hk Hlt].
  exists (Z.of_nat k). split; [lia|].
  unfold player_id. rewrite Nat2Z.id, Hk. reflexivity.
Qed.

Lemma elem_of_active_players (game : GameState) (id : string) :
  id ∈ active_players game
  <-> id ∈ player_ids game /\ active_at (ActivePlayers game) id = true.
Proof.
  unfold active_players.
  rewrite list_elem_of_In, filter_In, <- list_elem_of_In. reflexivity.
Qed.

Lemma NoDup_active_players (game : GameState) : NoDup (active_players game).
Proof.
  apply NoDup_ListNoDup, List.NoDup_filter, NoDup_ListNoDup, NoDup_player_ids.
Qed.

Lemma last_cons_default {A : Type} (a d : A) (l : list A) :
  List.last (a :: l) d = List.last l a.
Proof.
  revert a d. induction l as [|b l IH]; intros a d; [reflexivity|].
  change (List.last (a :: b :: l) d) with (List.last (b :: l) d).
  rewrite !IH. reflexivity.
Qed.

Section Rotation.

Context `{GoStrings} `{Environment}.

(** The scan stops on an active player, or has seen only inactive ones. *)
Lemma next_active_spec (game : GameState) (attempts : nat) (index : Z) :
  1 <= NumPlayers game <= 10 ->
  0 <= index < NumPlayers game ->
  exists found,
    next_active attempts game index = Ret found
    /\ 0 <= found < NumPlayers game
    /\ (active_at (ActivePlayers game) (player_id found) = true
        \/ forall j, 0 <= j < Z.of_nat attempts ->
             active_at (ActivePlayers game)
                       (player_id ((index + j) mod NumPlayers game)) = false).
Proof.
  intros Hn. revert index.
  induction attempts as [|k IH]; intros index Hi; cbn [next_active].
  - exists index. split; [reflexivity|]. split; [exact Hi|]. right. intros j Hj. lia.
  - rewrite slice_get_player_id by lia. cbn.
    destruct (active_at (ActivePlayers game) (player_id index)) eqn:Hact.
    + exists index. auto.
    + destruct (NumPlayers game =? 0) eqn:E0; [apply Z.eqb_eq in E0; lia|].
      rewrite Z.rem_mod_nonneg by lia.
      destruct (IH ((index + 1) mod NumPlayers game)) as (found & -> & Hf & Hcase).
      { apply Z.mod_pos_bound. lia. }
      exists found. split; [reflexivity|]. split; [exact Hf|].
      destruct Hcase as [Hfound|Hnone]; [auto|]. right.
      intros j Hj. destruct (Z.eq_dec j 0) as [->|Hj0].
      * rewrite Z.add_0_r, Z.mod_small by lia. exact Hact.
      * specialize (Hnone (j - 1) ltac:(lia)).
        rewrite Zplus_mod_idemp_l in Hnone.
        replace (index + 1 + (j - 1)) with (index + j) in Hnone by lia.
        exact Hnone.
Qed.

(** After a full turn of the rotation an active player is found
    whenever there is one. *)
Lemma next_active_full (game : GameState) (index : Z) :
  1 <= NumPlayers game <= 10 ->
  0 <= index < NumPlayers game ->
  exists found,
    next_active (Z.to_nat (NumPlayers game)) game index = Ret found
    /\ 0 <= found < NumPlayers game
    /\ (active_players game <> [] ->
        active_at (ActivePlayers game) (player_id found) = true).
Proof.
  intros Hn Hi.
  destruct (next_active_spec game (Z.to_nat (NumPlayers game)) index Hn Hi)
    as (found & Hrun & Hf & Hcase).
  exists found. split; [exact Hrun|]. split; [exact Hf|].
  intros Hsome. destruct Hcase as [Hact|Hnone]; [exact Hact|].
  exfalso. apply Hsome. apply elem_of_nil_inv. intros id Hid.
  apply elem_of_active_players in Hid as [Hid Hact].
  apply elem_of_player_ids in Hid as (i & Hi' & ->); [|lia].
  specialize (Hnone ((i - index) mod NumPlayers game)).
  rewrite Zplus_mod_idemp_r in Hnone.
  replace (index + (i - index)) with i in Hnone by lia.
  rewrite (Z.mod_small i) in Hnone by lia.
  rewrite Hnone in Hact; [discriminate|].
  pose proof (Z.mod_pos_bound (i - index) (NumPlayers game)). lia.
Qed.

(** The count of active players and the last of them. *)
Lemma count_active_spec (game : GameState) (n : nat) (i : Z)
    (activeCount : Z) (lastActivePlayer : string) :
  0 <= i -> i + Z.of_nat n <= 10 ->
  let scanned :=
    List.filter (fun id => active_at (ActivePlayers game) id)
                (take n (drop (Z.to_nat i) PlayerIDs)) in
  count_active n i game activeCount lastActivePlayer
  = Ret (activeCount + Z.of_nat (length scanned),
         List.last scanned lastActivePlayer).
Proof.
  revert i activeCount lastActivePlayer.
  induction n as [|n IH]; intros i activeCount lastActivePlayer Hi Hn scanned.
  - subst scanned. cbn. rewrite Z.add_0_r. reflexivity.
  - cbn [count_active].
    destruct (slice_get_Ret PlayerIDs i) as (id & -> & Hid); [cbn; lia|].
    cbn [mbind Run_bind].
    assert (Hdrop : take (S n) (drop (Z.to_nat i) PlayerIDs)
                    = id :: take n (drop (Z.to_nat (i + 1)) PlayerIDs)).
    { rewrite (drop_S _ _ _ Hid). cbn [take].
      replace (Z.to_nat (i + 1)) with (S (Z.to_nat i)) by lia. reflexivity. }
    subst scanned. rewrite Hdrop. cbn [List.filter].
    destruct (active_at (ActivePlayers game) id).
    + rewrite IH by lia. rewrite last_cons_default. cbn [length].
      f_equal. f_equal. lia.
    + rewrite IH by lia. reflexivity.
Qed.

Lemma count_active_players (game : GameState) :
  0 <= NumPlayers game <= 10 ->
  count_active (Z.to_nat (NumPlayers game)) 0 game 0 ""
  = Ret (Z.of_nat (length (active_players game)),
         List.last (active_players game) "").
Proof.
  intros Hn. rewrite count_active_spec by lia. reflexivity.
Qed.

End Rotation.

(** ** Legal directions *)

Lemma elem_of_GetValidMoves (game : GameState) (player : string) (d : Direction) :
  d ∈ GetValidMoves game player
  <-> IsValidMove game (getNewPosition (getPlayerPos game player) d) = true.
Proof.
  unfold GetValidMoves, getPlayerPos. cbn [fold_left fst snd app].
  set (pos := pos_at (PlayerPos game) player).
  destruct (IsValidMove game {| Row := wrap64 (Row pos - 1); Col := Col pos |}) eqn:Eu,
    (IsValidMove game {| Row := wrap64 (Row pos + 1); Col := Col pos |}) eqn:Ed,
    (IsValidMove game {| Row := Row pos; Col := wrap64 (Col pos - 1) |}) eqn:El,
    (IsValidMove game {| Row := Row pos; Col := wrap64 (Col pos + 1) |}) eqn:Er;
    cbn [app]; destruct d; cbn [getNewPosition];
    rewrite ?Eu, ?Ed, ?El, ?Er, ?elem_of_cons, ?elem_of_nil;
    split; intros Hx; try discriminate; try reflexivity;
    repeat (destruct Hx as [Hx|Hx]; try discriminate); try contradiction; auto 6.
Qed.

(** ** One pass of the turn loop *)

Lemma game_ok_set_active (game : GameState) (player : string) (b : bool) :
  game_ok game -> game_ok (set_active game player b).
Proof. intros [Hn Hg Hh Hc]. split; auto. Qed.

Lemma length_active_players_eliminate (game : GameState) (player : string) :
  player ∈ active_players game ->
  length (active_players game)
  = S (length (active_players (set_active game player false))).
Proof.
  intros Hin. apply elem_of_active_players in Hin as [Hin Hact].
  unfold active_players, set_active; cbn [ActivePlayers NumPlayers player_ids].
  change (player_ids {| Grid := Grid game; Size := Size game;
                        NumPlayers := NumPlayers game;
                        PlayerPos := PlayerPos game;
                        PlayerConfigs := PlayerConfigs game;
                        ActivePlayers := <[player := false]> (ActivePlayers game);
                        Moves := Moves game; Visited := Visited game |})
    with (player_ids game).
  apply (length_filter_drop_one _ _ player).
  - apply NoDup_player_ids.
  - exact Hin.
  - exact Hact.
  - unfold active_at. rewrite lookup_insert_eq. reflexivity.
  - intros y Hy. unfold active_at. rewrite lookup_insert_ne by auto. reflexivity.
Qed.

Lemma active_at_set_active (game : GameState) (player other : string) (b : bool) :
  active_at (ActivePlayers (set_active game player b)) other
  = if decide (player = other) then b
    else active_at (ActivePlayers game) other.
Proof.
  unfold set_active, active_at; cbn [ActivePlayers]. rewrite lookup_insert.
  destruct (decide (player = other)); reflexivity.
Qed.

(** A legal move keeps the game well formed and takes one free cell. *)
Lemma MakeMove_legal (game : GameState) (player : string) (direction : Direction) :
  game_ok game ->
  player ∈ player_ids game ->
  direction ∈ GetValidMoves game player ->
  exists game',
    MakeMove game player direction = Ret game'
    /\ game_ok game'
    /\ Size game' = Size game
    /\ NumPlayers game' = NumPlayers game
    /\ ActivePlayers game' = ActivePlayers game
    /\ Moves game'
       = (Moves game
            ++ [ {| Player := player; MoveDirection := direction;
                    From := getPlayerPos game player;
                    To := getNewPosition (getPlayerPos game player) direction |} ])%list
    /\ visited_at (Visited game)
                  (getNewPosition (getPlayerPos game player) direction) = false
    /\ Visited game'
       = <[getNewPosition (getPlayerPos game player) direction := true]>
           (Visited game)
    /\ length (free_cells game) = S (length (free_cells game')).
Proof.
  intros Hok Hplayer Hdir. pose proof Hok as [Hn Hg Hh Hc].
  apply elem_of_GetValidMoves in Hdir.
  set (oldPos := getPlayerPos game player) in *.
  set (newPos := getNewPosition oldPos direction) in *.
  pose proof Hdir as Hvalid. apply IsValidMove_true in Hdir as [Hin Hfree].
  destruct (Hh player Hplayer) as [Hold _]. fold oldPos in Hold.
  destruct (MakeMove_effects game player direction Hg ltac:(lia) Hold Hin)
    as (game' & Hrun & Hsize & Hnum & Hpos & Hcfg & Hact & Hmoves & Hvis & Hgrid & _).
  exists game'. split; [exact Hrun|].
  assert (Hids : player_ids game' = player_ids game)
    by (unfold player_ids; rewrite Hnum; reflexivity).
  split; [|repeat split; auto].
  - split.
    + rewrite Hnum. exact Hn.
    + rewrite Hsize. exact Hgrid.
    + intros id Hid. rewrite Hids in Hid.
      unfold getPlayerPos, in_bounds. rewrite Hpos, Hvis, Hsize.
      unfold pos_at. destruct (decide (player = id)) as [->|Hne].
      * rewrite lookup_insert_eq. cbn [default]. split; [exact Hin|].
        rewrite visited_at_insert, decide_True; reflexivity.
      * rewrite lookup_insert_ne by auto. destruct (Hh id Hid) as [Hb Hv].
        split; [exact Hb|].
        rewrite visited_at_insert. destruct (decide _); [reflexivity | exact Hv].
    + intros id Hid. rewrite Hids in Hid. rewrite Hcfg. auto.
  - unfold free_cells. rewrite Hvis, Hsize.
    apply (length_filter_drop_one _ _ newPos).
    + apply NoDup_board_cells.
    + apply elem_of_board_cells, Hin.
    + rewrite Hfree. reflexivity.
    + rewrite visited_at_insert, decide_True; reflexivity.
    + intros y Hy. rewrite visited_at_insert, decide_False by auto. reflexivity.
Qed.

Section Round.

Context `{GoStrings} `{Environment}.

(** With at most one active player the pass returns: the survivor, or
    the empty string of a draw.  No request is made, no move is logged. *)
Lemma round_finished (st : LoopState) :
  loop_ok st ->
  (length (active_players (game_of st)) <= 1)%nat ->
  exists index,
    round st
    = Ret (Return (List.last (active_players (game_of st)) "")
                  {| game_of := game_of st; currentPlayerIndex := index;
                     moveCount := moveCount st; calls_of := calls_of st |}).
Proof.
  intros [Hok Hidx] Hfew. pose proof Hok as [Hn _ _ _].
  destruct (next_active_full (game_of st) (currentPlayerIndex st) Hn Hidx)
    as (found & Hrun & Hfound & _).
  exists found. unfold round. rewrite Hrun. cbn [mbind Run_bind].
  rewrite slice_get_player_id by lia. cbn [mbind Run_bind].
  rewrite count_active_players by lia. cbn [mbind Run_bind fst snd].
  destruct (active_players (game_of st)) as [|p [|q l]] eqn:E;
    [reflexivity | reflexivity | cbn in Hfew; lia].
Qed.

(** With two active players or more a turn is taken: the player is
    eliminated when no direction is legal, and is otherwise asked for a
    move, which is executed unless the Oracle fails. *)
Lemma round_turn (st : LoopState) :
  loop_ok st ->
  (2 <= length (active_players (game_of st)))%nat ->
  let game := game_of st in
  exists index currentPlayer,
    turn_of st = Ret currentPlayer
    /\ currentPlayer = player_id index
    /\ 0 <= index < NumPlayers game
    /\ currentPlayer ∈ active_players game
    /\ (GetValidMoves game currentPlayer = [] ->
        round st
        = Ret (Continue
                 {| game_of := set_active game currentPlayer false;
                    currentPlayerIndex := (index + 1) mod NumPlayers game;
                    moveCount := moveCount st + 1;
                    calls_of := calls_of st |}))
    /\ (GetValidMoves game currentPlayer <> [] ->
        exists answer made,
          GetLLMMove (calls_of st) game currentPlayer
                     (GetValidMoves game currentPlayer)
          = Ret (answer, (made ++ calls_of st)%list)
          /\ match answer with
             | inr _ =>
                 round st
                 = Ret (Return "error"
                          {| game_of := game; currentPlayerIndex := index;
                             moveCount := moveCount st + 1;
                             calls_of := (made ++ calls_of st)%list |})
             | inl direction =>
                 direction ∈ GetValidMoves game currentPlayer
                 /\ exists game',
                     MakeMove game currentPlayer direction = Ret game'
                     /\ round st
                        = Ret (Continue
                                 {| game_of := game';
                                    currentPlayerIndex :=
                                      (index + 1) mod NumPlayers game;
                                    moveCount := moveCount st + 1;
                                    calls_of := (made ++ calls_of st)%list |})
             end).
Proof.
  intros [Hok Hidx] Hmany game. subst game. set (game := game_of st) in *.
  pose proof Hok as [Hn _ _ Hcfg].
  destruct (next_active_full game (currentPlayerIndex st) Hn Hidx)
    as (index & Hrun & Hindex & Hact).
  assert (Hsome : active_players game <> []).
  { intros E. rewrite E in Hmany. cbn in Hmany. lia. }
  specialize (Hact Hsome).
  assert (Hid : player_id index ∈ player_ids game)
    by (apply player_id_elem_of; lia).
  exists index, (player_id index).
  split; [|split; [reflexivity|split; [exact Hindex|split]]].
  { unfold turn_of. fold game. rewrite Hrun. cbn [mbind Run_bind].
    apply slice_get_player_id. lia. }
  { apply elem_of_active_players. auto. }
  assert (Hgt : (Z.of_nat (length (active_players game)) <=? 1) = false)
    by (apply Z.leb_gt; lia).
  assert (Hnz : (NumPlayers game =? 0) = false) by (apply Z.eqb_neq; lia).
  split.
  - intros Hnone. unfold round. fold game. rewrite Hrun. cbn [mbind Run_bind].
    rewrite slice_get_player_id by lia. cbn [mbind Run_bind].
    rewrite count_active_players by lia. cbn [mbind Run_bind fst snd].
    rewrite Hgt, Hnone.
    cbn [set_active NumPlayers moveCount calls_of]. rewrite Hnz.
    rewrite Z.rem_mod_nonneg by lia. reflexivity.
  - intros Hmoves.
    destruct (Hcfg _ Hid) as [config Hconfig].
    destruct (llm_attempts_history (Z.to_nat maxRetries) (calls_of st)
                (BuildPrompt game (player_id index)
                             (GetValidMoves game (player_id index)))
                config (GetValidMoves game (player_id index)))
      as (answer & made & Hllm & _ & Hlegal).
    assert (HGet : GetLLMMove (calls_of st) game (player_id index)
                     (GetValidMoves game (player_id index))
                   = Ret (answer, (made ++ calls_of st)%list)).
    { unfold GetLLMMove. rewrite Hconfig. exact Hllm. }
    exists answer, made. split; [exact HGet|].
    assert (Hunfold :
      round st
      = (answer0 ← GetLLMMove (calls_of st) game (player_id index)
                     (GetValidMoves game (player_id index));
         match answer0 with
         | (inr _, calls) =>
             Ret (Return "error"
                    {| game_of := game; currentPlayerIndex := index;
                       moveCount := moveCount st + 1; calls_of := calls |})
         | (inl direction, calls) =>
             game' ← MakeMove game (player_id index) direction;
             if NumPlayers game' =? 0
             then Panic "runtime error: integer divide by zero"
             else
               Ret (Continue
                      {| game_of := game';
                         currentPlayerIndex :=
                           Z.rem (index + 1) (NumPlayers game');
                         moveCount := moveCount st + 1; calls_of := calls |})
         end)).
    { unfold round. fold game. rewrite Hrun. cbn [mbind Run_bind].
      rewrite slice_get_player_id by lia. cbn [mbind Run_bind].
      rewrite count_active_players by lia. cbn [mbind Run_bind fst snd].
      rewrite Hgt. cbn [moveCount calls_of].
      destruct (GetValidMoves game (player_id index)); [contradiction|].
      reflexivity. }
    rewrite Hunfold, HGet. cbn [mbind Run_bind].
    destruct answer as [direction|err]; [|reflexivity].
    assert (Hdir : direction ∈ GetValidMoves game (player_id index))
      by (apply list_elem_of_In, Hlegal; reflexivity).
    split; [exact Hdir|].
    destruct (MakeMove_legal game (player_id index) direction Hok Hid Hdir)
      as (game' & Hmove & _ & _ & Hnum & _).
    exists game'. split; [exact Hmove|].
    rewrite Hmove. cbn [mbind Run_bind]. rewrite Hnum, Hnz.
    rewrite Z.rem_mod_nonneg by lia. reflexivity.
Qed.

End Round.

(** ** Game creation *)

Section Creation.

Context `{GoStrings} `{Environment}.

Lemma rand_Intn_range (k : nat) (n v : Z) :
  rand_Intn k n = Ret v -> 0 <= v < n.
Proof.
  unfold rand_Intn. destruct (n <=? 0) eqn:E; [discriminate|].
  apply Z.leb_gt in E. intros [= <-]. apply Z.mod_pos_bound. lia.
Qed.

(** A starting cell that was drawn lies on the board. *)
Lemma place_player_range (attempts k : nat) (pos : Position)
    (playerPos : gmap string Position) (placed : Position) (k' : nat) :
  place_player attempts k pos playerPos = Ret (placed, k') ->
  (attempts = 0%nat /\ placed = pos)
  \/ (0 <= Row placed < gridSize /\ 0 <= Col placed < gridSize).
Proof.
  revert k pos. induction attempts as [|a IH]; intros k pos; cbn [place_player].
  - intros [= <- <-]. auto.
  - destruct (rand_Intn k gridSize) as [row|] eqn:Er; [|discriminate].
    cbn [mbind Run_bind].
    destruct (rand_Intn (S k) gridSize) as [col|] eqn:Ec; [|discriminate].
    cbn [mbind Run_bind].
    apply rand_Intn_range in Er. apply rand_Intn_range in Ec.
    destruct (tooClose _ playerPos).
    + intros Hrec. apply IH in Hrec as [[-> ->]|Hrange]; right; [cbn; lia | exact Hrange].
    + intros [= <- <-]. right. cbn. lia.
Qed.

Lemma init_configs_spec (n : nat) (i : Z) (configs configs' : gmap string PlayerConfig) :
  0 <= i -> i + Z.of_nat n <= 10 ->
  init_configs n i configs = Ret configs' ->
  forall id, id ∈ take n (drop (Z.to_nat i) PlayerIDs) \/ is_Some (configs !! id) ->
             is_Some (configs' !! id).
Proof.
  revert i configs. induction n as [|n IH]; intros i configs Hi Hn; cbn [init_configs].
  - intros [= <-] id [Hin|Hsome]; [inversion Hin | exact Hsome].
  - destruct (slice_get_Ret PlayerIDs i) as (playerID & -> & Hid); [cbn; lia|].
    cbn [mbind Run_bind]. intros Hrec id Hcase.
    apply (IH (i + 1) _ ltac:(lia) ltac:(lia) Hrec).
    rewrite (drop_S _ _ _ Hid) in Hcase. cbn [take] in Hcase.
    replace (Z.to_nat (i + 1)) with (S (Z.to_nat i)) by lia.
    destruct Hcase as [Hin|Hsome].
    + apply elem_of_cons in Hin as [->|Hin]; [|auto].
      right. rewrite lookup_insert_eq. eauto.
    + right. destruct (decide (playerID = id)) as [->|Hne].
      * rewrite lookup_insert_eq. eauto.
      * rewrite lookup_insert_ne by auto. exact Hsome.
Qed.

Lemma init_players_spec (configs : gmap string PlayerConfig) (n : nat) (i : Z)
    (k : nat) (game game' : GameState) :
  0 <= i -> i + Z.of_nat n <= 10 ->
  placed_ok configs i game ->
  init_players n i k game = Ret game' ->
  placed_ok configs (i + Z.of_nat n) game'.
Proof.
  revert i k game. induction n as [|n IH]; intros i k game Hi Hn Hok;
    cbn [init_players].
  - intros [= <-]. rewrite Z.add_0_r. exact Hok.
  - destruct (slice_get_Ret PlayerIDs i) as (playerID & -> & Hid); [cbn; lia|].
    cbn [mbind Run_bind].
    destruct (place_player 1000 k {| Row := 0; Col := 0 |} (PlayerPos game))
      as [[pos k']|] eqn:Eplace; [|discriminate].
    cbn [mbind Run_bind fst snd].
    apply place_player_range in Eplace as [[Hz _]|[Hr Hc]]; [discriminate|].
    destruct Hok as [Hsize Hnum Hgrid Hmoves Hcfg Hheads].
    destruct (grid_set_Ret gridSize (Grid game) pos playerID Hgrid Hr Hc)
      as (grid & -> & Hgrid' & _).
    cbn [mbind Run_bind]. intros Hrec.
    replace (i + Z.of_nat (S n)) with ((i + 1) + Z.of_nat n) by lia.
    apply (IH (i + 1) k' _ ltac:(lia) ltac:(lia)) in Hrec; [exact Hrec|].
    split; cbn [Size NumPlayers Grid Moves PlayerConfigs]; auto.
    intros id Hin.
    replace (Z.to_nat (i + 1)) with (S (Z.to_nat i)) in Hin by lia.
    rewrite (take_S_r _ _ _ Hid) in Hin.
    unfold getPlayerPos, in_bounds, pos_at, active_at;
      cbn [PlayerPos Visited ActivePlayers Size].
    apply elem_of_app in Hin as [Hin|Hin].
    + assert (playerID <> id) as Hne.
      { intros ->. apply list_elem_of_lookup in Hin as (j & Hj).
        apply lookup_take_Some in Hj as [Hj Hlt].
        pose proof (NoDup_lookup _ _ _ _ NoDup_PlayerIDs Hj Hid). lia. }
      rewrite !lookup_insert_ne by auto.
      destruct (Hheads id Hin) as (Hb & Hv & Ha).
      split; [exact Hb|]. split; [|exact Ha].
      rewrite visited_at_insert. destruct (decide _); [reflexivity | exact Hv].
    + apply list_elem_of_singleton in Hin as ->.
      rewrite !lookup_insert_eq. cbn [default].
      split; [rewrite Hsize; auto|]. split; [|reflexivity].
      rewrite visited_at_insert, decide_True; reflexivity.
Qed.

(** [InitGame] builds a well-formed game with every player active. *)
Lemma InitGame_ok (game : GameState) :
  1 <= numPlayers <= 10 ->
  InitGame = Ret game ->
  game_ok game
  /\ Size game = gridSize
  /\ NumPlayers game = numPlayers
  /\ Moves game = []
  /\ active_players game = player_ids game.
Proof.
  intros Hn. unfold InitGame.
  destruct (gridSize <? 0) eqn:Eneg; [discriminate|]. apply Z.ltb_ge in Eneg.
  destruct (init_configs (Z.to_nat numPlayers) 0 ∅) as [configs|] eqn:Ecfg;
    [|discriminate].
  cbn [mbind Run_bind]. intros Hrun.
  pose proof (init_configs_spec (Z.to_nat numPlayers) 0 ∅ configs
                ltac:(lia) ltac:(lia) Ecfg) as Hconfigs.
  apply (init_players_spec configs) in Hrun; [|lia|lia|].
  - destruct Hrun as [Hsize Hnum Hgrid Hmoves Hcfg Hheads].
    assert (Hids : player_ids game = take (Z.to_nat (0 + Z.of_nat (Z.to_nat numPlayers))) PlayerIDs).
    { unfold player_ids. rewrite Hnum. f_equal. lia. }
    split; [|repeat split; auto].
    + split.
      * rewrite Hnum. exact Hn.
      * rewrite Hsize. exact Hgrid.
      * intros id Hid. rewrite Hids in Hid.
        destruct (Hheads id Hid) as (? & ? & ?). auto.
      * intros id Hid. rewrite Hcfg. apply Hconfigs. left.
        unfold player_ids in Hid. rewrite Hnum in Hid. exact Hid.
    + unfold active_players. apply forallb_filter_id, forallb_forall.
      intros id Hid. apply list_elem_of_In in Hid. rewrite Hids in Hid.
      destruct (Hheads id Hid) as (_ & _ & Ha). exact Ha.
  - split; cbn [Size NumPlayers Grid Moves PlayerConfigs]; auto.
    + split.
      * apply length_replicate.
      * apply Forall_replicate, length_replicate.
    + intros id Hid. cbn in Hid. inversion Hid.
Qed.

End Creation.

(** ** Progress of the turn loop *)

Lemma filter_length_lt {A : Type} (f : A -> bool) (l : list A) (x : A) :
  In x l -> f x = false -> (length (List.filter f l) < length l)%nat.
Proof.
  induction l as [|a l IH]; [intros []|].
  intros [->|Hin] Hx; cbn [List.filter].
  - rewrite Hx. pose proof (List.filter_length_le f l). cbn. lia.
  - specialize (IH Hin Hx). destruct (f a); cbn; lia.
Qed.

Section Progress.

Context `{GoStrings} `{Environment}.

(** A pass on a well-formed state never panics. *)
Lemma round_progress (st : LoopState) :
  loop_ok st -> exists step, round st = Ret step /\ pass_ok st step.
Proof.
  intros Hok.
  destruct (le_lt_dec (length (active_players (game_of st))) 1) as [Hfew|Hmany].
  { destruct (round_finished st Hok Hfew) as (index & ->).
    eexists. split; reflexivity. }
  destruct (round_turn st Hok Hmany)
    as (index & player & _ & -> & Hindex & Hactive & Hnone & Hsome).
  destruct Hok as [Hgame Hidx]. pose proof Hgame as [Hn _ _ _].
  assert (Hnext : 0 <= (index + 1) mod NumPlayers (game_of st)
                  < NumPlayers (game_of st))
    by (apply Z.mod_pos_bound; lia).
  destruct (GetValidMoves (game_of st) (player_id index)) as [|d moves] eqn:Emoves.
  - rewrite (Hnone eq_refl). eexists. split; [reflexivity|].
    cbn [pass_ok game_of calls_of].
    pose proof (length_active_players_eliminate _ _ Hactive) as Hlen.
    split; [|split; [|split]].
    + split; [apply game_ok_set_active, Hgame | exact Hnext].
    + unfold measure. rewrite Hlen. unfold free_cells; cbn. lia.
    + lia.
    + left. exists (player_id index). auto.
  - destruct Hsome as (answer & made & _ & Hcase); [discriminate|].
    destruct answer as [direction|err].
    + destruct Hcase as (Hdir & game' & Hmove & ->).
      eexists. split; [reflexivity|]. cbn [pass_ok game_of calls_of].
      pose proof Hactive as Hplayer.
      apply elem_of_active_players in Hplayer as [Hplayer _].
      rewrite <- Emoves in Hdir.
      destruct (MakeMove_legal _ _ _ Hgame Hplayer Hdir)
        as (game'' & Hmove' & Hgame' & Hsize & Hnum & Hact & _ & Hfree & Hvis & Hlen).
      assert (game'' = game') as -> by congruence.
      assert (Hsame : active_players game' = active_players (game_of st)).
      { unfold active_players, player_ids. rewrite Hact, Hnum. reflexivity. }
      split; [|split; [|split]].
      * split; [exact Hgame'|]. cbn [game_of currentPlayerIndex].
        rewrite Hnum. exact Hnext.
      * unfold measure. rewrite Hsame, Hlen. lia.
      * rewrite Hsame. lia.
      * right. exists (player_id index), direction.
        repeat split; auto.
        rewrite Hvis, visited_at_insert, decide_True; reflexivity.
    + rewrite Hcase. eexists. split; reflexivity.
Qed.

Lemma reachable_ok (st : LoopState) : reachable st -> loop_ok st.
Proof.
  induction 1 as [game calls Hn Hinit|st next Hreach IH Hround].
  - assert (Hn1 : 1 <= numPlayers <= 10) by lia.
    destruct (InitGame_ok game Hn1 Hinit) as (Hok & _ & Hnum & _).
    split; [exact Hok|]. unfold start_of. cbn [game_of currentPlayerIndex].
    rewrite Hnum. lia.
  - destruct (round_progress st IH) as (step & Hstep & Hpass).
    rewrite Hround in Hstep. injection Hstep as <-.
    exact (proj1 Hpass).
Qed.

(** The loop returns within [measure] passes. *)
Lemma play_rounds_terminates (n : nat) (st : LoopState) :
  loop_ok st ->
  (1 <= n)%nat -> (measure (game_of st) <= n)%nat ->
  exists result final, play_rounds n st = Ret (Some (result, final)).
Proof.
  revert st. induction n as [|n IH]; intros st Hok Hpos Hle; [lia|].
  cbn [play_rounds].
  destruct (round_progress st Hok) as (step & -> & Hpass).
  cbn [mbind Run_bind]. destruct step as [result final|next].
  - eauto.
  - destruct Hpass as (Hnext & Hmeasure & Hactive & _).
    apply IH; [exact Hnext | |]; unfold measure in *; lia.
Qed.

(** The bound of a fresh game: at least one cell is taken. *)
Lemma measure_start (game : GameState) :
  2 <= numPlayers <= 10 ->
  InitGame = Ret game ->
  (1 <= measure game <= Z.to_nat (Size game * Size game * NumPlayers game))%nat.
Proof.
  intros Hn Hinit.
  assert (Hn1 : 1 <= numPlayers <= 10) by lia.
  destruct (InitGame_ok game Hn1 Hinit) as (Hok & _ & Hnum & _ & Hall).
  destruct Hok as [_ _ Hheads _].
  assert (Hfirst : player_id 0 ∈ player_ids game)
    by (apply player_id_elem_of; lia).
  destruct (Hheads _ Hfirst) as [Hb Hv].
  assert (Hfree : (length (free_cells game)
                   < length (board_cells (Size game)))%nat).
  { unfold free_cells.
    apply (filter_length_lt _ _ (getPlayerPos game (player_id 0))).
    - apply list_elem_of_In, elem_of_board_cells, Hb.
    - rewrite Hv. reflexivity. }
  rewrite length_board_cells in Hfree.
  assert (Hplayers : length (active_players game) = Z.to_nat (NumPlayers game)).
  { rewrite Hall. unfold player_ids. rewrite length_take. cbn [length PlayerIDs]. lia. }
  unfold measure. rewrite Hplayers.
  destruct Hb as [Hr _].
  assert (0 < Size game) by lia.
  rewrite !Z2Nat.inj_mul by lia.
  assert (1 <= Z.to_nat (Size game))%nat by lia.
  assert (2 <= Z.to_nat (NumPlayers game))%nat by lia.
  nia.
Qed.

End Progress.

(** ** Elimination, victory and termination *)

(** C1: in every reachable state in which a turn is taken (two players or
    more are active), the player whose turn it is is active, and is
    eliminated by this pass if and only if the valid moves computed for
    them are empty; in that case no request is sent to the Oracle and no
    move is logged.  Nobody else changes status. *)
Theorem elimination_iff_no_valid_move (S : GoStrings) (E : Environment)
    (st : LoopState) :
  reachable st ->
  (2 <= length (active_players (game_of st)))%nat ->
  exists currentPlayer step,
    turn_of st = Ret currentPlayer
    /\ round st = Ret step
    /\ active_at (ActivePlayers (game_of st)) currentPlayer = true
    /\ (active_at (ActivePlayers (game_of (state_of step))) currentPlayer = false
        <-> GetValidMoves (game_of st) currentPlayer = [])
    /\ (GetValidMoves (game_of st) currentPlayer = [] ->
        calls_of (state_of step) = calls_of st
        /\ Moves (game_of (state_of step)) = Moves (game_of st))
    /\ (forall other, other <> currentPlayer ->
          active_at (ActivePlayers (game_of (state_of step))) other
          = active_at (ActivePlayers (game_of st)) other).
Proof.
  intros Hreach Hmany. pose proof (reachable_ok st Hreach) as Hok.
  destruct (round_turn st Hok Hmany)
    as (index & player & Hturn & Hplayer & Hindex & Hactive & Hnone & Hsome).
  pose proof Hactive as Hin. apply elem_of_active_players in Hin as [Hid Hact].
  exists player.
  destruct (GetValidMoves (game_of st) player) as [|d moves] eqn:Emoves.
  - eexists. split; [exact Hturn|]. split; [exact (Hnone eq_refl)|].
    cbn [state_of game_of calls_of]. split; [exact Hact|].
    split; [|split].
    + rewrite active_at_set_active, decide_True by reflexivity. tauto.
    + intros _. split; reflexivity.
    + intros other Hne. rewrite active_at_set_active, decide_False by auto.
      reflexivity.
  - destruct Hsome as (answer & made & _ & Hcase); [discriminate|].
    destruct answer as [direction|err].
    + destruct Hcase as (Hdir & game' & Hmove & Hround).
      eexists. split; [exact Hturn|]. split; [exact Hround|].
      cbn [state_of game_of calls_of]. split; [exact Hact|].
      rewrite <- Emoves in Hdir.
      destruct (MakeMove_legal _ _ _ (proj1 Hok) Hid Hdir)
        as (game'' & Hmove' & _ & _ & _ & Hsame & _).
      assert (game'' = game') as -> by congruence.
      rewrite Hsame. split; [|split].
      * rewrite Hact. split; discriminate.
      * discriminate.
      * reflexivity.
    + eexists. split; [exact Hturn|]. split; [exact Hcase|].
      cbn [state_of game_of calls_of]. split; [exact Hact|].
      split; [|split].
      * rewrite Hact. split; discriminate.
      * discriminate.
      * reflexivity.
Qed.

(** C2: in every reachable state with exactly one active player the next
    pass of the loop returns that player as the winner at its count of
    active players: the game is left as it is, no request is sent to the
    Oracle and no move is made. *)
Theorem lone_survivor_wins (S : GoStrings) (E : Environment)
    (st : LoopState) (winner : string) :
  reachable st ->
  active_players (game_of st) = [winner] ->
  exists final,
    round st = Ret (Return winner final)
    /\ play_rounds 1 st = Ret (Some (winner, final))
    /\ game_of final = game_of st
    /\ calls_of final = calls_of st
    /\ moveCount final = moveCount st.
Proof.
  intros Hreach Hone. pose proof (reachable_ok st Hreach) as Hok.
  destruct (round_finished st Hok) as (index & Hround).
  { rewrite Hone. cbn. lia. }
  rewrite Hone in Hround. cbn [List.last] in Hround.
  eexists. split; [exact Hround|].
  cbn [play_rounds]. rewrite Hround. repeat split.
Qed.

(** C6: whatever the Oracle answers, a game created by [InitGame] for 2
    to 10 players returns within size * size * players passes of the turn
    loop.  Every pass from a reachable state returns, or eliminates the
    player to move, or executes a move onto a cell that was not visited
    and now is; each of the last two lowers the sum of free cells and
    active players by one. *)
Theorem PlayGame_terminates (S : GoStrings) (E : Environment)
    (game : GameState) (calls : list Call) :
  2 <= numPlayers <= 10 ->
  InitGame = Ret game ->
  (exists result final,
     play_rounds (Z.to_nat (Size game * Size game * NumPlayers game))
                 (start_of game calls)
     = Ret (Some (result, final))
     /\ PlayGame calls = Ret (Some (result, final)))
  /\ (forall st, reachable st ->
        exists step, round st = Ret step /\ pass_ok st step).
Proof.
  intros Hn Hinit. split.
  - pose proof (measure_start game Hn Hinit) as [Hpos Hle].
    destruct (play_rounds_terminates
                (Z.to_nat (Size game * Size game * NumPlayers game))
                (start_of game calls)) as (result & final & Hrun).
    + apply reachable_ok. constructor; assumption.
    + lia.
    + exact Hle.
    + exists result, final. split; [exact Hrun|].
      unfold PlayGame. rewrite Hinit. exact Hrun.
  - intros st Hreach. apply round_progress, reachable_ok, Hreach.
Qed.

(** ** The weighted score *)

(** *** Powers of two *)

Lemma bpow_gt_0 (e : Z) : (0 < bpow e)%R.
Proof. apply powerRZ_lt. lra. Qed.

Lemma bpow_plus (a b : Z) : bpow (a + b) = (bpow a * bpow b)%R.
Proof. apply powerRZ_add. lra. Qed.

Lemma bpow_0 : bpow 0 = 1%R.
Proof. reflexivity. Qed.

Lemma bpow_1 : bpow 1 = 2%R.
Proof. unfold bpow, powerRZ. simpl. lra. Qed.

Lemma bpow_IZR (e : Z) : 0 <= e -> bpow e = IZR (2 ^ e).
Proof.
  intros He. unfold bpow. rewrite <- (Z2Nat.id e He).
  rewrite <- pow_powerRZ. apply pow_IZR.
Qed.

Lemma bpow_le (a b : Z) : a <= b -> (bpow a <= bpow b)%R.
Proof.
  intros Hab. replace b with (a + (b - a)) by lia.
  rewrite bpow_plus, (bpow_IZR (b - a)) by lia.
  assert (1 <= 2 ^ (b - a)) by (apply (Z.pow_le_mono_r 2 0); lia).
  apply IZR_le in H. pose proof (bpow_gt_0 a). nra.
Qed.

Lemma bpow_lt (a b : Z) : a < b -> (bpow a < bpow b)%R.
Proof.
  intros Hab. replace b with (a + (b - a)) by lia.
  rewrite bpow_plus, (bpow_IZR (b - a)) by lia.
  assert (2 <= 2 ^ (b - a)).
  { change 2 with (2 ^ 1) at 1. apply Z.pow_le_mono_r; lia. }
  apply IZR_le in H. pose proof (bpow_gt_0 a). nra.
Qed.

Lemma bpow_lt_inv (a b : Z) : (bpow a < bpow b)%R -> a < b.
Proof.
  intros H. destruct (Z_lt_le_dec a b) as [Hlt|Hge]; [exact Hlt|].
  apply bpow_le in Hge. lra.
Qed.

Lemma bpow_le_inv (a b : Z) : (bpow a <= bpow b)%R -> a <= b.
Proof.
  intros H. destruct (Z_lt_le_dec b a) as [Hlt|Hge]; [|exact Hge].
  apply bpow_lt in Hlt. lra.
Qed.

(** *** Digits *)

Lemma digits2_pos_bounds (m : positive) :
  2 ^ (Zpos (digits2_pos m) - 1) <= Zpos m < 2 ^ Zpos (digits2_pos m).
Proof.
  induction m as [m IH|m IH|]; cbn [digits2_pos];
    [rewrite (Pos2Z.inj_xI m) | rewrite (Pos2Z.inj_xO m) | cbn; lia];
    rewrite Pos2Z.inj_succ;
    replace (Z.succ (Zpos (digits2_pos m)) - 1) with (Zpos (digits2_pos m)) by lia;
    rewrite Z.pow_succ_r by lia;
    replace (2 ^ Zpos (digits2_pos m))
      with (2 * 2 ^ (Zpos (digits2_pos m) - 1)) in *
      by (rewrite <- Z.pow_succ_r by lia; f_equal; lia);
    lia.
Qed.

Lemma fval_mag (m : positive) (e : Z) :
  (bpow (mag m e - 1) <= fval (Zpos m) e < bpow (mag m e))%R.
Proof.
  unfold mag, fval. pose proof (digits2_pos_bounds m) as [Hlo Hhi].
  set (d := Zpos (digits2_pos m)) in *.
  replace (d + e - 1) with ((d - 1) + e) by lia.
  assert (0 < d) by (unfold d; lia).
  rewrite (bpow_plus (d - 1) e), (bpow_plus d e).
  rewrite (bpow_IZR (d - 1)), (bpow_IZR d) by lia.
  apply IZR_le in Hlo. apply IZR_lt in Hhi. pose proof (bpow_gt_0 e).
  split; nra.
Qed.

Lemma mag_le (m1 : positive) (e1 : Z) (m2 : positive) (e2 : Z) :
  (fval (Zpos m1) e1 <= fval (Zpos m2) e2)%R -> mag m1 e1 <= mag m2 e2.
Proof.
  intros Hle. pose proof (fval_mag m1 e1) as [H1 _].
  pose proof (fval_mag m2 e2) as [_ H2].
  assert (bpow (mag m1 e1 - 1) < bpow (mag m2 e2))%R by lra.
  apply bpow_lt_inv in H. lia.
Qed.

(** *** Shifting right and rounding to nearest *)

Lemma shr_1_nonneg (m : Z) (r s : bool) :
  0 <= m ->
  shr_1 {| shr_m := m; shr_r := r; shr_s := s |}
  = {| shr_m := Z.div2 m; shr_r := Z.odd m; shr_s := r || s |}.
Proof.
  intros Hm. destruct m as [|p|p]; [reflexivity | destruct p; reflexivity | lia].
Qed.

Lemma iter_pos_nat {A : Type} (f : A -> A) (p : positive) (x : A) :
  SpecFloat.iter_pos f p x = Nat.iter (Pos.to_nat p) f x.
Proof.
  revert x. induction p as [p IH|p IH|]; intros x; cbn [SpecFloat.iter_pos].
  - rewrite !IH, Pos2Nat.inj_xI, <- Nat.iter_add, <- Nat.iter_succ_r.
    f_equal. lia.
  - rewrite !IH, Pos2Nat.inj_xO, <- Nat.iter_add. f_equal. lia.
  - reflexivity.
Qed.

Lemma mod_pow2_succ (M : Z) (k : Z) :
  0 <= k ->
  M mod 2 ^ (k + 1) = M mod 2 ^ k + 2 ^ k * ((M / 2 ^ k) mod 2).
Proof.
  intros Hk. rewrite Z.pow_add_r, Z.pow_1_r by lia.
  apply Z.rem_mul_r; [|lia]. apply Z.pow_nonzero; lia.
Qed.

Lemma shr_state_iter (M : Z) (k : nat) :
  0 <= M ->
  Nat.iter k shr_1 {| shr_m := M; shr_r := false; shr_s := false |}
  = shr_state M k.
Proof.
  intros HM. induction k as [|k IH]; [reflexivity|].
  cbn [Nat.iter nat_rect]. change (nat_rect _ _ _ k) with
    (Nat.iter k shr_1 {| shr_m := M; shr_r := false; shr_s := false |}).
  rewrite IH. destruct k as [|k'].
  - cbn [shr_state]. rewrite shr_1_nonneg by lia.
    change (Z.of_nat 1) with 1. change (Z.of_nat 0) with 0.
    rewrite Z.pow_1_r, Z.pow_0_r, Z.div_1_r, Z.mod_1_r, Z.div2_div. reflexivity.
  - cbn [shr_state].
    assert (0 <= M / 2 ^ Z.of_nat (S k')) by (apply Z.div_pos; lia).
    rewrite shr_1_nonneg by assumption.
    assert (E1 : Z.div2 (M / 2 ^ Z.of_nat (S k')) = M / 2 ^ Z.of_nat (S (S k'))).
    { rewrite Z.div2_div, Z.div_div by lia. f_equal.
      replace (Z.of_nat (S (S k'))) with (Z.of_nat (S k') + 1) by lia.
      rewrite Z.pow_add_r, Z.pow_1_r by lia. reflexivity. }
    assert (E2 : Z.odd (M / 2 ^ Z.of_nat k') || negb (M mod 2 ^ Z.of_nat k' =? 0)
                 = negb (M mod 2 ^ Z.of_nat (S k') =? 0)).
    { replace (Z.of_nat (S k')) with (Z.of_nat k' + 1) by lia.
      rewrite mod_pow2_succ by lia.
      pose proof (Z.mod_pos_bound M (2 ^ Z.of_nat k') ltac:(lia)) as Hrem.
      pose proof (Z.mod_pos_bound (M / 2 ^ Z.of_nat k') 2 ltac:(lia)) as Hbit.
      assert (0 < 2 ^ Z.of_nat k') by lia.
      rewrite Zodd_mod.
      destruct (Z.eqb_spec (M mod 2 ^ Z.of_nat k') 0) as [E0|E0];
        destruct (Z.eqb_spec ((M / 2 ^ Z.of_nat k') mod 2) 1) as [E|E];
        cbn [negb orb]; symmetry.
      * apply negb_true_iff, Z.eqb_neq. rewrite E0, E. lia.
      * apply negb_false_iff, Z.eqb_eq.
        replace ((M / 2 ^ Z.of_nat k') mod 2) with 0 by lia. lia.
      * apply negb_true_iff, Z.eqb_neq. nia.
      * apply negb_true_iff, Z.eqb_neq. nia. }
    rewrite E1, E2. reflexivity.
Qed.

(** Shifting right by [p] bits and rounding to nearest even gives a
    multiple of [2^p] at most half of [2^p] away, even on a tie. *)
Lemma shr_round_nearest (M : Z) (p : positive) :
  0 <= M ->
  let mrs := SpecFloat.iter_pos shr_1 p {| shr_m := M; shr_r := false; shr_s := false |} in
  let r := round_nearest_even (shr_m mrs) (loc_of_shr_record mrs) in
  2 * Z.abs (M - r * 2 ^ Zpos p) <= 2 ^ Zpos p
  /\ M / 2 ^ Zpos p <= r <= M / 2 ^ Zpos p + 1
  /\ (2 * Z.abs (M - r * 2 ^ Zpos p) = 2 ^ Zpos p -> Z.even r = true).
Proof.
  intros HM mrs r. subst r mrs.
  rewrite iter_pos_nat, shr_state_iter by exact HM.
  destruct (Pos.to_nat p) as [|k] eqn:Ek; [lia|].
  assert (Hp : Zpos p = Z.of_nat k + 1) by lia.
  cbn [shr_state shr_m loc_of_shr_record].
  replace (Z.of_nat (S k)) with (Zpos p) by lia.
  set (H := 2 ^ Z.of_nat k). set (N := 2 ^ Zpos p).
  assert (HN : N = 2 * H).
  { unfold N, H. rewrite Hp, Z.pow_add_r, Z.pow_1_r by lia. lia. }
  assert (HH : 0 < H) by (unfold H; lia).
  pose proof (Z.div_mod M N ltac:(lia)) as Hdm.
  pose proof (mod_pow2_succ M (Z.of_nat k) ltac:(lia)) as Hrem.
  rewrite <- Hp in Hrem. fold N H in Hrem.
  pose proof (Z.mod_pos_bound M H ltac:(lia)) as Hlow.
  pose proof (Z.mod_pos_bound (M / H) 2 ltac:(lia)) as Hbit.
  rewrite Zodd_mod.
  destruct (Z.eqb_spec ((M / H) mod 2) 1) as [E1|E1];
    destruct (Z.eqb_spec (M mod H) 0) as [E0|E0];
    cbn [negb round_nearest_even].
  - destruct (Z.even (M / N)) eqn:Ev.
    + repeat split; try lia. intros _. exact Ev.
    + repeat split; try lia. intros _.
      rewrite Z.even_add, Ev. reflexivity.
  - repeat split; lia.
  - repeat split; lia.
  - repeat split; lia.
Qed.

(** *** The binary64 format *)

Lemma fexp64_eq (mg : Z) : fexp64 mg = Z.max (mg - 53) (-1074).
Proof. reflexivity. Qed.

Lemma canonical_iff (m : positive) (e : Z) :
  canonical_mantissa prec emax m e = true <-> fexp64 (mag m e) = e.
Proof. unfold canonical_mantissa, fexp64, mag. apply Z.eqb_eq. Qed.

Lemma fval_scale (m : Z) (e k : Z) :
  0 <= k -> fval (m * 2 ^ k) e = fval m (e + k).
Proof.
  intros Hk. unfold fval. rewrite mult_IZR, bpow_plus, (bpow_IZR k Hk). ring.
Qed.

Lemma round_shift_spec (M e n : Z) :
  0 <= M -> 0 <= n ->
  exists r, round_shift M e n = (r, e + n)
    /\ 2 * Z.abs (M - r * 2 ^ n) <= 2 ^ n
    /\ M / 2 ^ n <= r <= M / 2 ^ n + 1
    /\ (2 * Z.abs (M - r * 2 ^ n) = 2 ^ n -> Z.even r = true).
Proof.
  intros HM Hn. unfold round_shift, shr. destruct n as [|p|p]; [| |lia].
  - exists M. cbn [shr_m loc_of_shr_record round_nearest_even].
    rewrite Z.add_0_r, Z.pow_0_r, Z.div_1_r, Z.mul_1_r, Z.sub_diag.
    cbn [Z.abs]. repeat split; lia.
  - pose proof (shr_round_nearest M p HM) as Hs. cbv zeta in Hs.
    eexists. split; [reflexivity|]. exact Hs.
Qed.

Lemma rne_at_mono (c r1 r2 : Z) (x1 x2 : R) :
  rne_at c r1 x1 -> rne_at c r2 x2 -> (x1 <= x2)%R -> r1 <= r2.
Proof.
  intros [H1 T1] [H2 T2] Hx.
  destruct (Z_le_gt_dec r1 r2) as [Hle|Hgt]; [exact Hle|exfalso].
  pose proof (bpow_gt_0 c) as Hc. unfold fval in *.
  assert (Hr : (IZR r2 + 1 <= IZR r1)%R).
  { rewrite <- plus_IZR. apply IZR_le. lia. }
  assert (Hb1 : (IZR r1 * bpow c - x1 <= bpow c / 2)%R).
  { revert H1. unfold Rabs. destruct (Rcase_abs _); lra. }
  assert (Hb2 : (x2 - IZR r2 * bpow c <= bpow c / 2)%R).
  { revert H2. unfold Rabs. destruct (Rcase_abs _); lra. }
  assert (Heq : (IZR r1 = IZR r2 + 1)%R) by nra.
  assert (Hx1 : (IZR r1 * bpow c - x1 = bpow c / 2)%R) by nra.
  assert (Hx2 : (x2 - IZR r2 * bpow c = bpow c / 2)%R) by nra.
  assert (E1 : Z.even r1 = true).
  { apply T1. unfold Rabs. destruct (Rcase_abs _); lra. }
  assert (E2 : Z.even r2 = true).
  { apply T2. unfold Rabs. destruct (Rcase_abs _); lra. }
  rewrite <- plus_IZR in Heq. apply eq_IZR in Heq. subst r1.
  rewrite Z.even_add, E2 in E1. discriminate.
Qed.

(** The integer statement of [round_shift] read on the reals. *)
Lemma rne_at_of_Z (M e n r : Z) :
  0 <= n ->
  2 * Z.abs (M - r * 2 ^ n) <= 2 ^ n ->
  (2 * Z.abs (M - r * 2 ^ n) = 2 ^ n -> Z.even r = true) ->
  rne_at (e + n) r (fval M e).
Proof.
  intros Hn Hle Htie.
  assert (Hv : (fval M e - fval r (e + n) = IZR (M - r * 2 ^ n) * bpow e)%R).
  { rewrite <- (fval_scale r e n Hn). unfold fval.
    rewrite minus_IZR. ring. }
  assert (Habs : (2 * Rabs (fval M e - fval r (e + n))
                  = IZR (2 * Z.abs (M - r * 2 ^ n)) * bpow e)%R).
  { rewrite Hv, Rabs_mult, (Rabs_pos_eq (bpow e)) by (left; apply bpow_gt_0).
    rewrite <- abs_IZR, mult_IZR. ring. }
  assert (Hbn : bpow (e + n) = (IZR (2 ^ n) * bpow e)%R).
  { rewrite bpow_plus, (bpow_IZR n Hn). ring. }
  pose proof (bpow_gt_0 e) as He.
  split.
  - rewrite Habs, Hbn. apply IZR_le in Hle. nra.
  - intros Heq. apply Htie. rewrite Habs, Hbn in Heq.
    apply Rmult_eq_reg_r in Heq; [|lra]. apply eq_IZR in Heq. exact Heq.
Qed.

Lemma fval_pow2 (j c : Z) : 0 <= j -> fval (2 ^ j) c = bpow (j + c).
Proof.
  intros Hj. unfold fval. rewrite bpow_plus, (bpow_IZR j Hj). reflexivity.
Qed.

Lemma fval_le (a b c : Z) : a <= b -> (fval a c <= fval b c)%R.
Proof.
  intros H. unfold fval. apply IZR_le in H. pose proof (bpow_gt_0 c). nra.
Qed.

Lemma fval_0 (c : Z) : fval 0 c = 0%R.
Proof. unfold fval. ring. Qed.

Lemma digits2_pos_unique (q : positive) (D : Z) :
  2 ^ (D - 1) <= Zpos q < 2 ^ D -> Zpos (digits2_pos q) = D.
Proof.
  intros [Hlo Hhi]. pose proof (digits2_pos_bounds q) as [Dlo Dhi].
  set (d := Zpos (digits2_pos q)) in *.
  assert (Hd : 0 < d) by (unfold d; lia).
  destruct (Z.lt_trichotomy d D) as [H|[H|H]]; [exfalso|exact H|exfalso].
  - assert (2 ^ d <= 2 ^ (D - 1)) by (apply Z.pow_le_mono_r; lia). lia.
  - assert (0 <= D).
    { destruct (Z_lt_le_dec D 0) as [Hn|Hn]; [|exact Hn].
      rewrite (Z.pow_neg_r 2 D Hn) in Hhi. lia. }
    assert (2 ^ D <= 2 ^ (d - 1)) by (apply Z.pow_le_mono_r; lia). lia.
Qed.

Lemma realign_zero (c : Z) : fst (realign 0 c) = 0.
Proof.
  unfold realign, shr_fexp, shr. cbn [shr_record_of_loc].
  destruct (fexp prec emax (Zdigits2 0 + c) - c) as [|p|p]; try reflexivity.
  cbn [fst]. rewrite iter_pos_nat, shr_state_iter by lia.
  destruct (Pos.to_nat p); reflexivity.
Qed.

Lemma realign_canonical (q : positive) (c : Z) :
  fexp64 (mag q c) = c -> realign (Zpos q) c = (Zpos q, c).
Proof.
  intros H. unfold realign, shr_fexp. cbn [Zdigits2 shr_record_of_loc].
  unfold fexp64, mag in H. rewrite H, Z.sub_diag. reflexivity.
Qed.

Lemma realign_carry (p : positive) (c : Z) :
  fexp64 (mag (xO p) c) = c + 1 -> realign (Zpos (xO p)) c = (Zpos p, c + 1).
Proof.
  intros H. unfold realign, shr_fexp. cbn [Zdigits2 shr_record_of_loc].
  unfold fexp64, mag in H. rewrite H.
  replace (c + 1 - c) with 1 by lia. reflexivity.
Qed.

Lemma binary_round_aux_round_pos (sx : bool) (m : positive) (e : Z) :
  binary_round_aux prec emax sx (Zpos m) e loc_Exact
  = match round_pos m e with
    | (Z0, _) => S754_zero sx
    | (Zpos q, e') =>
        if e' <=? emax - prec then S754_finite sx q e' else S754_infinity sx
    | (Zneg _, _) => S754_nan
    end.
Proof.
  unfold binary_round_aux, round_pos, round_shift, realign, shr_fexp at 1.
  cbn [Zdigits2 shr_record_of_loc]. unfold fexp64, mag.
  destruct (shr _ e _) as [mrs e'].
  destruct (shr_fexp prec emax _ e' loc_Exact) as [mrs2 e2].
  reflexivity.
Qed.

(** What the rounding of an aligned positive number returns. *)
Lemma round_pos_spec (m : positive) (e : Z) :
  let mg := mag m e in
  let c := fexp64 mg in
  e <= c ->
  exists r2 r' c',
    round_pos m e = (r', c')
    /\ rne_at c r2 (fval (Zpos m) e)
    /\ fval r' c' = fval r2 c
    /\ (fval r2 c <= bpow (Z.max mg c))%R
    /\ (-1074 < c -> (bpow (mg - 1) <= fval r2 c)%R)
    /\ match r' with
       | Z0 => r2 = 0
       | Zpos q => canonical_mantissa prec emax q c' = true
       | Zneg _ => False
       end.
Proof.
  intros mg c Hal.
  destruct (round_shift_spec (Zpos m) e (c - e)) as (r2 & Hrs & Hle & Hk & Htie);
    [lia|lia|].
  pose proof (rne_at_of_Z (Zpos m) e (c - e) r2 ltac:(lia) Hle Htie) as Hrne.
  replace (e + (c - e)) with c in Hrs, Hrne by lia.
  unfold round_pos. fold mg. fold c. rewrite Hrs.
  pose proof (digits2_pos_bounds m) as [Hlo Hhi].
  set (d := Zpos (digits2_pos m)) in *.
  assert (Hd : 0 < d) by (unfold d; lia).
  assert (Hmg : mg = d + e) by reflexivity.
  assert (Hc : c = Z.max (mg - 53) (-1074)) by apply fexp64_eq.
  set (n := c - e) in *.
  assert (HN : 0 < 2 ^ n) by (apply Z.pow_pos_nonneg; lia).
  destruct (Z_lt_le_dec n d) as [R1|R2].
  - set (j := d - n).
    assert (Hj : 1 <= j) by (unfold j; lia).
    assert (Hjc : j + c = mg) by (unfold j, n; lia).
    assert (Hk1 : 2 ^ (j - 1) <= Zpos m / 2 ^ n).
    { apply Z.div_le_lower_bound; [lia|].
      rewrite <- Z.pow_add_r by lia.
      replace (n + (j - 1)) with (d - 1) by (unfold j; lia). exact Hlo. }
    assert (Hk2 : Zpos m / 2 ^ n < 2 ^ j).
    { apply Z.div_lt_upper_bound; [lia|].
      rewrite <- Z.pow_add_r by lia.
      replace (n + j) with d by (unfold j; lia). exact Hhi. }
    assert (Hpj : 0 < 2 ^ (j - 1)) by (apply Z.pow_pos_nonneg; lia).
    assert (Hpj2 : 2 ^ j = 2 * 2 ^ (j - 1)).
    { replace j with (j - 1 + 1) at 1 by lia.
      rewrite Z.pow_add_r, Z.pow_1_r by lia. lia. }
    assert (Hup : (fval r2 c <= bpow (Z.max mg c))%R).
    { apply Rle_trans with (fval (2 ^ j) c); [apply fval_le; lia|].
      rewrite fval_pow2, Hjc by lia. apply bpow_le. lia. }
    assert (Hdown : (bpow (mg - 1) <= fval r2 c)%R).
    { apply Rle_trans with (fval (2 ^ (j - 1)) c); [|apply fval_le; lia].
      rewrite fval_pow2 by lia. apply bpow_le. lia. }
    destruct r2 as [|q|q]; [lia| |lia].
    destruct (Z.eq_dec (Zpos q) (2 ^ j)) as [Hq|Hq].
    + assert (Hdq : Zpos (digits2_pos q) = j + 1).
      { apply digits2_pos_unique. replace (j + 1 - 1) with j by lia.
        rewrite Hq. split; [lia|].
        rewrite Z.pow_add_r, Z.pow_1_r by lia. lia. }
      destruct (Z_le_gt_dec (-1074) (mg - 53)) as [Hn|Hs].
      * destruct q as [q'|q'|]; [exfalso; lia| |exfalso; lia].
        assert (Hq' : Zpos q' = 2 ^ (j - 1)) by lia.
        exists (Zpos q'~0), (Zpos q'), (c + 1).
        split.
        { apply realign_carry. rewrite fexp64_eq. unfold mag.
          rewrite Hdq. lia. }
        split; [exact Hrne|]. split.
        { rewrite Hq, Hq', !fval_pow2 by lia. f_equal. lia. }
        split; [exact Hup|]. split; [intros _; exact Hdown|].
        apply canonical_iff. rewrite fexp64_eq. unfold mag.
        rewrite (digits2_pos_unique q' j); [lia|].
        rewrite Hq'. split; lia.
      * exists (Zpos q), (Zpos q), c.
        split.
        { apply realign_canonical. rewrite fexp64_eq. unfold mag.
          rewrite Hdq. lia. }
        split; [exact Hrne|]. split; [reflexivity|].
        split; [exact Hup|]. split; [intros _; exact Hdown|].
        apply canonical_iff. rewrite fexp64_eq. unfold mag.
        rewrite Hdq. lia.
    + assert (Hdq : Zpos (digits2_pos q) = j).
      { apply digits2_pos_unique. lia. }
      exists (Zpos q), (Zpos q), c.
      split.
      { apply realign_canonical. rewrite fexp64_eq. unfold mag.
        rewrite Hdq. lia. }
      split; [exact Hrne|]. split; [reflexivity|].
      split; [exact Hup|]. split; [intros _; exact Hdown|].
      apply canonical_iff. rewrite fexp64_eq. unfold mag.
      rewrite Hdq. lia.
  - assert (Hsmall : Zpos m / 2 ^ n = 0).
    { apply Z.div_small. split; [lia|].
      apply Z.lt_le_trans with (2 ^ d); [exact Hhi|].
      apply Z.pow_le_mono_r; lia. }
    assert (Hcm : c = -1074) by (unfold n in R2; lia).
    rewrite Hsmall in Hk.
    assert (Hr2 : r2 = 0 \/ r2 = 1) by lia.
    destruct Hr2 as [-> | ->].
    + destruct (realign 0 c) as [r' c'] eqn:Hre.
      pose proof (realign_zero c) as Hz. rewrite Hre in Hz. cbn [fst] in Hz.
      subst r'. exists 0, 0, c'.
      split; [reflexivity|]. split; [exact Hrne|].
      split; [rewrite !fval_0; reflexivity|].
      split; [rewrite fval_0; left; apply bpow_gt_0|].
      split; [intros; lia|reflexivity].
    + exists 1, 1, c.
      split.
      { apply realign_canonical. rewrite fexp64_eq. unfold mag.
        cbn [digits2_pos]. lia. }
      split; [exact Hrne|]. split; [reflexivity|]. split.
      { change 1 with (2 ^ 0). rewrite fval_pow2 by lia.
        apply bpow_le. lia. }
      split; [intros; lia|].
      apply canonical_iff. rewrite fexp64_eq. unfold mag.
      cbn [digits2_pos]. lia.
Qed.

Lemma fexp64_mono (a b : Z) : a <= b -> fexp64 a <= fexp64 b.
Proof. intros H. rewrite !fexp64_eq. lia. Qed.

(** Rounding is monotone on the values. *)
Lemma round_pos_mono (m1 : positive) (e1 : Z) (m2 : positive) (e2 : Z) :
  e1 <= fexp64 (mag m1 e1) -> e2 <= fexp64 (mag m2 e2) ->
  (fval (Zpos m1) e1 <= fval (Zpos m2) e2)%R ->
  (fval (fst (round_pos m1 e1)) (snd (round_pos m1 e1))
   <= fval (fst (round_pos m2 e2)) (snd (round_pos m2 e2)))%R.
Proof.
  intros A1 A2 Hx.
  destruct (round_pos_spec m1 e1 A1) as (r1 & r1' & c1' & -> & N1 & V1 & U1 & L1 & _).
  destruct (round_pos_spec m2 e2 A2) as (r2 & r2' & c2' & -> & N2 & V2 & U2 & L2 & _).
  cbn [fst snd]. rewrite V1, V2.
  pose proof (mag_le m1 e1 m2 e2 Hx) as Hmag.
  pose proof (fexp64_mono _ _ Hmag) as Hc.
  set (g1 := mag m1 e1) in *. set (g2 := mag m2 e2) in *.
  set (c1 := fexp64 g1) in *. set (c2 := fexp64 g2) in *.
  destruct (Z.eq_dec c1 c2) as [E|E].
  - rewrite E in N1 |- *. apply fval_le.
    exact (rne_at_mono c2 r1 r2 _ _ N1 N2 Hx).
  - assert (Hlt : c1 < c2) by lia.
    assert (Hc1 : c1 = Z.max (g1 - 53) (-1074)) by apply fexp64_eq.
    assert (Hc2 : c2 = Z.max (g2 - 53) (-1074)) by apply fexp64_eq.
    specialize (L2 ltac:(lia)).
    apply Rle_trans with (bpow (g2 - 1)); [|exact L2].
    apply Rle_trans with (bpow (Z.max g1 c1)); [exact U1|].
    apply bpow_le. lia.
Qed.

Lemma canonical_order (q1 : positive) (c1 : Z) (q2 : positive) (c2 : Z) :
  canonical_mantissa prec emax q1 c1 = true ->
  canonical_mantissa prec emax q2 c2 = true ->
  (fval (Zpos q1) c1 <= fval (Zpos q2) c2)%R ->
  c1 < c2 \/ (c1 = c2 /\ (q1 <= q2)%positive).
Proof.
  intros C1 C2 Hv. apply canonical_iff in C1, C2.
  pose proof (fexp64_mono _ _ (mag_le _ _ _ _ Hv)) as Hc.
  rewrite C1, C2 in Hc.
  destruct (Z.eq_dec c1 c2) as [E|E]; [right|left; lia].
  split; [exact E|]. subst c2. unfold fval in Hv.
  apply Rmult_le_reg_r in Hv; [|apply bpow_gt_0].
  apply le_IZR in Hv. lia.
Qed.

Lemma fval_pos (q : positive) (c : Z) : (0 < fval (Zpos q) c)%R.
Proof.
  unfold fval. apply Rmult_lt_0_compat; [|apply bpow_gt_0].
  apply IZR_lt. lia.
Qed.

Lemma SFleb_finite_false (q1 : positive) (c1 : Z) (q2 : positive) (c2 : Z) :
  c1 < c2 \/ (c1 = c2 /\ (q1 <= q2)%positive) ->
  SFleb (S754_finite false q1 c1) (S754_finite false q2 c2) = true.
Proof.
  intros H. unfold SFleb, SFcompare.
  destruct (Z.compare_spec c1 c2) as [E|E|E]; [|reflexivity|lia].
  change (Pos.compare_cont Eq q1 q2) with (Pos.compare q1 q2).
  destruct (Pos.compare_spec q1 q2); [reflexivity|reflexivity|lia].
Qed.

Lemma SFleb_finite_true (q1 : positive) (c1 : Z) (q2 : positive) (c2 : Z) :
  c1 < c2 \/ (c1 = c2 /\ (q1 <= q2)%positive) ->
  SFleb (S754_finite true q2 c2) (S754_finite true q1 c1) = true.
Proof.
  intros H. unfold SFleb, SFcompare.
  destruct (Z.compare_spec c2 c1) as [E|E|E]; [|lia|reflexivity].
  change (Pos.compare_cont Eq q2 q1) with (Pos.compare q2 q1).
  destruct (Pos.compare_spec q2 q1); [reflexivity|lia|reflexivity].
Qed.

(** Rounding is monotone on the floats it returns, for either sign. *)
Lemma binary_round_aux_mono (m1 : positive) (e1 : Z) (m2 : positive) (e2 : Z) :
  e1 <= fexp64 (mag m1 e1) -> e2 <= fexp64 (mag m2 e2) ->
  (fval (Zpos m1) e1 <= fval (Zpos m2) e2)%R ->
  SFleb (binary_round_aux prec emax false (Zpos m1) e1 loc_Exact)
        (binary_round_aux prec emax false (Zpos m2) e2 loc_Exact) = true
  /\ SFleb (binary_round_aux prec emax true (Zpos m2) e2 loc_Exact)
           (binary_round_aux prec emax true (Zpos m1) e1 loc_Exact) = true.
Proof.
  intros A1 A2 Hx.
  pose proof (round_pos_mono m1 e1 m2 e2 A1 A2 Hx) as Hv.
  rewrite !binary_round_aux_round_pos.
  destruct (round_pos_spec m1 e1 A1) as (r1 & r1' & c1' & E1 & _ & _ & _ & _ & F1).
  destruct (round_pos_spec m2 e2 A2) as (r2 & r2' & c2' & E2 & _ & _ & _ & _ & F2).
  rewrite E1, E2 in Hv |- *. cbn [fst snd] in Hv.
  destruct r1' as [|q1|q1]; [| |contradiction];
    (destruct r2' as [|q2|q2]; [| |contradiction]).
  - split; reflexivity.
  - destruct (c2' <=? emax - prec); split; reflexivity.
  - exfalso. rewrite fval_0 in Hv. pose proof (fval_pos q1 c1'). lra.
  - pose proof (canonical_order q1 c1' q2 c2' F1 F2 Hv) as Ho.
    destruct (Z.leb_spec c1' (emax - prec)) as [B1|B1];
      destruct (Z.leb_spec c2' (emax - prec)) as [B2|B2].
    + split; [apply SFleb_finite_false|apply SFleb_finite_true]; exact Ho.
    + split; reflexivity.
    + exfalso. lia.
    + split; reflexivity.
Qed.

(** *** Floats as roundings of real numbers *)

Lemma binary_round_aux_signed (s : bool) (m : positive) (e : Z) :
  e <= fexp64 (mag m e) ->
  signed_as s (binary_round_aux prec emax s (Zpos m) e loc_Exact).
Proof.
  intros A. rewrite binary_round_aux_round_pos.
  destruct (round_pos_spec m e A) as (r & r' & c' & E & _ & _ & _ & _ & F).
  rewrite E. destruct r' as [|q|q]; [constructor| |contradiction].
  destruct (Z.leb_spec c' (emax - prec)) as [B|B]; [|constructor].
  constructor. unfold SpecFloat.bounded. rewrite F. apply Z.leb_le in B. rewrite B.
  reflexivity.
Qed.

Lemma signed_as_order (f g : spec_float) :
  signed_as true f -> signed_as false g -> SFleb f g = true.
Proof. intros [] []; reflexivity. Qed.

Lemma zero_le_signed (s : bool) (g : spec_float) :
  signed_as false g -> SFleb (S754_zero s) g = true.
Proof. intros []; reflexivity. Qed.

Lemma signed_le_zero (s : bool) (f : spec_float) :
  signed_as true f -> SFleb f (S754_zero s) = true.
Proof. intros []; reflexivity. Qed.

Lemma Rnd_mono (x y : R) (f g : spec_float) :
  Rnd x f -> Rnd y g -> (x <= y)%R -> SFleb f g = true.
Proof.
  intros Hf Hg Hxy.
  destruct Hf as [s1|s1 m1 e1 A1]; destruct Hg as [s2|s2 m2 e2 A2].
  - reflexivity.
  - pose proof (fval_pos m2 e2) as P2.
    destruct s2; cbn [cond_Ropp] in Hxy; [exfalso; lra|].
    apply zero_le_signed, binary_round_aux_signed, A2.
  - pose proof (fval_pos m1 e1) as P1.
    destruct s1; cbn [cond_Ropp] in Hxy; [|exfalso; lra].
    apply signed_le_zero, binary_round_aux_signed, A1.
  - pose proof (fval_pos m1 e1) as P1. pose proof (fval_pos m2 e2) as P2.
    destruct s1, s2; cbn [cond_Ropp] in Hxy.
    + apply (binary_round_aux_mono m2 e2 m1 e1 A2 A1). lra.
    + apply signed_as_order; apply binary_round_aux_signed; assumption.
    + exfalso. lra.
    + apply (binary_round_aux_mono m1 e1 m2 e2 A1 A2). lra.
Qed.

Lemma Rnd_valid (x : R) (f : spec_float) :
  Rnd x f -> valid_binary f = true.
Proof.
  intros [s|s m e A]; [reflexivity|].
  destruct (binary_round_aux_signed s m e A); try reflexivity. assumption.
Qed.

Lemma Rnd_not_nan (x : R) (f : spec_float) : Rnd x f -> f <> S754_nan.
Proof.
  intros [s|s m e A]; [discriminate|].
  destruct (binary_round_aux_signed s m e A); discriminate.
Qed.

(** Rounding leaves a float of the format as it is. *)
Lemma binary_round_aux_id (s : bool) (m : positive) (e : Z) :
  SpecFloat.bounded prec emax m e = true ->
  binary_round_aux prec emax s (Zpos m) e loc_Exact = S754_finite s m e.
Proof.
  intros Hb. unfold SpecFloat.bounded in Hb. apply andb_true_iff in Hb as [Hc Hb].
  rewrite binary_round_aux_round_pos.
  apply canonical_iff in Hc.
  unfold round_pos, round_shift. rewrite Hc, Z.sub_diag.
  cbn [shr shr_m loc_of_shr_record round_nearest_even].
  rewrite (realign_canonical m e Hc), Hb. reflexivity.
Qed.

Lemma Rnd_SF2R (f : spec_float) :
  valid_binary f = true ->
  match f with S754_zero _ | S754_finite _ _ _ => Rnd (SF2R f) f | _ => True end.
Proof.
  intros Hv. destruct f as [s|s| |s m e]; try exact I.
  - apply Rnd_zero.
  - cbn [valid_binary] in Hv. cbn [SF2R].
    rewrite <- (binary_round_aux_id s m e Hv).
    apply Rnd_round. unfold SpecFloat.bounded in Hv.
    apply andb_true_iff in Hv as [Hc _]. apply canonical_iff in Hc. lia.
Qed.

(** *** The operations round the exact result *)

Lemma iter_xO (m d : positive) : Zpos (Pos.iter xO m d) = Zpos m * 2 ^ Zpos d.
Proof.
  induction d as [|d IH] using Pos.peano_ind.
  - cbn [Pos.iter]. lia.
  - rewrite Pos.iter_succ, Pos2Z.inj_xO, IH, Pos2Z.inj_succ, Z.pow_succ_r by lia.
    lia.
Qed.

Lemma shl_align_spec (m : positive) (e e' : Z) :
  snd (shl_align m e e') = Z.min e e'
  /\ fval (Zpos (fst (shl_align m e e'))) (snd (shl_align m e e'))
     = fval (Zpos m) e.
Proof.
  unfold shl_align. destruct (e' - e) as [|d|d] eqn:Hd; cbn [fst snd].
  - split; [lia|reflexivity].
  - split; [lia|reflexivity].
  - split; [lia|]. rewrite iter_xO, fval_scale by lia. f_equal. lia.
Qed.

Lemma mag_eq (m1 : positive) (e1 : Z) (m2 : positive) (e2 : Z) :
  fval (Zpos m1) e1 = fval (Zpos m2) e2 -> mag m1 e1 = mag m2 e2.
Proof.
  intros H.
  pose proof (mag_le m1 e1 m2 e2 ltac:(rewrite H; apply Rle_refl)).
  pose proof (mag_le m2 e2 m1 e1 ltac:(rewrite H; apply Rle_refl)).
  lia.
Qed.

Lemma Rnd_binary_round (s : bool) (m : positive) (e : Z) :
  Rnd (cond_Ropp s (fval (Zpos m) e)) (binary_round prec emax s m e).
Proof.
  unfold binary_round.
  pose proof (shl_align_spec m e (fexp prec emax (Zpos (digits2_pos m) + e)))
    as [Hs Hv].
  destruct (shl_align m e _) as [mz ez]. cbn [fst snd] in Hs, Hv.
  rewrite <- Hv. apply Rnd_round.
  rewrite (mag_eq mz ez m e Hv). unfold fexp64, mag. lia.
Qed.

Lemma Rnd_binary_normalize (M e : Z) (sz : bool) :
  Rnd (fval M e) (binary_normalize prec emax M e sz).
Proof.
  destruct M as [|m|m]; cbn [binary_normalize].
  - rewrite fval_0. apply Rnd_zero.
  - apply (Rnd_binary_round false).
  - replace (fval (Zneg m) e) with (cond_Ropp true (fval (Zpos m) e)).
    + apply Rnd_binary_round.
    + cbn [cond_Ropp]. unfold fval. change (Zneg m) with (- Zpos m).
      rewrite opp_IZR. ring.
Qed.

Lemma fval_cond_Zopp (s : bool) (m e : Z) :
  fval (cond_Zopp s m) e = cond_Ropp s (fval m e).
Proof.
  destruct s; cbn [cond_Zopp cond_Ropp]; [|reflexivity].
  unfold fval. rewrite opp_IZR. ring.
Qed.

Lemma Rnd_SFadd (u c : spec_float) :
  valid_binary u = true -> valid_binary c = true ->
  is_finite_SF u = true -> is_finite_SF c = true ->
  Rnd (SF2R u + SF2R c) (SFadd prec emax u c).
Proof.
  intros Vu Vc Fu Fc.
  destruct u as [su|su| |su mu eu]; try discriminate;
    destruct c as [sc|sc| |sc mc ec]; try discriminate.
  - cbn [SF2R]. rewrite Rplus_0_l.
    destruct su, sc; cbn [SFadd]; apply Rnd_zero.
  - change (SF2R (S754_zero su)) with 0%R. rewrite Rplus_0_l.
    exact (Rnd_SF2R _ Vc).
  - change (SF2R (S754_zero sc)) with 0%R. rewrite Rplus_0_r.
    exact (Rnd_SF2R _ Vu).
  - cbn [SFadd SF2R].
    pose proof (shl_align_spec mu eu (Z.min eu ec)) as [Su Hu].
    pose proof (shl_align_spec mc ec (Z.min eu ec)) as [Sc Hc].
    replace (Z.min eu (Z.min eu ec)) with (Z.min eu ec) in Su by lia.
    replace (Z.min ec (Z.min eu ec)) with (Z.min eu ec) in Sc by lia.
    rewrite Su in Hu. rewrite Sc in Hc.
    rewrite <- Hu, <- Hc, <- !fval_cond_Zopp.
    match goal with
    | |- Rnd _ (binary_normalize _ _ ?M ?e _) =>
        replace (fval (cond_Zopp su _) _ + fval (cond_Zopp sc _) _)%R
          with (fval M e); [apply Rnd_binary_normalize|]
    end.
    unfold fval. rewrite plus_IZR. ring.
Qed.

Lemma canonical_digits (m : positive) (e : Z) :
  canonical_mantissa prec emax m e = true ->
  Zpos (digits2_pos m) <= 53
  /\ (Zpos (digits2_pos m) = 53 \/ e = -1074) /\ -1074 <= e.
Proof.
  intros H. apply canonical_iff in H. rewrite fexp64_eq in H.
  unfold mag in H. lia.
Qed.

Lemma digits2_pos_mul (m1 m2 : positive) :
  Zpos (digits2_pos m1) + Zpos (digits2_pos m2) - 1
  <= Zpos (digits2_pos (m1 * m2)).
Proof.
  pose proof (digits2_pos_bounds m1) as [L1 _].
  pose proof (digits2_pos_bounds m2) as [L2 _].
  pose proof (digits2_pos_bounds (m1 * m2)) as [_ H].
  set (d1 := Zpos (digits2_pos m1)) in *. set (d2 := Zpos (digits2_pos m2)) in *.
  set (d := Zpos (digits2_pos (m1 * m2))) in *.
  assert (0 < d1) by (unfold d1; lia). assert (0 < d2) by (unfold d2; lia).
  assert (0 < d) by (unfold d; lia).
  destruct (Z_le_gt_dec (d1 + d2 - 1) d) as [Hle|Hgt]; [exact Hle|exfalso].
  assert (2 ^ d <= 2 ^ (d1 - 1 + (d2 - 1))) by (apply Z.pow_le_mono_r; lia).
  rewrite Z.pow_add_r in * by lia. rewrite Pos2Z.inj_mul in H. nia.
Qed.

(** The exact product of two floats of the format needs no left shift. *)
Lemma mul_aligned (m1 : positive) (e1 : Z) (m2 : positive) (e2 : Z) :
  SpecFloat.bounded prec emax m1 e1 = true ->
  SpecFloat.bounded prec emax m2 e2 = true ->
  e1 + e2 <= fexp64 (mag (m1 * m2) (e1 + e2)).
Proof.
  unfold SpecFloat.bounded. intros B1 B2.
  apply andb_true_iff in B1 as [C1 _]. apply andb_true_iff in B2 as [C2 _].
  apply canonical_digits in C1, C2.
  pose proof (digits2_pos_mul m1 m2).
  rewrite fexp64_eq. unfold mag. lia.
Qed.

Lemma fval_mul (m1 : positive) (e1 : Z) (m2 : positive) (e2 : Z) :
  fval (Zpos (m1 * m2)) (e1 + e2)
  = (fval (Zpos m1) e1 * fval (Zpos m2) e2)%R.
Proof. unfold fval. rewrite Pos2Z.inj_mul, mult_IZR, bpow_plus. ring. Qed.

Lemma Rnd_SFmul (u k : spec_float) :
  valid_binary u = true -> valid_binary k = true ->
  is_finite_SF u = true -> is_finite_SF k = true ->
  Rnd (SF2R u * SF2R k) (SFmul prec emax u k).
Proof.
  intros Vu Vk Fu Fk.
  destruct u as [su|su| |su mu eu]; try discriminate;
    destruct k as [sk|sk| |sk mk ek]; try discriminate;
    cbn [SFmul SF2R].
  - rewrite Rmult_0_l. apply Rnd_zero.
  - rewrite Rmult_0_l. apply Rnd_zero.
  - rewrite Rmult_0_r. apply Rnd_zero.
  - replace (cond_Ropp su (fval (Zpos mu) eu) * cond_Ropp sk (fval (Zpos mk) ek))%R
      with (cond_Ropp (xorb su sk) (fval (Zpos (mu * mk)) (eu + ek))).
    + apply Rnd_round, mul_aligned; assumption.
    + rewrite fval_mul. destruct su, sk; cbn [xorb cond_Ropp]; ring.
Qed.

(** *** The order of floats *)

Lemma SFcompare_antisym (a b : spec_float) :
  SFcompare b a = option_map CompOpp (SFcompare a b).
Proof.
  destruct a as [[]|[]| |[] m1 e1], b as [[]|[]| |[] m2 e2]; try reflexivity;
    cbn [SFcompare option_map]; rewrite (Z.compare_antisym e1 e2);
    destruct (e1 ?= e2); cbn [CompOpp]; try reflexivity;
    change (Pos.compare_cont Eq m2 m1) with (Pos.compare m2 m1);
    change (Pos.compare_cont Eq m1 m2) with (Pos.compare m1 m2);
    rewrite (Pos.compare_antisym m1 m2); destruct (m1 ?= m2)%positive;
    reflexivity.
Qed.

Lemma SFleb_not_above (a b : spec_float) : SFleb a b = true -> not_above a b.
Proof.
  unfold not_above, SFleb, SFltb. rewrite (SFcompare_antisym a b).
  destruct (SFcompare a b) as [[]|]; cbn; congruence.
Qed.

Lemma SFcompare_Eq_value (a b : spec_float) :
  is_finite_SF a = true -> is_finite_SF b = true ->
  SFcompare a b = Some Eq -> SF2R a = SF2R b.
Proof.
  destruct a as [[]|[]| |[] m1 e1], b as [[]|[]| |[] m2 e2];
    try discriminate; try reflexivity; intros _ _; cbn [SFcompare];
    destruct (Z.compare_spec e1 e2) as [E|E|E]; try discriminate;
    change (Pos.compare_cont Eq m1 m2) with (Pos.compare m1 m2);
    destruct (Pos.compare_spec m1 m2) as [M|M|M]; try discriminate;
    intros _; subst; reflexivity.
Qed.

Lemma not_above_value (a b : spec_float) :
  valid_binary a = true -> valid_binary b = true ->
  is_finite_SF a = true -> is_finite_SF b = true ->
  not_above a b -> (SF2R a <= SF2R b)%R.
Proof.
  intros Va Vb Fa Fb H.
  destruct (Rle_lt_dec (SF2R a) (SF2R b)) as [Hle|Hlt]; [exact Hle|].
  assert (Ra : Rnd (SF2R a) a).
  { pose proof (Rnd_SF2R a Va) as R. destruct a; try discriminate; exact R. }
  assert (Rb : Rnd (SF2R b) b).
  { pose proof (Rnd_SF2R b Vb) as R. destruct b; try discriminate; exact R. }
  pose proof (Rnd_mono _ _ _ _ Rb Ra (Rlt_le _ _ Hlt)) as Hba.
  unfold not_above, SFltb in H. unfold SFleb in Hba.
  destruct (SFcompare b a) as [[]|] eqn:Hc; try discriminate.
  rewrite (SFcompare_Eq_value b a Fb Fa Hc). apply Rle_refl.
Qed.

Lemma not_above_nan_r (a : spec_float) : not_above a S754_nan.
Proof. reflexivity. Qed.

Lemma not_above_nan_l (b : spec_float) : not_above S754_nan b.
Proof. destruct b; reflexivity. Qed.

Lemma not_above_neg_inf (b : spec_float) : not_above (S754_infinity true) b.
Proof. destruct b as [[]|[]| |[]]; reflexivity. Qed.

Lemma not_above_pos_inf (a : spec_float) : not_above a (S754_infinity false).
Proof. destruct a as [[]|[]| |[]]; reflexivity. Qed.

Lemma not_above_inf_refl (s : bool) :
  not_above (S754_infinity s) (S754_infinity s).
Proof. destruct s; reflexivity. Qed.

(** The cases of a monotonicity proof in which some float is not finite. *)
Ltac not_above_edge :=
  match goal with
  | |- not_above S754_nan _ => apply not_above_nan_l
  | |- not_above _ S754_nan => apply not_above_nan_r
  | |- not_above (S754_infinity true) _ => apply not_above_neg_inf
  | |- not_above _ (S754_infinity false) => apply not_above_pos_inf
  | |- not_above (S754_infinity ?s) (S754_infinity ?s) => apply not_above_inf_refl
  | H : not_above ?a ?b |- not_above ?a ?b => exact H
  | H : not_above _ _ |- _ => exfalso; cbv in H; discriminate H
  end.

Lemma SFadd_mono_l (u u' c : spec_float) :
  valid_binary u = true -> valid_binary u' = true -> valid_binary c = true ->
  not_above u u' ->
  not_above (SFadd prec emax u c) (SFadd prec emax u' c).
Proof.
  intros Vu Vu' Vc H.
  destruct (is_finite_SF u && is_finite_SF u' && is_finite_SF c) eqn:Hfin.
  - apply andb_true_iff in Hfin as [Hfin Fc].
    apply andb_true_iff in Hfin as [Fu Fu'].
    apply SFleb_not_above.
    apply (Rnd_mono _ _ _ _ (Rnd_SFadd u c Vu Vc Fu Fc)
                            (Rnd_SFadd u' c Vu' Vc Fu' Fc)).
    pose proof (not_above_value u u' Vu Vu' Fu Fu' H). lra.
  - clear Vu Vu' Vc.
    destruct u as [su|su| |su mu eu], u' as [su'|su'| |su' mu' eu'],
      c as [sc|sc| |sc mc ec]; try discriminate Hfin; clear Hfin;
      cbn [SFadd];
      repeat match goal with s : bool |- _ => destruct s end;
      not_above_edge.
Qed.

Lemma SFadd_mono_r (u u' c : spec_float) :
  valid_binary u = true -> valid_binary u' = true -> valid_binary c = true ->
  not_above u u' ->
  not_above (SFadd prec emax c u) (SFadd prec emax c u').
Proof.
  intros Vu Vu' Vc H.
  destruct (is_finite_SF u && is_finite_SF u' && is_finite_SF c) eqn:Hfin.
  - apply andb_true_iff in Hfin as [Hfin Fc].
    apply andb_true_iff in Hfin as [Fu Fu'].
    apply SFleb_not_above.
    apply (Rnd_mono _ _ _ _ (Rnd_SFadd c u Vc Vu Fc Fu)
                            (Rnd_SFadd c u' Vc Vu' Fc Fu')).
    pose proof (not_above_value u u' Vu Vu' Fu Fu' H). lra.
  - clear Vu Vu' Vc.
    destruct u as [su|su| |su mu eu], u' as [su'|su'| |su' mu' eu'],
      c as [sc|sc| |sc mc ec]; try discriminate Hfin; clear Hfin;
      cbn [SFadd];
      repeat match goal with s : bool |- _ => destruct s end;
      not_above_edge.
Qed.

Lemma SFmul_mono (u u' : spec_float) (mk : positive) (ek : Z) :
  valid_binary u = true -> valid_binary u' = true ->
  valid_binary (S754_finite false mk ek) = true ->
  not_above u u' ->
  not_above (SFmul prec emax u (S754_finite false mk ek))
            (SFmul prec emax u' (S754_finite false mk ek)).
Proof.
  intros Vu Vu' Vk H.
  destruct (is_finite_SF u && is_finite_SF u') eqn:Hfin.
  - apply andb_true_iff in Hfin as [Fu Fu'].
    apply SFleb_not_above.
    apply (Rnd_mono _ _ _ _ (Rnd_SFmul u _ Vu Vk Fu eq_refl)
                            (Rnd_SFmul u' _ Vu' Vk Fu' eq_refl)).
    pose proof (not_above_value u u' Vu Vu' Fu Fu' H).
    cbn [SF2R cond_Ropp]. pose proof (fval_pos mk ek). nra.
  - clear Vu Vu' Vk.
    destruct u as [su|su| |su mu eu], u' as [su'|su'| |su' mu' eu'];
      try discriminate Hfin; clear Hfin;
      cbn [SFmul];
      repeat match goal with s : bool |- _ => destruct s end;
      cbn [xorb]; not_above_edge.
Qed.

(** *** Floats of magnitude at least one *)

Lemma binary_round_aux_large (s : bool) (m : positive) (e : Z) :
  e <= fexp64 (mag m e) -> (1 <= fval (Zpos m) e)%R ->
  large s (binary_round_aux prec emax s (Zpos m) e loc_Exact).
Proof.
  intros A Hx. rewrite binary_round_aux_round_pos.
  destruct (round_pos_spec m e A) as (r & r' & c' & E & _ & V & _ & L & F).
  rewrite E.
  assert (Hmag : 0 < mag m e).
  { apply bpow_lt_inv. rewrite bpow_0.
    pose proof (fval_mag m e) as [_ Hm]. lra. }
  assert (Hv : (1 <= fval r' c')%R).
  { rewrite V. rewrite <- bpow_0.
    apply Rle_trans with (bpow (mag m e - 1)); [apply bpow_le; lia|].
    apply L. rewrite fexp64_eq. lia. }
  destruct r' as [|q|q]; [| |contradiction].
  - exfalso. rewrite fval_0 in Hv. lra.
  - destruct (Z.leb_spec c' (emax - prec)) as [B|B]; [|constructor].
    constructor; [|exact Hv]. unfold SpecFloat.bounded. rewrite F.
    apply Z.leb_le in B. rewrite B. reflexivity.
Qed.

Lemma binary_round_large (s : bool) (m : positive) :
  large s (binary_round prec emax s m 0).
Proof.
  unfold binary_round.
  pose proof (shl_align_spec m 0 (fexp prec emax (Zpos (digits2_pos m) + 0)))
    as [Hs Hv].
  destruct (shl_align m 0 _) as [mz ez]. cbn [fst snd] in Hs, Hv.
  apply binary_round_aux_large.
  - rewrite (mag_eq mz ez m 0 Hv). unfold fexp64, mag. lia.
  - rewrite Hv. unfold fval. rewrite bpow_0, Rmult_1_r.
    apply IZR_le. lia.
Qed.

Lemma SFmul_large (s : bool) (u : spec_float) (mk : positive) (ek : Z) :
  large s u ->
  SpecFloat.bounded prec emax mk ek = true -> (1 <= fval (Zpos mk) ek)%R ->
  large s (SFmul prec emax u (S754_finite false mk ek)).
Proof.
  intros [q c B Hv|] Bk Hk; cbn [SFmul]; rewrite xorb_false_r; [|constructor].
  apply binary_round_aux_large.
  - apply mul_aligned; assumption.
  - rewrite fval_mul. nra.
Qed.

(** Adding [+0] on the left changes nothing but a negative zero. *)
Lemma SFadd_zero_l (y : spec_float) :
  (forall s, y <> S754_zero s \/ s = false) ->
  SFadd prec emax (S754_zero false) y = y.
Proof.
  intros H. destruct y as [s|s| |s m e]; try reflexivity.
  destruct (H s) as [N| ->]; [congruence|reflexivity].
Qed.

Lemma SFmul_comm (x y : spec_float) : SFmul prec emax x y = SFmul prec emax y x.
Proof.
  destruct x as [sx|sx| |sx mx ex], y as [sy|sy| |sy my ey]; cbn [SFmul];
    try rewrite (xorb_comm sx sy); try reflexivity.
  rewrite (Pos.mul_comm mx my), (Z.add_comm ex ey). reflexivity.
Qed.

(** *** The operations of [float64] *)

Lemma float_not_above_SF (a b : float) :
  float_not_above a b <-> not_above (Prim2SF a) (Prim2SF b).
Proof. unfold float_not_above, not_above. rewrite ltb_spec. reflexivity. Qed.

Lemma add_mono_l (a a' c : float) :
  float_not_above a a' -> float_not_above (a + c) (a' + c).
Proof.
  rewrite !float_not_above_SF, !add_spec.
  apply SFadd_mono_l; apply Prim2SF_valid.
Qed.

Lemma add_mono_r (a a' c : float) :
  float_not_above a a' -> float_not_above (c + a) (c + a').
Proof.
  rewrite !float_not_above_SF, !add_spec.
  apply SFadd_mono_r; apply Prim2SF_valid.
Qed.

Lemma mul_mono_pos (a a' k : float) (mk : positive) (ek : Z) :
  Prim2SF k = S754_finite false mk ek ->
  float_not_above a a' -> float_not_above (a * k) (a' * k).
Proof.
  intros Hk. rewrite !float_not_above_SF, !mul_spec.
  pose proof (Prim2SF_valid k) as Vk. rewrite Hk in *.
  apply SFmul_mono; try apply Prim2SF_valid. exact Vk.
Qed.

Lemma Prim2SF_float64_of_int (n : Z) :
  Prim2SF (float64_of_int n) = binary_normalize prec emax n 0 false.
Proof.
  apply Prim2SF_SF2Prim.
  exact (Rnd_valid _ _ (Rnd_binary_normalize n 0 false)).
Qed.

Lemma float64_of_int_mono (n n' : Z) :
  n <= n' -> float_not_above (float64_of_int n) (float64_of_int n').
Proof.
  intros H. rewrite float_not_above_SF, !Prim2SF_float64_of_int.
  apply SFleb_not_above.
  apply (Rnd_mono _ _ _ _ (Rnd_binary_normalize n 0 false)
                          (Rnd_binary_normalize n' 0 false)).
  apply fval_le, H.
Qed.

Lemma leb_float_not_above (a b : float) :
  (a <=? b)%float = true -> float_not_above a b.
Proof.
  rewrite leb_spec, float_not_above_SF. apply SFleb_not_above.
Qed.

Lemma Prim2SF_2 : Prim2SF 2 = S754_finite false 4503599627370496 (-51).
Proof. reflexivity. Qed.

Lemma Prim2SF_3 : Prim2SF 3 = S754_finite false 6755399441055744 (-51).
Proof. reflexivity. Qed.

Lemma Prim2SF_5 : Prim2SF 5 = S754_finite false 5629499534213120 (-50).
Proof. reflexivity. Qed.

Lemma weighted_sum_territory (t t' a i p : float) :
  float_not_above t t' ->
  float_not_above (weighted_sum t a i p) (weighted_sum t' a i p).
Proof.
  intros H. unfold weighted_sum.
  do 3 apply add_mono_l. apply add_mono_r.
  apply (mul_mono_pos _ _ _ _ _ Prim2SF_2), H.
Qed.

Lemma weighted_sum_depth (t a a' i p : float) :
  float_not_above a a' ->
  float_not_above (weighted_sum t a i p) (weighted_sum t a' i p).
Proof.
  intros H. unfold weighted_sum.
  do 2 apply add_mono_l. apply add_mono_r.
  apply (mul_mono_pos _ _ _ _ _ Prim2SF_3), H.
Qed.

Lemma weighted_sum_immediate (t a i i' p : float) :
  float_not_above i i' ->
  float_not_above (weighted_sum t a i p) (weighted_sum t a i' p).
Proof.
  intros H. unfold weighted_sum.
  apply add_mono_l. apply add_mono_r.
  apply (mul_mono_pos _ _ _ _ _ Prim2SF_5), H.
Qed.

Lemma calculateMoveScore_weighted_sum (eval : MoveEvaluation) (boardSize : Z) :
  calculateMoveScore eval boardSize
  = weighted_sum (float64_of_int (ReachableTerritory eval))
      (AvgDepthMobility eval) (float64_of_int (ImmediateMoves eval))
      ((float64_of_int (wrap64 (boardSize * boardSize))
        - DistanceFromCenter eval)
       / float64_of_int (wrap64 (boardSize * boardSize))).
Proof. reflexivity. Qed.

Lemma float_mul_comm (a b : float) : (a * b = b * a)%float.
Proof.
  apply Prim2SF_inj. rewrite !mul_spec. apply SFmul_comm.
Qed.

(** The first term of the sum is never a negative zero, so that adding
    it to the initial [0.0] returns it. *)
Lemma zero_add_territory (n : Z) :
  (0 + float64_of_int n * 2 = float64_of_int n * 2)%float.
Proof.
  apply Prim2SF_inj.
  rewrite add_spec, mul_spec, Prim2SF_float64_of_int, Prim2SF_2.
  unfold SF64add, SF64mul. change (Prim2SF 0) with (S754_zero false).
  apply SFadd_zero_l. intros s.
  assert (B2 : SpecFloat.bounded prec emax 4503599627370496 (-51) = true)
    by reflexivity.
  assert (V2 : (1 <= fval (Zpos 4503599627370496) (-51))%R).
  { change (Zpos 4503599627370496) with (2 ^ 52).
    rewrite fval_pow2 by lia. change (52 + -51) with 1. rewrite bpow_1. lra. }
  destruct n as [|m|m]; cbn [binary_normalize].
  - destruct s; [left; discriminate|right; reflexivity].
  - left. pose proof (SFmul_large false _ _ _ (binary_round_large false m) B2 V2) as L.
    intros E. rewrite E in L. inversion L.
  - left. pose proof (SFmul_large true _ _ _ (binary_round_large true m) B2 V2) as L.
    intros E. rewrite E in L. inversion L.
Qed.

Lemma calculateMoveScore_formula (eval : MoveEvaluation) (boardSize : Z) :
  calculateMoveScore eval boardSize
  = total_score_formula (float64_of_int (ReachableTerritory eval))
      (AvgDepthMobility eval) (float64_of_int (ImmediateMoves eval))
      (normalizedCenterProximity
         (float64_of_int (wrap64 (boardSize * boardSize)))
         (DistanceFromCenter eval)).
Proof.
  unfold calculateMoveScore, total_score_formula, normalizedCenterProximity.
  cbv zeta. rewrite zero_add_territory.
  rewrite (float_mul_comm 2), (float_mul_comm 3), (float_mul_comm 5),
    (float_mul_comm 1).
  reflexivity.
Qed.

(** *** The total score *)

(** X25: the weighted score.  The total score is 2.0 x territory
    + 3.0 x avgDepthMobility + 5.0 x immediateMobility
    + 1.0 x normalizedCenterProximity, where
    normalizedCenterProximity = (maxPossibleDistance - centerDistance)
    / maxPossibleDistance, the largest possible distance being the
    square of the board size; the centre distance that [evaluateMove]
    stores is the squared Euclidean distance from the landing cell to
    (size/2, size/2), and the total score it stores is that of its own
    fields.  A larger immediate mobility, the other fields fixed, never
    gives a smaller score, and the same holds for the territory and for
    the average depth mobility: the comparison [score' < score] is false
    (as it also is when a score is not a number). *)
Theorem calculateMoveScore_weighted (game : GameState) (currentPos : Position)
    (dir : Direction) (eval eval' : MoveEvaluation) (boardSize : Z) :
  let newPos := getNewPosition currentPos dir in
  let centre := (float64_of_int (Size game) / 2)%float in
  let maxPossibleDistance := float64_of_int (wrap64 (boardSize * boardSize)) in
  calculateMoveScore eval boardSize
  = total_score_formula (float64_of_int (ReachableTerritory eval))
      (AvgDepthMobility eval) (float64_of_int (ImmediateMoves eval))
      (normalizedCenterProximity maxPossibleDistance (DistanceFromCenter eval))
  /\ DistanceFromCenter (evaluateMove game currentPos dir)
     = squared_distance (float64_of_int (Row newPos))
         (float64_of_int (Col newPos)) centre centre
  /\ TotalScore (evaluateMove game currentPos dir)
     = calculateMoveScore (evaluateMove game currentPos dir) (Size game)
  /\ (DistanceFromCenter eval' = DistanceFromCenter eval ->
      (ReachableTerritory eval' = ReachableTerritory eval ->
       AvgDepthMobility eval' = AvgDepthMobility eval ->
       ImmediateMoves eval <= ImmediateMoves eval' ->
       (calculateMoveScore eval' boardSize
          <? calculateMoveScore eval boardSize)%float = false)
      /\ (ImmediateMoves eval' = ImmediateMoves eval ->
          AvgDepthMobility eval' = AvgDepthMobility eval ->
          ReachableTerritory eval <= ReachableTerritory eval' ->
          (calculateMoveScore eval' boardSize
             <? calculateMoveScore eval boardSize)%float = false)
      /\ (ImmediateMoves eval' = ImmediateMoves eval ->
          ReachableTerritory eval' = ReachableTerritory eval ->
          (AvgDepthMobility eval <=? AvgDepthMobility eval')%float = true ->
          (calculateMoveScore eval' boardSize
             <? calculateMoveScore eval boardSize)%float = false)).
Proof.
  intros newPos centre maxPossibleDistance.
  split; [apply calculateMoveScore_formula|].
  split; [reflexivity|]. split; [reflexivity|].
  intros HD. rewrite !calculateMoveScore_weighted_sum, HD.
  split; [|split].
  - intros -> -> HI.
    apply weighted_sum_immediate, float64_of_int_mono, HI.
  - intros -> -> HT.
    apply weighted_sum_territory, float64_of_int_mono, HT.
  - intros -> -> HA.
    apply weighted_sum_depth, leb_float_not_above, HA.
Qed.

(** ** Steps on the board *)

Lemma wrap64_pred_succ (z : Z) :
  int64_range z -> wrap64 (wrap64 (z - 1) + 1) = z.
Proof.
  unfold int64_range. intros Hz.
  destruct (wrap64_eq (z - 1)) as [k Hk].
  destruct (wrap64_eq (wrap64 (z - 1) + 1)) as [k' Hk'].
  pose proof (wrap64_range (wrap64 (z - 1) + 1)). lia.
Qed.

Lemma wrap64_succ_pred (z : Z) :
  int64_range z -> wrap64 (wrap64 (z + 1) - 1) = z.
Proof.
  unfold int64_range. intros Hz.
  destruct (wrap64_eq (z + 1)) as [k Hk].
  destruct (wrap64_eq (wrap64 (z + 1) - 1)) as [k' Hk'].
  pose proof (wrap64_range (wrap64 (z + 1) - 1)). lia.
Qed.

Lemma getNewPosition_back (pos : Position) (d : Direction) :
  int64_range (Row pos) -> int64_range (Col pos) ->
  getNewPosition (getNewPosition pos d) (opposite d) = pos.
Proof.
  intros Hr Hc. destruct pos as [r c], d; cbn in *;
    rewrite ?wrap64_pred_succ, ?wrap64_succ_pred by assumption; reflexivity.
Qed.

(** X1: a step followed by the step in the opposite direction returns to
    the starting cell, for every position a 64-bit [int] pair can hold,
    the wrap-around at the ends of the range included; and the opposite
    of the opposite is the direction itself. *)
Theorem getNewPosition_opposite (pos : Position) (d : Direction) :
  int64_range (Row pos) -> int64_range (Col pos) ->
  getNewPosition (getNewPosition pos d) (opposite d) = pos
  /\ getNewPosition (getNewPosition pos (opposite d)) d = pos
  /\ opposite (opposite d) = d.
Proof.
  intros Hr Hc. split; [|split].
  - apply getNewPosition_back; assumption.
  - pose proof (getNewPosition_back pos (opposite d) Hr Hc) as Hback.
    destruct d; exact Hback.
  - destruct d; reflexivity.
Qed.

Lemma GetValidMoves_filter (game : GameState) (player : string) :
  GetValidMoves game player
  = List.filter
      (fun d => IsValidMove game (getNewPosition (getPlayerPos game player) d))
      [Up; Down; Left; Right].
Proof.
  unfold GetValidMoves, getPlayerPos. cbn [fold_left fst snd app List.filter getNewPosition].
  set (pos := pos_at (PlayerPos game) player).
  destruct (IsValidMove game {| Row := wrap64 (Row pos - 1); Col := Col pos |}),
    (IsValidMove game {| Row := wrap64 (Row pos + 1); Col := Col pos |}),
    (IsValidMove game {| Row := Row pos; Col := wrap64 (Col pos - 1) |}),
    (IsValidMove game {| Row := Row pos; Col := wrap64 (Col pos + 1) |});
    reflexivity.
Qed.

Lemma getAvailablePositions_filter (game : GameState) (pos : Position) :
  getAvailablePositions game pos
  = List.filter (IsValidMove game) (four_neighbours pos).
Proof.
  unfold getAvailablePositions, four_neighbours.
  cbn [fold_left app List.filter].
  destruct (IsValidMove game {| Row := wrap64 (Row pos - 1); Col := Col pos |}),
    (IsValidMove game {| Row := wrap64 (Row pos + 1); Col := Col pos |}),
    (IsValidMove game {| Row := Row pos; Col := wrap64 (Col pos - 1) |}),
    (IsValidMove game {| Row := Row pos; Col := wrap64 (Col pos + 1) |});
    reflexivity.
Qed.

Lemma four_neighbours_map (pos : Position) :
  four_neighbours pos = map (getNewPosition pos) [Up; Down; Left; Right].
Proof. reflexivity. Qed.

Lemma filter_map_comm {A B : Type} (f : A -> B) (p : B -> bool) (l : list A) :
  List.filter p (map f l) = map f (List.filter (fun a => p (f a)) l).
Proof.
  induction l as [|a l IH]; [reflexivity|]. cbn [map List.filter].
  destruct (p (f a)); cbn [map]; rewrite IH; reflexivity.
Qed.

Lemma sublist_List_filter {A : Type} (p : A -> bool) (l : list A) :
  sublist (List.filter p l) l.
Proof.
  induction l as [|a l IH]; [constructor|]. cbn [List.filter].
  destruct (p a); [apply sublist_skip|apply sublist_cons]; exact IH.
Qed.

(** X2: the three scanners of a player's neighbourhood agree.
    [GetValidMoves] lists each direction whose cell is legal exactly once,
    in the order up, down, left, right; [getAvailablePositions] lists the
    cells of those directions in the same order, and
    [countAvailableMoves] is their number, at most four. *)
Theorem neighbourhood_scanners_agree (game : GameState) (player : string) :
  let pos := getPlayerPos game player in
  sublist (GetValidMoves game player) [Up; Down; Left; Right]
  /\ (forall d, d ∈ GetValidMoves game player
                <-> IsValidMove game (getNewPosition pos d) = true)
  /\ getAvailablePositions game pos
     = map (getNewPosition pos) (GetValidMoves game player)
  /\ countAvailableMoves game pos
     = Z.of_nat (length (GetValidMoves game player))
  /\ 0 <= countAvailableMoves game pos <= 4.
Proof.
  intros pos. split; [|split; [|split; [|split]]].
  - rewrite GetValidMoves_filter. apply sublist_List_filter.
  - intros d. apply elem_of_GetValidMoves.
  - rewrite getAvailablePositions_filter, GetValidMoves_filter,
      four_neighbours_map. apply filter_map_comm.
  - rewrite countAvailableMoves_length, GetValidMoves_filter,
      four_neighbours_map, filter_map_comm, length_map. reflexivity.
  - rewrite countAvailableMoves_length.
    pose proof (filter_length_le (IsValidMove game) (four_neighbours pos)) as H.
    cbn [four_neighbours length] in H. lia.
Qed.

(** ** Move execution on a well-formed game *)

Lemma player_id_inj (i j : Z) :
  0 <= i < 10 -> 0 <= j < 10 -> player_id i = player_id j -> i = j.
Proof.
  intros Hi Hj Heq. unfold player_id in Heq.
  destruct (PlayerIDs !! Z.to_nat i) as [a|] eqn:Ea;
    [|apply lookup_ge_None in Ea; cbn in Ea; lia].
  destruct (PlayerIDs !! Z.to_nat j) as [b|] eqn:Eb;
    [|apply lookup_ge_None in Eb; cbn in Eb; lia].
  cbn in Heq. subst b.
  pose proof (NoDup_lookup _ _ _ _ NoDup_PlayerIDs Ea Eb). lia.
Qed.

(** The index search finds the index of a player of the game. *)
Lemma find_player_index_hit (n : nat) (j i : Z) :
  0 <= j -> j <= i < j + Z.of_nat n -> i < 10 ->
  find_player_index n j (player_id i) = Ret i.
Proof.
  revert j. induction n as [|n IH]; intros j Hj Hi Hten; [lia|].
  cbn [find_player_index]. rewrite slice_get_player_id by lia. cbn.
  destruct (String.eqb_spec (player_id j) (player_id i)) as [E|E].
  - apply player_id_inj in E; [subst; reflexivity|lia|lia].
  - apply IH; [lia| |lia].
    assert (i <> j) by (intros ->; apply E; reflexivity). lia.
Qed.

(** For any other name the index stays 0. *)
Lemma find_player_index_miss (n : nat) (j : Z) (player : string) :
  0 <= j -> j + Z.of_nat n <= 10 ->
  player ∉ take n (drop (Z.to_nat j) PlayerIDs) ->
  find_player_index n j player = Ret 0.
Proof.
  revert j. induction n as [|n IH]; intros j Hj Hn Hout; [reflexivity|].
  cbn [find_player_index].
  destruct (slice_get_Ret PlayerIDs j) as (id & -> & Hid); [cbn; lia|]. cbn.
  assert (Hdrop : drop (Z.to_nat j) PlayerIDs
                  = id :: drop (Z.to_nat (j + 1)) PlayerIDs).
  { replace (Z.to_nat (j + 1)) with (S (Z.to_nat j)) by lia.
    apply drop_S. exact Hid. }
  rewrite Hdrop in Hout. cbn [take] in Hout.
  apply not_elem_of_cons in Hout as [Hne Hout].
  destruct (String.eqb_spec id player) as [E|E]; [congruence|].
  apply IH; [lia|lia|exact Hout].
Qed.

Lemma MakeMove_known (game : GameState) (i : Z) (direction : Direction) :
  let player := player_id i in
  let oldPos := getPlayerPos game player in
  let newPos := getNewPosition oldPos direction in
  grid_ok (Size game) (Grid game) ->
  NumPlayers game <= 10 ->
  0 <= i < NumPlayers game ->
  in_bounds game oldPos ->
  in_bounds game newPos ->
  exists game' trailChar,
    MakeMove game player direction = Ret game'
    /\ TrailChars !! Z.to_nat i = Some trailChar
    /\ Size game' = Size game
    /\ PlayerPos game' = <[player := newPos]> (PlayerPos game)
    /\ Visited game' = <[newPos := true]> (Visited game)
    /\ cell_at (Grid game') oldPos = Some trailChar
    /\ cell_at (Grid game') newPos = Some player
    /\ (forall q, q <> oldPos -> q <> newPos -> 0 <= Row q -> 0 <= Col q ->
          cell_at (Grid game') q = cell_at (Grid game) q).
Proof.
  intros player oldPos newPos Hgrid Hn Hi [Hor Hoc] [Hnr Hnc].
  unfold MakeMove. rewrite MakeMove_newPos.
  change (pos_at (PlayerPos game) player) with (getPlayerPos game player).
  fold oldPos. fold newPos.
  assert (Hfind : find_player_index (Z.to_nat (NumPlayers game)) 0 player = Ret i)
    by (apply find_player_index_hit; lia).
  rewrite Hfind. cbn.
  destruct (slice_get_Ret TrailChars i) as (trailChar & -> & Htrail);
    [cbn; lia|]. cbn.
  destruct (grid_set_Ret (Size game) (Grid game) oldPos trailChar)
    as (grid1 & -> & Hgrid1 & Hcell1 & Hother1); auto. cbn.
  destruct (grid_set_Ret (Size game) grid1 newPos player)
    as (grid2 & -> & Hgrid2 & Hcell2 & Hother2); auto. cbn.
  eexists _, trailChar. split; [reflexivity|].
  cbn [Size PlayerPos Visited Grid].
  split; [exact Htrail|]. split; [reflexivity|]. split; [reflexivity|].
  split; [reflexivity|]. split; [|split; [exact Hcell2|]].
  - rewrite Hother2; [exact Hcell1 | | lia | lia]. intros Heq. symmetry in Heq.
    revert Heq. apply getNewPosition_moves.
  - intros q Hqo Hqn Hr Hc. rewrite Hother2, Hother1; auto.
Qed.

Lemma getPlayerPos_insert (game game' : GameState) (player other : string)
    (pos : Position) :
  PlayerPos game' = <[player := pos]> (PlayerPos game) ->
  getPlayerPos game' other
  = if decide (player = other) then pos else getPlayerPos game other.
Proof.
  intros E. unfold getPlayerPos, pos_at. rewrite E.
  destruct (decide (player = other)) as [->|Hne].
  - rewrite lookup_insert_eq. reflexivity.
  - rewrite lookup_insert_ne by exact Hne. reflexivity.
Qed.

(** X3: a legal move of a player of a well-formed game is drawn on the
    grid as it is recorded: the cell left shows the trail glyph of that
    very player, the cell entered shows the player, every other cell of
    the grid is untouched, and no other player is displaced. *)
Theorem MakeMove_draws_the_move (game : GameState) (i : Z)
    (direction : Direction) :
  let player := player_id i in
  let oldPos := getPlayerPos game player in
  let newPos := getNewPosition oldPos direction in
  game_ok game ->
  0 <= i < NumPlayers game ->
  direction ∈ GetValidMoves game player ->
  exists game' trailChar,
    MakeMove game player direction = Ret game'
    /\ TrailChars !! Z.to_nat i = Some trailChar
    /\ cell_at (Grid game') oldPos = Some trailChar
    /\ cell_at (Grid game') newPos = Some player
    /\ (forall q, q <> oldPos -> q <> newPos -> 0 <= Row q -> 0 <= Col q ->
          cell_at (Grid game') q = cell_at (Grid game) q)
    /\ getPlayerPos game' player = newPos
    /\ (forall other, other <> player ->
          getPlayerPos game' other = getPlayerPos game other).
Proof.
  intros player oldPos newPos [Hn Hgrid Hheads Hconfigs] Hi Hd.
  apply elem_of_GetValidMoves, IsValidMove_true in Hd as [Hnew _].
  assert (Hid : player ∈ player_ids game) by (apply player_id_elem_of; lia).
  destruct (Hheads player Hid) as [Hold _].
  destruct (MakeMove_known game i direction Hgrid ltac:(lia) Hi Hold Hnew)
    as (game' & trailChar & Hrun & Htrail & _ & Hpos & _ & Hc1 & Hc2 & Hc3).
  exists game', trailChar. repeat (split; [assumption|]). split.
  - rewrite (getPlayerPos_insert game game' player player newPos Hpos).
    destruct (decide (player = player)); [reflexivity|contradiction].
  - intros other Hne.
    rewrite (getPlayerPos_insert game game' player other newPos Hpos).
    destruct (decide (player = other)); [congruence|reflexivity].
Qed.

(** X4: a legal move takes exactly one cell out of play.  After it a
    cell is legal when it was legal before and is not the cell entered;
    so no other player gains a direction by it. *)
Theorem MakeMove_only_blocks (game : GameState) (player : string)
    (direction : Direction) :
  let newPos := getNewPosition (getPlayerPos game player) direction in
  game_ok game ->
  player ∈ player_ids game ->
  direction ∈ GetValidMoves game player ->
  exists game',
    MakeMove game player direction = Ret game'
    /\ (forall q, IsValidMove game' q = true
                  <-> IsValidMove game q = true /\ q <> newPos)
    /\ (forall other d, other <> player ->
          d ∈ GetValidMoves game' other -> d ∈ GetValidMoves game other).
Proof.
  intros newPos Hok Hid Hd.
  pose proof Hok as [Hn Hgrid Hheads Hconfigs].
  pose proof Hd as Hd'.
  apply elem_of_GetValidMoves, IsValidMove_true in Hd' as [Hnew Hfree].
  destruct (Hheads player Hid) as [Hold _].
  destruct (MakeMove_effects game player direction Hgrid ltac:(lia) Hold Hnew)
    as (game' & Hrun & Hsize & _ & Hpos & _ & _ & _ & Hvis & _).
  fold newPos in Hpos, Hvis, Hfree.
  assert (Hvalid : forall q, IsValidMove game' q = true
                             <-> IsValidMove game q = true /\ q <> newPos).
  { intros q. rewrite !IsValidMove_true. unfold in_bounds.
    rewrite Hsize, Hvis, visited_at_insert.
    destruct (decide (newPos = q)) as [Heq|Hne].
    - split; [intros [_ ?]; discriminate|].
      intros [_ Hq]. exfalso. apply Hq. symmetry. exact Heq.
    - split.
      + intros [Hb Hv]. split; [split; assumption|]. intros E. apply Hne.
        symmetry. exact E.
      + intros [[Hb Hv] _]. split; assumption. }
  exists game'. split; [exact Hrun|]. split; [exact Hvalid|].
  intros other d Hne Hin.
  apply elem_of_GetValidMoves in Hin. apply elem_of_GetValidMoves.
  rewrite (getPlayerPos_insert game game' player other newPos Hpos) in Hin.
  destruct (decide (player = other)); [congruence|].
  apply Hvalid in Hin as [Hin _]. exact Hin.
Qed.

(** X5: [MakeMove] does not check that the player is one of the game.
    For a name that is none of the game's identifiers and has no
    position, the index search leaves the index at 0 and the position
    read is the zero value: the call draws the trail glyph of player 1
    on cell (0,0), enters the unknown name on the next cell and records
    a position for it. *)
Theorem MakeMove_unknown_player (game : GameState) (player : string)
    (direction : Direction) :
  let newPos := getNewPosition (mkPosition 0 0) direction in
  grid_ok (Size game) (Grid game) ->
  NumPlayers game <= 10 ->
  player ∉ player_ids game ->
  PlayerPos game !! player = None ->
  in_bounds game (mkPosition 0 0) ->
  in_bounds game newPos ->
  exists game',
    MakeMove game player direction = Ret game'
    /\ cell_at (Grid game') (mkPosition 0 0) = Some "░"
    /\ cell_at (Grid game') newPos = Some player
    /\ PlayerPos game' !! player = Some newPos
    /\ visited_at (Visited game') newPos = true
    /\ Moves game'
       = (Moves game ++ [ {| Player := player; MoveDirection := direction;
                             From := mkPosition 0 0; To := newPos |} ])%list.
Proof.
  intros newPos Hgrid Hn Hout Hnone [Hor Hoc] [Hnr Hnc].
  assert (Hpos : pos_at (PlayerPos game) player = mkPosition 0 0).
  { unfold pos_at. rewrite Hnone. reflexivity. }
  unfold MakeMove. rewrite MakeMove_newPos. unfold getPlayerPos.
  rewrite Hpos. fold newPos.
  rewrite find_player_index_miss; [|lia|lia|exact Hout].
  cbn [mbind Run_bind].
  change (slice_get TrailChars 0) with (Ret (A := string) "░").
  cbn [mbind Run_bind].
  destruct (grid_set_Ret (Size game) (Grid game) (mkPosition 0 0) "░")
    as (grid1 & -> & Hgrid1 & Hcell1 & Hother1); auto. cbn.
  destruct (grid_set_Ret (Size game) grid1 newPos player)
    as (grid2 & -> & Hgrid2 & Hcell2 & Hother2); auto. cbn.
  eexists. split; [reflexivity|].
  cbn [Grid PlayerPos Visited Moves].
  split.
  { rewrite Hother2; [exact Hcell1 | | cbn; lia | cbn; lia].
    intros Heq. symmetry in Heq. revert Heq. apply getNewPosition_moves. }
  split; [exact Hcell2|]. split; [apply lookup_insert_eq|].
  split; [|reflexivity].
  rewrite visited_at_insert. destruct (decide (newPos = newPos)); congruence.
Qed.

(** ** The outcome of game creation *)

Section CreationOutcome.

Context `{Environment}.

Lemma init_configs_Ret (n : nat) (i : Z) (configs : gmap string PlayerConfig) :
  0 <= i -> i + Z.of_nat n <= 10 ->
  exists configs', init_configs n i configs = Ret configs'.
Proof.
  revert i configs. induction n as [|n IH]; intros i configs Hi Hn;
    cbn [init_configs]; [eauto|].
  destruct (slice_get_Ret PlayerIDs i) as (playerID & -> & _); [cbn; lia|].
  cbn [mbind Run_bind]. apply IH; lia.
Qed.

Lemma init_configs_Panic (n : nat) (i : Z) (configs : gmap string PlayerConfig) :
  0 <= i <= 10 -> 10 < i + Z.of_nat n ->
  init_configs n i configs = Panic index_out_of_range.
Proof.
  revert i configs. induction n as [|n IH]; intros i configs Hi Hn; [lia|].
  cbn [init_configs]. destruct (Z.eq_dec i 10) as [->|Hne].
  - reflexivity.
  - destruct (slice_get_Ret PlayerIDs i) as (playerID & -> & _); [cbn; lia|].
    cbn [mbind Run_bind]. apply IH; lia.
Qed.

Lemma place_player_Ret (attempts k : nat) (pos : Position)
    (playerPos : gmap string Position) :
  1 <= gridSize ->
  exists placed k', place_player attempts k pos playerPos = Ret (placed, k').
Proof.
  intros Hsize. revert k pos.
  induction attempts as [|a IH]; intros k pos; cbn [place_player]; [eauto|].
  unfold rand_Intn. destruct (Z.leb_spec gridSize 0) as [Hle|_]; [lia|].
  cbn [mbind Run_bind]. destruct (tooClose _ playerPos); [apply IH|eauto].
Qed.

Lemma place_player_no_board (attempts k : nat) (pos : Position)
    (playerPos : gmap string Position) :
  gridSize = 0 ->
  place_player (S attempts) k pos playerPos = Panic "invalid argument to Intn".
Proof.
  intros Hzero. cbn [place_player]. unfold rand_Intn. rewrite Hzero.
  reflexivity.
Qed.

Lemma init_players_Ret (n : nat) (i : Z) (k : nat) (game : GameState) :
  1 <= gridSize -> 0 <= i -> i + Z.of_nat n <= 10 ->
  grid_ok gridSize (Grid game) ->
  exists game', init_players n i k game = Ret game'.
Proof.
  intros Hsize. revert i k game.
  induction n as [|n IH]; intros i k game Hi Hn Hgrid; cbn [init_players];
    [eauto|].
  destruct (slice_get_Ret PlayerIDs i) as (playerID & -> & _); [cbn; lia|].
  cbn [mbind Run_bind].
  destruct (place_player_Ret 1000 k {| Row := 0; Col := 0 |} (PlayerPos game) Hsize)
    as (pos & k' & Eplace).
  rewrite Eplace. cbn [mbind Run_bind fst snd].
  apply place_player_range in Eplace as [[Hz _]|[Hr Hc]]; [discriminate|].
  destruct (grid_set_Ret gridSize (Grid game) pos playerID Hgrid Hr Hc)
    as (grid & -> & Hgrid' & _).
  cbn [mbind Run_bind]. apply IH; [lia|lia|exact Hgrid'].
Qed.

(** X6: what [InitGame] does, by the flags.  A negative board size ends
    the program when the grid is allocated; more than ten players end it
    at the eleventh player identifier; a board of size 0 with a player
    to place ends it at the first random draw.  In every other case, a
    board of size 1 or more with at most ten players among them, the game
    is built. *)
Theorem InitGame_outcome :
  (gridSize < 0 ->
   InitGame = Panic "runtime error: makeslice: len out of range")
  /\ (0 <= gridSize -> 10 < numPlayers ->
      InitGame = Panic index_out_of_range)
  /\ (gridSize = 0 -> 1 <= numPlayers <= 10 ->
      InitGame = Panic "invalid argument to Intn")
  /\ (0 <= gridSize -> numPlayers <= 10 -> 1 <= gridSize \/ numPlayers <= 0 ->
      exists game, InitGame = Ret game).
Proof.
  unfold InitGame. split; [|split; [|split]].
  - intros Hneg. apply Z.ltb_lt in Hneg. rewrite Hneg. reflexivity.
  - intros Hsize Hmany. destruct (Z.ltb_spec gridSize 0) as [?|_]; [lia|].
    rewrite init_configs_Panic by lia. reflexivity.
  - intros Hzero Hn. rewrite Hzero. cbn [Z.ltb Z.compare].
    destruct (init_configs_Ret (Z.to_nat numPlayers) 0 ∅) as (configs & ->);
      [lia|lia|].
    cbn [mbind Run_bind].
    destruct (Z.to_nat numPlayers) as [|n] eqn:En; [lia|].
    cbn [init_players]. change (slice_get PlayerIDs 0) with (Ret (A := string) "1").
    cbn [mbind Run_bind PlayerPos].
    rewrite (place_player_no_board 999) by exact Hzero. reflexivity.
  - intros Hsize Hn Hcase. destruct (Z.ltb_spec gridSize 0) as [?|_]; [lia|].
    destruct (init_configs_Ret (Z.to_nat numPlayers) 0 ∅) as (configs & ->);
      [lia|lia|].
    cbn [mbind Run_bind]. destruct Hcase as [Hone|Hnone].
    + apply init_players_Ret; [exact Hone|lia|lia|]. cbn [Grid]. split.
      * apply length_replicate.
      * apply Forall_replicate, length_replicate.
    + replace (Z.to_nat numPlayers) with 0%nat by lia. cbn [init_players]. eauto.
Qed.

(** *** Starting cells *)

Lemma abs_small (x : Z) : - 2 ^ 63 < x < 2 ^ 63 -> abs x = Z.abs x.
Proof.
  intros Hx. unfold abs. destruct (Z.ltb_spec x 0) as [Hneg|Hpos].
  - rewrite wrap64_small by lia. lia.
  - lia.
Qed.

(** [tooClose] on cells whose coordinates are far from the ends of the
    [int] range: some player is at Manhattan distance less than 3. *)
Lemma tooClose_false (pos : Position) (playerPos : gmap string Position) :
  tooClose pos playerPos = false ->
  forall id q, playerPos !! id = Some q ->
    0 <= Row pos < 2 ^ 61 -> 0 <= Col pos < 2 ^ 61 ->
    0 <= Row q < 2 ^ 61 -> 0 <= Col q < 2 ^ 61 ->
    3 <= Z.abs (Row pos - Row q) + Z.abs (Col pos - Col q).
Proof.
  unfold tooClose. intros Hfar id q Hq Hpr Hpc Hqr Hqc.
  assert (Hin : In (id, q) (map_to_list playerPos)).
  { apply list_elem_of_In, elem_of_map_to_list. exact Hq. }
  destruct (existsb _ _) eqn:E; [discriminate|].
  rewrite <- not_true_iff_false in E. rewrite existsb_exists in E.
  destruct (Z_lt_le_dec (Z.abs (Row pos - Row q) + Z.abs (Col pos - Col q)) 3)
    as [Hlt|Hge]; [exfalso|exact Hge].
  apply E. exists (id, q). split; [exact Hin|]. cbn [snd].
  rewrite (wrap64_small (Row pos - Row q)), (wrap64_small (Col pos - Col q)) by lia.
  rewrite !abs_small by lia. rewrite wrap64_small by lia.
  apply Z.ltb_lt. exact Hlt.
Qed.

Lemma place_player_draws (attempts k : nat) (pos : Position)
    (playerPos : gmap string Position) (placed : Position) (k' : nat) :
  place_player attempts k pos playerPos = Ret (placed, k') ->
  (tooClose placed playerPos = false /\ (k' <= k + 2 * attempts)%nat)
  \/ k' = (k + 2 * attempts)%nat.
Proof.
  revert k pos. induction attempts as [|a IH]; intros k pos; cbn [place_player].
  - intros [= <- <-]. right. lia.
  - destruct (rand_Intn k gridSize) as [row|]; [|discriminate].
    cbn [mbind Run_bind].
    destruct (rand_Intn (S k) gridSize) as [col|]; [|discriminate].
    cbn [mbind Run_bind].
    destruct (tooClose {| Row := row; Col := col |} playerPos) eqn:E.
    + intros Hrec. apply IH in Hrec as [[Hfar Hk]|Hk]; [left|right].
      * split; [exact Hfar|lia].
      * lia.
    + intros [= <- <-]. left. split; [exact E|lia].
Qed.

(** X7: the search for a starting cell.  The cell returned is at
    Manhattan distance 3 or more from every player placed before, unless
    the search used up all of its attempts, two random draws each; then
    the last cell drawn is taken as it is. *)
Theorem place_player_separation (attempts k : nat) (pos : Position)
    (playerPos : gmap string Position) (placed : Position) (k' : nat) :
  place_player attempts k pos playerPos = Ret (placed, k') ->
  gridSize <= 2 ^ 61 ->
  (forall id q, playerPos !! id = Some q ->
     0 <= Row q < gridSize /\ 0 <= Col q < gridSize) ->
  (1 <= attempts)%nat ->
  (0 <= Row placed < gridSize /\ 0 <= Col placed < gridSize)
  /\ ((forall id q, playerPos !! id = Some q ->
         3 <= Z.abs (Row placed - Row q) + Z.abs (Col placed - Col q))
      \/ k' = (k + 2 * attempts)%nat).
Proof.
  intros Hrun Hsize Hheads Hattempts.
  pose proof (place_player_range _ _ _ _ _ _ Hrun) as [[Hz _]|Hrange]; [lia|].
  split; [exact Hrange|].
  destruct (place_player_draws _ _ _ _ _ _ Hrun) as [[Hfar _]|Hk];
    [left|right; exact Hk].
  intros id q Hq. destruct (Hheads id q Hq) as [Hqr Hqc].
  apply (tooClose_false placed playerPos Hfar id q Hq); lia.
Qed.

(** *** Player configurations *)

Lemma init_configs_lookup (n : nat) (i : Z)
    (configs configs' : gmap string PlayerConfig) :
  0 <= i -> i + Z.of_nat n <= 10 ->
  init_configs n i configs = Ret configs' ->
  (forall j, i <= j < i + Z.of_nat n ->
     configs' !! player_id j
     = Some {| ID := player_id j; Model := getPlayerModel j;
               Temperature := temperature |})
  /\ (forall j, 0 <= j < i -> configs' !! player_id j = configs !! player_id j).
Proof.
  revert i configs. induction n as [|n IH]; intros i configs Hi Hn;
    cbn [init_configs].
  - intros [= <-]. split; [intros j Hj; lia|reflexivity].
  - rewrite slice_get_player_id by lia. cbn [mbind Run_bind]. intros Hrec.
    destruct (IH (i + 1) _ ltac:(lia) ltac:(lia) Hrec) as [Hnew Hold].
    split.
    + intros j Hj. destruct (Z.eq_dec j i) as [->|Hne].
      * rewrite Hold by lia. apply lookup_insert_eq.
      * apply Hnew. lia.
    + intros j Hj. rewrite Hold by lia. apply lookup_insert_ne.
      intros E. apply player_id_inj in E; lia.
Qed.

Lemma init_configs_other (n : nat) (i : Z)
    (configs configs' : gmap string PlayerConfig) (id : string) :
  0 <= i -> i + Z.of_nat n <= 10 ->
  init_configs n i configs = Ret configs' ->
  id ∉ take n (drop (Z.to_nat i) PlayerIDs) ->
  configs' !! id = configs !! id.
Proof.
  revert i configs. induction n as [|n IH]; intros i configs Hi Hn;
    cbn [init_configs].
  - intros [= <-] _. reflexivity.
  - destruct (slice_get_Ret PlayerIDs i) as (playerID & -> & Hid); [cbn; lia|].
    cbn [mbind Run_bind]. intros Hrec Hout.
    rewrite (drop_S _ _ _ Hid) in Hout. cbn [take] in Hout.
    apply not_elem_of_cons in Hout as [Hne Hout].
    rewrite (IH (i + 1) _ ltac:(lia) ltac:(lia) Hrec).
    + apply lookup_insert_ne. congruence.
    + replace (Z.to_nat (i + 1)) with (S (Z.to_nat i)) by lia. exact Hout.
Qed.

Lemma getPlayerModel_spec (i : Z) :
  0 <= i ->
  getPlayerModel i
  = match playerModels !! Z.to_nat i with
    | Some m => if String.eqb m "" then modelName else m
    | None => modelName
    end.
Proof.
  intros Hi. unfold getPlayerModel.
  destruct (Z.ltb_spec i 0) as [?|_]; [lia|]. cbn [orb].
  destruct (playerModels !! Z.to_nat i) as [m|] eqn:E.
  - apply lookup_lt_Some in E.
    destruct (Z.geb_spec i (Z.of_nat (length playerModels))) as [?|_]; [lia|].
    destruct (String.eqb m ""); reflexivity.
  - destruct (i >=? Z.of_nat (length playerModels)); reflexivity.
Qed.

(** X8: the configurations [InitGame] stores.  Player number [i] gets
    its own identifier, the global temperature and, as model, the model
    given for that player when one is given and is not empty, the default
    model otherwise; a name that is no player of the game gets none. *)
Theorem InitGame_configs (game : GameState) :
  numPlayers <= 10 ->
  InitGame = Ret game ->
  (forall i, 0 <= i < numPlayers ->
     PlayerConfigs game !! player_id i
     = Some {| ID := player_id i;
               Model := match playerModels !! Z.to_nat i with
                        | Some m => if String.eqb m "" then modelName else m
                        | None => modelName
                        end;
               Temperature := temperature |})
  /\ (forall id, id ∉ player_ids game -> PlayerConfigs game !! id = None).
Proof.
  intros Hn. unfold InitGame.
  destruct (gridSize <? 0) eqn:Eneg; [discriminate|]. apply Z.ltb_ge in Eneg.
  destruct (init_configs (Z.to_nat numPlayers) 0 ∅) as [configs|] eqn:Ecfg;
    [|discriminate].
  cbn [mbind Run_bind]. intros Hrun.
  assert (Hten : 0 + Z.of_nat (Z.to_nat numPlayers) <= 10) by lia.
  apply (init_players_spec configs) in Hrun; [|lia|exact Hten|].
  - destruct Hrun as [Hsize Hnum Hgrid Hmoves Hcfg Hheads]. rewrite Hcfg.
    split.
    + intros i Hi.
      destruct (init_configs_lookup (Z.to_nat numPlayers) 0 ∅ configs
                  ltac:(lia) Hten Ecfg) as [Hnew _].
      rewrite Hnew by lia. rewrite getPlayerModel_spec by lia. reflexivity.
    + intros id Hout. unfold player_ids in Hout. rewrite Hnum in Hout.
      rewrite (init_configs_other (Z.to_nat numPlayers) 0 ∅ configs id
                 ltac:(lia) Hten Ecfg Hout).
      apply lookup_empty.
  - split; cbn [Size NumPlayers Grid Moves PlayerConfigs]; auto.
    + split.
      * apply length_replicate.
      * apply Forall_replicate, length_replicate.
    + intros id Hid. cbn in Hid. inversion Hid.
Qed.

End CreationOutcome.

(** ** The requests of one turn *)

Section Requests.

Context `{GoStrings} `{Environment}.

Lemma llm_attempts_calls (retries : nat) (history : list Call)
    (prompt : string) (config : PlayerConfig) (validMoves : list Direction) :
  exists answer made,
    llm_attempts retries history prompt (Some config) validMoves
    = Ret (answer, (made ++ history)%list)
    /\ (length made <= retries)%nat
    /\ Forall (fun call => call_config call = config) made
    /\ (forall dir, answer = inl dir -> In dir validMoves)
    /\ (answer = inr MaxRetriesExceeded -> length made = retries)
    /\ (forall err, answer = inr (CallFailed err) ->
          exists call earlier,
            made = call :: earlier
            /\ endpoint (earlier ++ history)%list call = Failure err).
Proof.
  revert history prompt.
  induction retries as [|retries IH]; intros history prompt.
  - exists (inr MaxRetriesExceeded), []. cbn [llm_attempts app length].
    repeat split; auto; try discriminate.
  - cbn [llm_attempts]. unfold CallLLM.
    set (call := {| call_prompt := prompt; call_config := config |}).
    destruct (endpoint history call) as [text|err] eqn:Ereply;
      cbn [mbind Run_bind].
    + destruct (ParseDirection (TrimSpace text) validMoves) as [dir|e] eqn:Eparse.
      * exists (inl dir), [call]. cbn [app length].
        split; [reflexivity|]. split; [lia|].
        split; [repeat constructor|]. split.
        { intros dir' [= <-]. eapply ParseDirection_legal, Eparse. }
        split; intros; discriminate.
      * destruct (IH (call :: history)
                     (prompt ++ retry_suffix (TrimSpace text) validMoves))
          as (answer & made & Hrun & Hlen & Hcfg & Hlegal & Hmax & Hfail).
        exists answer, (made ++ [call])%list.
        rewrite <- app_assoc. cbn [app]. split; [exact Hrun|].
        rewrite length_app. cbn [length]. split; [lia|]. split.
        { apply Forall_app. split; [exact Hcfg|repeat constructor]. }
        split; [exact Hlegal|]. split; [intros E; specialize (Hmax E); lia|].
        intros err E. destruct (Hfail err E) as (c & earlier & -> & Hc).
        exists c, (earlier ++ [call])%list. split; [reflexivity|].
        rewrite <- app_assoc. exact Hc.
    + exists (inr (CallFailed err)), [call]. cbn [app length].
      split; [reflexivity|]. split; [lia|]. split; [repeat constructor|].
      split; [discriminate|]. split; [discriminate|].
      intros err' [= <-]. exists call, []. split; [reflexivity|exact Ereply].
Qed.

(** X9: the requests of one turn.  For a player that has a
    configuration, [GetLLMMove] always returns; it sends at most
    [maxRetries] requests, each with that player's model and
    temperature; a direction it returns is one of the valid moves; it
    gives up with "max retries exceeded" only after exactly [maxRetries]
    requests, none at all when [maxRetries] is 0 or less; and it reports
    a failed request only for the last request it sent. *)
Theorem GetLLMMove_requests (history : list Call) (game : GameState)
    (player : string) (validMoves : list Direction) (config : PlayerConfig) :
  PlayerConfigs game !! player = Some config ->
  exists answer made,
    GetLLMMove history game player validMoves
    = Ret (answer, (made ++ history)%list)
    /\ Z.of_nat (length made) <= Z.max 0 maxRetries
    /\ Forall (fun call => call_config call = config) made
    /\ (forall dir, answer = inl dir -> In dir validMoves)
    /\ (answer = inr MaxRetriesExceeded
        -> Z.of_nat (length made) = Z.max 0 maxRetries)
    /\ (forall err, answer = inr (CallFailed err) ->
          exists call earlier,
            made = call :: earlier
            /\ endpoint (earlier ++ history)%list call = Failure err).
Proof.
  intros Hconfig. unfold GetLLMMove. rewrite Hconfig.
  destruct (llm_attempts_calls (Z.to_nat maxRetries) history
              (BuildPrompt game player validMoves) config validMoves)
    as (answer & made & Hrun & Hlen & Hcfg & Hlegal & Hmax & Hfail).
  exists answer, made. split; [exact Hrun|]. split; [lia|].
  split; [exact Hcfg|]. split; [exact Hlegal|].
  split; [intros E; specialize (Hmax E); lia|exact Hfail].
Qed.

(** X10: a request that fails is not repeated.  When the endpoint fails
    on the first request of a turn, [GetLLMMove] returns that failure
    after this one request, whatever [maxRetries] allows. *)
Theorem GetLLMMove_failure_is_final (history : list Call) (game : GameState)
    (player : string) (validMoves : list Direction) (config : PlayerConfig)
    (err : string) :
  let first := {| call_prompt := BuildPrompt game player validMoves;
                  call_config := config |} in
  PlayerConfigs game !! player = Some config ->
  1 <= maxRetries ->
  endpoint history first = Failure err ->
  GetLLMMove history game player validMoves
  = Ret (inr (CallFailed err), first :: history).
Proof.
  intros first Hconfig Hretries Hreply. unfold GetLLMMove. rewrite Hconfig.
  destruct (Z.to_nat maxRetries) as [|n] eqn:En; [lia|].
  cbn [llm_attempts]. unfold CallLLM. fold first. rewrite Hreply.
  reflexivity.
Qed.

(** X11: a player without a configuration.  The configuration is read
    through a pointer that is nil for a missing key: with a request to
    send, the program ends on the nil dereference; with [maxRetries] 0 or
    less no request is built and the turn ends with "max retries
    exceeded". *)
Theorem GetLLMMove_without_config (history : list Call) (game : GameState)
    (player : string) (validMoves : list Direction) :
  PlayerConfigs game !! player = None ->
  (1 <= maxRetries ->
   GetLLMMove history game player validMoves = Panic nil_dereference)
  /\ (maxRetries <= 0 ->
      GetLLMMove history game player validMoves
      = Ret (inr MaxRetriesExceeded, history)).
Proof.
  intros Hnone. unfold GetLLMMove. rewrite Hnone. split; intros Hretries.
  - destruct (Z.to_nat maxRetries) as [|n] eqn:En; [lia|]. reflexivity.
  - replace (Z.to_nat maxRetries) with 0%nat by lia. reflexivity.
Qed.

End Requests.

(** ** Direction words through the parser *)

Lemma string_app_nil_r (s : string) : s ++ "" = s.
Proof.
  induction s as [|c s IH]; [reflexivity|].
  change (String c (s ++ "") = String c s). f_equal. exact IH.
Qed.

Lemma first_standalone_leading (d : Direction) (post : string) :
  is_word (first_char post) = false ->
  first_standalone (dir_name d ++ post) d.
Proof.
  intros Hpost. exists 0%nat. split; [|intros j d' Hj; lia].
  exists "", post. repeat split; auto.
Qed.

(** A response that, lower-cased and trimmed, starts with a direction
    word standing alone is read as that direction. *)
Lemma ParseDirection_leading_word `{GoStrings} (response post : string)
    (d : Direction) (validMoves : list Direction) :
  ToLower (TrimSpace response) = dir_name d ++ post ->
  is_word (first_char post) = false ->
  ParseDirection response validMoves
  = if bool_decide (d ∈ validMoves) then inl d else inr (NotValid d).
Proof.
  intros Htext Hpost.
  pose proof (first_standalone_leading d post Hpost) as Hfirst.
  pose proof (ParseDirection_cases response validMoves) as Hcases.
  cbv zeta in Hcases. rewrite Htext in Hcases.
  destruct (ParseDirection response validMoves) as [dir|err].
  - destruct Hcases as [Hin Hwhy].
    assert (dir = d) as ->.
    { destruct Hwhy as [Heq|[_ Hdir]].
      - symmetry. apply (dir_name_prefix_inj d dir post "").
        rewrite Heq. symmetry. apply string_app_nil_r.
      - exact (first_standalone_unique _ _ _ Hdir Hfirst). }
    rewrite bool_decide_eq_true_2; [reflexivity|].
    apply list_elem_of_In. exact Hin.
  - destruct Hcases as (_ & Hnone & Herr).
    rewrite bool_decide_eq_false_2.
    + destruct err as [dir|].
      * rewrite (first_standalone_unique _ _ _ Herr Hfirst). reflexivity.
      * exfalso. destruct Hfirst as (i & Hi & _). exact (Herr i d Hi).
    + intros Hin. apply (Hnone d Hfirst). apply list_elem_of_In. exact Hin.
Qed.

(** X12: a direction word parses back to its direction.  The name of a
    direction is accepted as that direction when it is a valid move and
    is refused, with that direction named in the error, when it is not. *)
Theorem ParseDirection_dir_name (d : Direction) (validMoves : list Direction) :
  ParseDirection (H := ascii_strings) (dir_name d) validMoves
  = if bool_decide (d ∈ validMoves) then inl d else inr (NotValid d).
Proof.
  apply (ParseDirection_leading_word (H := ascii_strings) _ "").
  - destruct d; reflexivity.
  - reflexivity.
Qed.

Lemma formatValidMoves_cons (d : Direction) (rest : list Direction) :
  formatValidMoves (d :: rest)
  = dir_name d ++ match rest with
                  | [] => ""
                  | _ => ", " ++ formatValidMoves rest
                  end.
Proof.
  destruct rest as [|e rest]; [|reflexivity].
  cbn. symmetry. apply string_app_nil_r.
Qed.

Lemma ascii_ToLower_app (a b : string) :
  ascii_ToLower (a ++ b) = ascii_ToLower a ++ ascii_ToLower b.
Proof.
  induction a as [|c a IH]; [reflexivity|].
  change (String (ascii_lower c) (ascii_ToLower (a ++ b))
          = String (ascii_lower c) (ascii_ToLower a ++ ascii_ToLower b)).
  f_equal. exact IH.
Qed.

Lemma ascii_ToLower_formatValidMoves (moves : list Direction) :
  ascii_ToLower (formatValidMoves moves) = formatValidMoves moves.
Proof.
  induction moves as [|d rest IH]; [reflexivity|].
  rewrite formatValidMoves_cons, ascii_ToLower_app.
  f_equal; [destruct d; reflexivity|].
  destruct rest as [|e rest]; [reflexivity|].
  rewrite ascii_ToLower_app, IH. reflexivity.
Qed.

Lemma append_not_nil_r (a b : string) : b <> "" -> a ++ b <> "".
Proof. destruct a; cbn; [auto|discriminate]. Qed.

Lemma trim_right_app (a b : string) :
  trim_right b <> "" -> trim_right (a ++ b) = a ++ trim_right b.
Proof.
  intros Hb. induction a as [|c a IH]; [reflexivity|].
  change (trim_right (String c (a ++ b)) = String c (a ++ trim_right b)).
  cbn [trim_right]. rewrite IH.
  destruct (a ++ trim_right b) eqn:E; [|reflexivity].
  exfalso. revert E. apply append_not_nil_r, Hb.
Qed.

Lemma formatValidMoves_not_nil (d : Direction) (rest : list Direction) :
  formatValidMoves (d :: rest) <> "".
Proof. rewrite formatValidMoves_cons. destruct d; discriminate. Qed.

Lemma trim_right_formatValidMoves (moves : list Direction) :
  trim_right (formatValidMoves moves) = formatValidMoves moves.
Proof.
  induction moves as [|d rest IH]; [reflexivity|].
  rewrite formatValidMoves_cons. destruct rest as [|e rest].
  - destruct d; reflexivity.
  - assert (Hrest : trim_right (", " ++ formatValidMoves (e :: rest))
                    = ", " ++ formatValidMoves (e :: rest)).
    { rewrite trim_right_app; rewrite IH;
        [reflexivity|apply formatValidMoves_not_nil]. }
    rewrite trim_right_app; rewrite Hrest; [reflexivity|].
    apply append_not_nil_r, formatValidMoves_not_nil.
Qed.

Lemma ascii_TrimSpace_formatValidMoves (moves : list Direction) :
  ascii_TrimSpace (formatValidMoves moves) = formatValidMoves moves.
Proof.
  unfold ascii_TrimSpace.
  assert (Hleft : trim_left (formatValidMoves moves) = formatValidMoves moves).
  { destruct moves as [|d rest]; [reflexivity|].
    rewrite formatValidMoves_cons. destruct d; reflexivity. }
  rewrite Hleft. apply trim_right_formatValidMoves.
Qed.

(** X13: the list of valid responses through the parser.  A response
    that repeats the list of valid moves as the prompt prints it
    ("up, left") is accepted, as the first move of the list. *)
Theorem ParseDirection_formatValidMoves (d : Direction) (rest : list Direction) :
  ParseDirection (H := ascii_strings) (formatValidMoves (d :: rest)) (d :: rest)
  = inl d.
Proof.
  rewrite (ParseDirection_leading_word (H := ascii_strings) _
             (match rest with [] => "" | _ => ", " ++ formatValidMoves rest end)
             d).
  - rewrite bool_decide_eq_true_2; [reflexivity|]. apply elem_of_cons. auto.
  - cbn [ToLower TrimSpace ascii_strings].
    rewrite ascii_TrimSpace_formatValidMoves, ascii_ToLower_formatValidMoves.
    apply formatValidMoves_cons.
  - destruct rest; reflexivity.
Qed.

(** ** What a game can return *)

Section Outcome.

Context `{GoStrings} `{Environment}.

Lemma length_player_ids (game : GameState) :
  0 <= NumPlayers game <= 10 ->
  length (player_ids game) = Z.to_nat (NumPlayers game).
Proof.
  intros Hn. unfold player_ids. rewrite length_take. cbn [length PlayerIDs]. lia.
Qed.

(** Somebody is always left in the game. *)
Lemma reachable_active (st : LoopState) :
  reachable st -> (1 <= length (active_players (game_of st)))%nat.
Proof.
  induction 1 as [game calls Hn Hinit|st next Hreach IH Hround].
  - assert (Hn1 : 1 <= numPlayers <= 10) by lia.
    destruct (InitGame_ok game Hn1 Hinit) as (_ & _ & Hnum & _ & Hall).
    cbn [start_of game_of]. rewrite Hall, length_player_ids; lia.
  - destruct (round_progress st (reachable_ok st Hreach)) as (step & Hstep & Hpass).
    rewrite Hround in Hstep. injection Hstep as <-.
    exact (proj1 (proj2 (proj2 Hpass))).
Qed.

Lemma round_returns (st : LoopState) (result : string) (final : LoopState) :
  reachable st ->
  round st = Ret (Return result final) ->
  (result = "error" /\ (2 <= length (active_players (game_of st)))%nat)
  \/ (active_players (game_of st) = [result] /\ game_of final = game_of st).
Proof.
  intros Hreach Hround.
  pose proof (reachable_ok st Hreach) as Hok.
  pose proof (reachable_active st Hreach) as Hone.
  destruct (le_lt_dec (length (active_players (game_of st))) 1) as [Hfew|Hmany].
  - right. destruct (round_finished st Hok Hfew) as (index & Hfin).
    rewrite Hround in Hfin. injection Hfin as -> ->.
    destruct (active_players (game_of st)) as [|w [|w' rest]] eqn:E;
      cbn [length] in *; try lia.
    split; reflexivity.
  - left. split; [|lia].
    destruct (round_turn st Hok Hmany)
      as (index & player & _ & _ & _ & _ & Hnone & Hsome).
    destruct (GetValidMoves (game_of st) player) as [|d moves] eqn:Emoves.
    + rewrite (Hnone eq_refl) in Hround. discriminate.
    + destruct Hsome as (answer & made & _ & Hcase); [discriminate|].
      destruct answer as [direction|err].
      * destruct Hcase as (_ & game' & _ & Hcont).
        rewrite Hcont in Hround. discriminate.
      * rewrite Hcase in Hround. injection Hround as <- _. reflexivity.
Qed.

Lemma play_rounds_reaches (n : nat) (st : LoopState) (result : string)
    (final : LoopState) :
  reachable st ->
  play_rounds n st = Ret (Some (result, final)) ->
  exists last, reachable last /\ round last = Ret (Return result final).
Proof.
  revert st. induction n as [|n IH]; intros st Hreach; cbn [play_rounds];
    [discriminate|].
  destruct (round st) as [[result' final'|next]|] eqn:Eround;
    cbn [mbind Run_bind]; [| |discriminate].
  - intros [= <- <-]. exists st. auto.
  - intros Hrest. apply (IH next); [|exact Hrest].
    exact (reachable_round st next Hreach Eround).
Qed.

End Outcome.

(** X14: a game never ends in a draw.  In every state of the loop of
    [PlayGame] at least one player is active, so the branch that returns
    the empty string is never taken: the value returned is "error", after
    a failed turn of the Oracle, or the one player still active. *)
Theorem PlayGame_never_draws (S : GoStrings) (E : Environment)
    (game : GameState) (calls : list Call) (result : string)
    (final : LoopState) :
  2 <= numPlayers <= 10 ->
  InitGame = Ret game ->
  PlayGame calls = Ret (Some (result, final)) ->
  (forall st, reachable st ->
     (1 <= length (active_players (game_of st)))%nat
     /\ forall final', round st <> Ret (Return "" final'))
  /\ result <> ""
  /\ (result = "error"
      \/ (result ∈ player_ids (game_of final)
          /\ active_players (game_of final) = [result])).
Proof.
  intros Hn Hinit Hplay.
  assert (Hstates : forall st, reachable st ->
            (1 <= length (active_players (game_of st)))%nat
            /\ forall final', round st <> Ret (Return "" final')).
  { intros st Hreach. split; [exact (reachable_active st Hreach)|].
    intros final' Hround.
    destruct (round_returns st "" final' Hreach Hround) as [[? _]|[Hone _]];
      [discriminate|].
    assert (Hin : "" ∈ active_players (game_of st))
      by (rewrite Hone; apply elem_of_cons; auto).
    apply elem_of_active_players in Hin as [Hin _].
    pose proof (reachable_ok st Hreach) as [[Hp _ _ _] _].
    apply elem_of_player_ids in Hin as (i & Hi & Hid); [|lia].
    assert (Hcases : i = 0 \/ i = 1 \/ i = 2 \/ i = 3 \/ i = 4 \/ i = 5
                     \/ i = 6 \/ i = 7 \/ i = 8 \/ i = 9) by lia.
    repeat (destruct Hcases as [->|Hcases]; [discriminate|]).
    subst i. discriminate. }
  split; [exact Hstates|].
  unfold PlayGame in Hplay. rewrite Hinit in Hplay. cbn [mbind Run_bind] in Hplay.
  destruct (play_rounds_reaches _ _ _ _ (reachable_start game calls Hn Hinit) Hplay)
    as (last & Hreach & Hround).
  split.
  { intros ->. exact (proj2 (Hstates last Hreach) final Hround). }
  destruct (round_returns last result final Hreach Hround)
    as [[Herr _]|[Hone Hgame]]; [left; exact Herr|right].
  rewrite Hgame. split; [|exact Hone].
  assert (Hin : result ∈ active_players (game_of last))
    by (rewrite Hone; apply elem_of_cons; auto).
  apply elem_of_active_players in Hin as [Hin _]. exact Hin.
Qed.

(** ** What the loop counts and sends *)

Section Counting.

Context `{GoStrings} `{Environment}.

(** The two ways a pass goes on: an elimination or a move. *)
Lemma round_continues (st next : LoopState) :
  loop_ok st ->
  round st = Ret (Continue next) ->
  exists player,
    turn_of st = Ret player
    /\ player ∈ active_players (game_of st)
    /\ moveCount next = moveCount st + 1
    /\ ((GetValidMoves (game_of st) player = []
         /\ game_of next = set_active (game_of st) player false
         /\ calls_of next = calls_of st)
        \/ (exists direction made,
              direction ∈ GetValidMoves (game_of st) player
              /\ GetLLMMove (calls_of st) (game_of st) player
                            (GetValidMoves (game_of st) player)
                 = Ret (inl direction, (made ++ calls_of st)%list)
              /\ MakeMove (game_of st) player direction = Ret (game_of next)
              /\ calls_of next = (made ++ calls_of st)%list)).
Proof.
  intros Hok Hround.
  destruct (le_lt_dec (length (active_players (game_of st))) 1) as [Hfew|Hmany].
  { destruct (round_finished st Hok Hfew) as (index & Hfin).
    rewrite Hround in Hfin. discriminate. }
  destruct (round_turn st Hok Hmany)
    as (index & player & Hturn & _ & _ & Hactive & Hnone & Hsome).
  exists player. split; [exact Hturn|]. split; [exact Hactive|].
  destruct (GetValidMoves (game_of st) player) as [|d moves] eqn:Emoves.
  - rewrite (Hnone eq_refl) in Hround. injection Hround as <-.
    cbn [moveCount game_of calls_of]. split; [reflexivity|]. left. auto.
  - destruct Hsome as (answer & made & Hcalls & Hcase); [discriminate|].
    destruct answer as [direction|err].
    + destruct Hcase as (Hdir & game' & Hmove & Hcont).
      rewrite Hcont in Hround. injection Hround as <-.
      cbn [moveCount game_of calls_of]. split; [reflexivity|]. right.
      exists direction, made. auto.
    + rewrite Hcase in Hround. discriminate.
Qed.

Lemma active_players_same (game game' : GameState) :
  NumPlayers game' = NumPlayers game ->
  ActivePlayers game' = ActivePlayers game ->
  active_players game' = active_players game.
Proof.
  intros Hn Ha. unfold active_players, player_ids. rewrite Hn, Ha. reflexivity.
Qed.

End Counting.

(** X15: what the move counter counts.  In every state of the loop of
    [PlayGame] the counter printed as "Move n" is the number of moves in
    the log plus the number of players eliminated so far: a pass that
    eliminates a player is counted like a pass that moves one. *)
Theorem moveCount_counts_passes (S : GoStrings) (E : Environment)
    (st : LoopState) :
  reachable st ->
  moveCount st
  = Z.of_nat (length (Moves (game_of st)))
    + (NumPlayers (game_of st)
       - Z.of_nat (length (active_players (game_of st)))).
Proof.
  induction 1 as [game calls Hn Hinit|st next Hreach IH Hround].
  - assert (Hn1 : 1 <= numPlayers <= 10) by lia.
    destruct (InitGame_ok game Hn1 Hinit) as (_ & _ & Hnum & Hmoves & Hall).
    cbn [start_of game_of moveCount].
    rewrite Hmoves, Hall, length_player_ids by lia. cbn [length]. lia.
  - pose proof (reachable_ok st Hreach) as Hok.
    destruct (round_continues st next Hok Hround)
      as (player & _ & Hactive & Hcount & Hcase).
    rewrite Hcount, IH.
    destruct Hcase as [(_ & -> & _)|(direction & made & Hdir & _ & Hmove & _)].
    + rewrite (length_active_players_eliminate _ _ Hactive).
      cbn [set_active Moves NumPlayers]. lia.
    + destruct Hok as [Hgame _].
      apply elem_of_active_players in Hactive as [Hplayer _].
      destruct (MakeMove_legal _ _ _ Hgame Hplayer Hdir)
        as (game' & Hmove' & _ & _ & Hnum & Hact & Hlog & _).
      assert (game' = game_of next) as -> by congruence.
      rewrite (active_players_same _ _ Hnum Hact), Hlog, Hnum, length_app.
      cbn [length]. lia.
Qed.

(** X16: the requests of a pass.  Whatever a pass of the loop does, the
    requests it sends are added to the history and none is taken away;
    they are at most [maxRetries], and each carries the configuration,
    model and temperature, of the player whose turn it is. *)
Theorem round_requests (S : GoStrings) (E : Environment)
    (st : LoopState) (step : Step) :
  reachable st ->
  round st = Ret step ->
  exists made,
    calls_of (state_of step) = (made ++ calls_of st)%list
    /\ Z.of_nat (length made) <= Z.max 0 maxRetries
    /\ forall player config,
         turn_of st = Ret player ->
         PlayerConfigs (game_of st) !! player = Some config ->
         Forall (fun call => call_config call = config) made.
Proof.
  intros Hreach Hround.
  pose proof (reachable_ok st Hreach) as Hok.
  destruct (le_lt_dec (length (active_players (game_of st))) 1) as [Hfew|Hmany].
  { destruct (round_finished st Hok Hfew) as (index & Hfin).
    rewrite Hround in Hfin. injection Hfin as ->.
    exists []. cbn [state_of calls_of app length]. split; [reflexivity|].
    split; [lia|]. intros. constructor. }
  destruct (round_turn st Hok Hmany)
    as (index & player & Hturn & _ & _ & Hactive & Hnone & Hsome).
  destruct (GetValidMoves (game_of st) player) as [|d moves] eqn:Emoves.
  { rewrite (Hnone eq_refl) in Hround. injection Hround as <-.
    exists []. cbn [state_of calls_of app length]. split; [reflexivity|].
    split; [lia|]. intros. constructor. }
  destruct Hsome as (answer & made & Hcalls & Hcase); [discriminate|].
  exists made.
  assert (Hstep : calls_of (state_of step) = (made ++ calls_of st)%list).
  { destruct answer as [direction|err].
    - destruct Hcase as (_ & game' & _ & Hcont).
      rewrite Hcont in Hround. injection Hround as <-. reflexivity.
    - rewrite Hcase in Hround. injection Hround as <-. reflexivity. }
  split; [exact Hstep|].
  destruct Hok as [[_ _ _ Hconfigs] _].
  apply elem_of_active_players in Hactive as [Hplayer _].
  destruct (Hconfigs player Hplayer) as [config Hconfig].
  unfold GetLLMMove in Hcalls. rewrite Hconfig in Hcalls.
  destruct (llm_attempts_calls (Z.to_nat maxRetries) (calls_of st)
              (BuildPrompt (game_of st) player (d :: moves)) config (d :: moves))
    as (answer' & made' & Hrun & Hlen & Hcfg & _).
  rewrite Hrun in Hcalls. injection Hcalls as _ Happ.
  apply app_inv_tail in Happ. subst made'.
  split; [lia|].
  intros player' config' Hturn' Hconfig'.
  rewrite Hturn in Hturn'. injection Hturn' as <-.
  rewrite Hconfig in Hconfig'. injection Hconfig' as <-. exact Hcfg.
Qed.

(** ** The visited map in play *)

Section VisitedMap.

Context `{GoStrings} `{Environment}.

Lemma visited_ok_insert (game game' : GameState) (pos : Position) :
  Size game' = Size game ->
  Visited game' = <[pos := true]> (Visited game) ->
  in_bounds game pos ->
  visited_ok game -> visited_ok game'.
Proof.
  intros Hsize Hvis Hpos Hok p b. unfold in_bounds. rewrite Hvis, Hsize.
  destruct (decide (pos = p)) as [->|Hne].
  - rewrite lookup_insert_eq. intros [= <-]. split; [reflexivity|exact Hpos].
  - rewrite lookup_insert_ne by exact Hne. apply Hok.
Qed.

Lemma init_players_visited (n : nat) (i : Z) (k : nat) (game game' : GameState) :
  Size game = gridSize ->
  visited_ok game ->
  init_players n i k game = Ret game' ->
  visited_ok game'.
Proof.
  revert i k game. induction n as [|n IH]; intros i k game Hsize Hok;
    cbn [init_players].
  - intros [= <-]. exact Hok.
  - destruct (slice_get PlayerIDs i) as [playerID|]; [|discriminate].
    cbn [mbind Run_bind].
    destruct (place_player 1000 k {| Row := 0; Col := 0 |} (PlayerPos game))
      as [[pos k']|] eqn:Eplace; [|discriminate].
    cbn [mbind Run_bind fst snd].
    apply place_player_range in Eplace as [[Hz _]|Hrange]; [discriminate|].
    destruct (grid_set (Grid game) pos playerID) as [grid|]; [|discriminate].
    cbn [mbind Run_bind]. apply IH; [exact Hsize|].
    eapply (visited_ok_insert game _ pos); [reflexivity|reflexivity| |exact Hok].
    unfold in_bounds. rewrite Hsize. exact Hrange.
Qed.

Lemma InitGame_visited (game : GameState) :
  InitGame = Ret game -> visited_ok game.
Proof.
  unfold InitGame. destruct (gridSize <? 0); [discriminate|].
  destruct (init_configs (Z.to_nat numPlayers) 0 ∅) as [configs|];
    [|discriminate].
  cbn [mbind Run_bind]. apply init_players_visited; [reflexivity|].
  intros p b Hp. cbn [Visited] in Hp. rewrite lookup_empty in Hp. discriminate.
Qed.

Lemma reachable_visited (st : LoopState) :
  reachable st -> visited_ok (game_of st).
Proof.
  induction 1 as [game calls Hn Hinit|st next Hreach IH Hround].
  - exact (InitGame_visited game Hinit).
  - pose proof (reachable_ok st Hreach) as Hok.
    destruct (round_continues st next Hok Hround)
      as (player & _ & Hactive & _ & Hcase).
    destruct Hcase as [(_ & -> & _)|(direction & made & Hdir & _ & Hmove & _)].
    + exact IH.
    + destruct Hok as [Hgame _].
      apply elem_of_active_players in Hactive as [Hplayer _].
      destruct (MakeMove_legal _ _ _ Hgame Hplayer Hdir)
        as (game' & Hmove' & _ & Hsize & _ & _ & _ & _ & Hvis & _).
      assert (game' = game_of next) as -> by congruence.
      apply elem_of_GetValidMoves, IsValidMove_true in Hdir as [Hnew _].
      exact (visited_ok_insert _ _ _ Hsize Hvis Hnew IH).
Qed.

Lemma visited_ok_at (game : GameState) (p : Position) :
  visited_ok game ->
  (is_Some (Visited game !! p) <-> visited_at (Visited game) p = true).
Proof.
  intros Hok. unfold visited_at. split.
  - intros [b Hb]. rewrite Hb. cbn. exact (proj1 (Hok p b Hb)).
  - destruct (Visited game !! p) as [b|]; [eauto|discriminate].
Qed.

End VisitedMap.

(** X17: the board a move is evaluated on.  In every state of a game in
    play the visited map holds only cells of the board, each marked
    true; so the copy [simulateMove] makes, which marks every key of the
    map, blocks exactly the visited cells and the landing cell, and a
    cell is legal on the copy when it is legal in the game and is not
    the landing cell. *)
Theorem simulateMove_in_play (S : GoStrings) (E : Environment)
    (st : LoopState) (to : Position) :
  reachable st ->
  let game := game_of st in
  (forall p, visited_at (Visited game) p = true -> in_bounds game p)
  /\ (forall p, visited_at (Visited (simulateMove game to)) p = true
                <-> p = to \/ visited_at (Visited game) p = true)
  /\ (forall q, IsValidMove (simulateMove game to) q = true
                <-> IsValidMove game q = true /\ q <> to).
Proof.
  intros Hreach game.
  pose proof (reachable_visited st Hreach) as Hok. fold game in Hok.
  assert (Hsim : forall p, visited_at (Visited (simulateMove game to)) p = true
                           <-> p = to \/ visited_at (Visited game) p = true).
  { intros p. rewrite visited_at_simulateMove, (visited_ok_at game p Hok).
    reflexivity. }
  split; [|split; [exact Hsim|]].
  - intros p Hp. apply (visited_ok_at game p Hok) in Hp as [b Hb].
    exact (proj2 (Hok p b Hb)).
  - intros q. rewrite !IsValidMove_true. unfold in_bounds.
    cbn [simulateMove Size].
    change (<[to:=true]> ((fun _ : bool => true) <$> Visited game))
      with (Visited (simulateMove game to)).
    destruct (visited_at (Visited (simulateMove game to)) q) eqn:Es.
    + apply Hsim in Es. split; [intros [_ ?]; discriminate|].
      intros [[_ Hfree] Hne]. destruct Es as [->|Hv]; [contradiction|congruence].
    + split; [|intros [[Hb _] _]; auto].
      intros [Hb _]. rewrite <- not_true_iff_false, Hsim in Es.
      split; [split; [exact Hb|]|].
      * destruct (visited_at (Visited game) q); [exfalso; auto|reflexivity].
      * intros ->. auto.
Qed.

(** ** The fields of an evaluation *)

Lemma four_neighbours_back (pos : Position) (d : Direction) :
  int64_range (Row pos) -> int64_range (Col pos) ->
  In pos (four_neighbours (getNewPosition pos d)).
Proof.
  intros Hr Hc. rewrite four_neighbours_map. apply in_map_iff.
  exists (opposite d). split; [apply getNewPosition_back; assumption|].
  destruct d; cbn; auto.
Qed.

Lemma ImmediateMoves_range (game : GameState) (currentPos : Position)
    (dir : Direction) :
  0 <= ImmediateMoves (evaluateMove game currentPos dir) <= 4.
Proof.
  destruct (evaluateMove_fields game currentPos dir) as (_ & -> & _).
  rewrite countAvailableMoves_length.
  pose proof (List.filter_length_le
                (IsValidMove (simulateMove game (getNewPosition currentPos dir)))
                (four_neighbours (getNewPosition currentPos dir))) as Hle.
  cbn [four_neighbours length] in Hle. lia.
Qed.

(** X18: no way back.  When a move is evaluated from a cell that is in
    the visited map, as the cell of a player always is, the cell left is
    blocked on the simulated board: the evaluation counts at most three
    immediate moves, so that the tier "EXCELLENT" stands for exactly
    three immediate moves and a territory of 20 cells or more. *)
Theorem ImmediateMoves_at_most_three (game : GameState) (currentPos : Position)
    (dir : Direction) :
  let eval := evaluateMove game currentPos dir in
  visited_at (Visited game) currentPos = true ->
  int64_range (Row currentPos) -> int64_range (Col currentPos) ->
  0 <= ImmediateMoves eval <= 3
  /\ (SafetyLevel eval = "EXCELLENT"
      <-> ImmediateMoves eval = 3 /\ 20 <= ReachableTerritory eval).
Proof.
  intros eval Hvisited Hr Hc.
  assert (Hrange : 0 <= ImmediateMoves eval <= 3).
  { pose proof (ImmediateMoves_range game currentPos dir) as [Hlow _].
    split; [exact Hlow|]. unfold eval.
    destruct (evaluateMove_fields game currentPos dir) as (_ & -> & _).
    rewrite countAvailableMoves_length.
    set (newPos := getNewPosition currentPos dir).
    assert (Hblocked : IsValidMove (simulateMove game newPos) currentPos = false).
    { apply not_true_iff_false. rewrite IsValidMove_true. intros [_ Hfree].
      assert (Hsim : visited_at (Visited (simulateMove game newPos)) currentPos
                     = true).
      { apply visited_at_simulateMove. right. unfold visited_at in Hvisited.
        destruct (Visited game !! currentPos); [eauto|discriminate]. }
      congruence. }
    pose proof (filter_length_lt _ _ _
                  (four_neighbours_back currentPos dir Hr Hc) Hblocked) as Hlt.
    fold newPos in Hlt. cbn [four_neighbours length] in Hlt. lia. }
  split; [exact Hrange|].
  change (SafetyLevel eval) with (determineSafetyLevel eval).
  unfold determineSafetyLevel.
  set (im := ImmediateMoves eval) in *. set (t := ReachableTerritory eval).
  destruct (Z.eqb_spec im 0), (Z.geb_spec t 20), (Z.geb_spec im 3),
    (Z.geb_spec t 12), (Z.geb_spec im 2), (Z.geb_spec t 6),
    (Z.eqb_spec im 1), (Z.ltb_spec t 5); cbn [andb orb];
    split; intros Hx; first [discriminate Hx | reflexivity | lia].
Qed.

(** X19: the safety tiers of an evaluated move, one by one.  With [im]
    the immediate moves and [t] the reachable territory of the
    evaluation: "DEATH TRAP" is [im = 0]; "EXCELLENT" is [t >= 20] with
    [im >= 3]; "GOOD" is [t >= 12] with [im >= 2], short of excellent;
    "MODERATE" is [6 <= t < 12] with [im >= 2]; "RISKY" is [im = 1], or
    [im >= 2] with [t < 5]; and "DANGEROUS" is left with one case only,
    [t = 5] with [im >= 2]. *)
Theorem SafetyLevel_table (game : GameState) (currentPos : Position)
    (dir : Direction) :
  let eval := evaluateMove game currentPos dir in
  let im := ImmediateMoves eval in
  let t := ReachableTerritory eval in
  (SafetyLevel eval = "DEATH TRAP" <-> im = 0)
  /\ (SafetyLevel eval = "EXCELLENT" <-> 20 <= t /\ 3 <= im)
  /\ (SafetyLevel eval = "GOOD"
      <-> 12 <= t /\ 2 <= im /\ ~ (20 <= t /\ 3 <= im))
  /\ (SafetyLevel eval = "MODERATE" <-> 6 <= t < 12 /\ 2 <= im)
  /\ (SafetyLevel eval = "RISKY" <-> im = 1 \/ (2 <= im /\ t < 5))
  /\ (SafetyLevel eval = "DANGEROUS" <-> t = 5 /\ 2 <= im).
Proof.
  intros eval im t.
  pose proof (ImmediateMoves_range game currentPos dir) as Hrange.
  fold eval in Hrange. fold im in Hrange.
  change (SafetyLevel eval) with (determineSafetyLevel eval).
  unfold determineSafetyLevel. fold im. fold t.
  destruct (Z.eqb_spec im 0), (Z.geb_spec t 20), (Z.geb_spec im 3),
    (Z.geb_spec t 12), (Z.geb_spec im 2), (Z.geb_spec t 6),
    (Z.eqb_spec im 1), (Z.ltb_spec t 5); cbn [andb orb];
    (split; [|split; [|split; [|split; [|split]]]]);
    (split; intros Hx; first [discriminate Hx | reflexivity | lia]).
Qed.

Lemma elem_of_free_cells (game : GameState) (q : Position) :
  IsValidMove game q = true -> q ∈ free_cells game.
Proof.
  intros Hq. apply list_elem_of_In. unfold free_cells. apply filter_In.
  split.
  - apply list_elem_of_In, IsValidMove_board_cells, Hq.
  - apply IsValidMove_true in Hq as [_ ->]. reflexivity.
Qed.

(** X20: the territory of a legal move is made of free cells.  It is
    at least the immediate moves plus the landing cell and at most the
    number of cells of the board that nobody has entered. *)
Theorem ReachableTerritory_free_cells (game : GameState)
    (currentPos : Position) (dir : Direction) :
  let eval := evaluateMove game currentPos dir in
  IsValidMove game (getNewPosition currentPos dir) = true ->
  ImmediateMoves eval + 1 <= ReachableTerritory eval
  /\ ReachableTerritory eval <= Z.of_nat (length (free_cells game)).
Proof.
  intros eval Hlegal. split.
  - unfold eval.
    destruct (evaluateMove_fields game currentPos dir) as (_ & -> & ->).
    apply countReachableTerritory_neighbours.
  - destruct (ReachableTerritory_count game currentPos dir)
      as (component & Hnd & _ & _ & Hmembers & Hcount).
    unfold eval. rewrite Hcount. apply Nat2Z.inj_le, submseteq_length.
    apply NoDup_submseteq; [exact Hnd|].
    intros q Hq. apply elem_of_free_cells.
    destruct (Hmembers q Hq) as [->|[Hvalid _]]; [exact Hlegal|].
    exact (IsValidMove_simulateMove _ _ _ Hvalid).
Qed.

(** ** Blocked moves *)

Lemma blocked_step_lookup (game : GameState) (player : string)
    (validMoves : list Direction) (blocked : gmap Direction string)
    (dir d : Direction) :
  (if bool_decide (dir ∈ validMoves) then blocked
   else
     let newPos := getNewPosition (getPlayerPos game player) dir in
     if (Row newPos <? 0) || (Row newPos >=? Size game)
        || (Col newPos <? 0) || (Col newPos >=? Size game)
     then <[dir := "out of bounds"]> blocked
     else if visited_at (Visited game) newPos
          then <[dir := "already visited"]> blocked
          else blocked) !! d
  = if decide (dir = d)
    then if bool_decide (dir ∈ validMoves) then blocked !! d
         else match blocked_reason game player dir with
              | Some reason => Some reason
              | None => blocked !! d
              end
    else blocked !! d.
Proof.
  unfold blocked_reason. cbv zeta.
  destruct (bool_decide (dir ∈ validMoves));
    [destruct (decide (dir = d)); reflexivity|].
  destruct ((Row _ <? 0) || _ || _ || _);
    [|destruct (visited_at _ _)];
    destruct (decide (dir = d)) as [->|Hne];
    rewrite ?lookup_insert_eq, ?lookup_insert_ne by exact Hne; reflexivity.
Qed.

(** The entry of one direction, whatever list of valid moves is passed. *)
Lemma getBlockedMoves_lookup (game : GameState) (player : string)
    (validMoves : list Direction) (d : Direction) :
  getBlockedMoves game player validMoves !! d
  = if bool_decide (d ∈ validMoves) then None
    else blocked_reason game player d.
Proof.
  unfold getBlockedMoves. cbn [fold_left]. cbv zeta.
  rewrite !blocked_step_lookup, lookup_empty.
  destruct d; cbn [decide decide_rel Direction_eq_dec];
    repeat match goal with
      | |- context [decide (?a = ?b)] => destruct (decide (a = b)); try congruence
      end;
    destruct (bool_decide (_ ∈ validMoves)); try reflexivity;
    destruct (blocked_reason game player _); reflexivity.
Qed.

(** The bounds test of [getBlockedMoves] fails exactly on the board. *)
Lemma off_board_false (game : GameState) (pos : Position) :
  (Row pos <? 0) || (Row pos >=? Size game)
  || (Col pos <? 0) || (Col pos >=? Size game) = false
  <-> in_bounds game pos.
Proof.
  unfold in_bounds.
  destruct (Z.ltb_spec (Row pos) 0), (Z.geb_spec (Row pos) (Size game)),
    (Z.ltb_spec (Col pos) 0), (Z.geb_spec (Col pos) (Size game));
    cbn [orb]; split; intros; try discriminate; try reflexivity; lia.
Qed.

(** X21: the blocked moves of the prompt.  With the valid moves of the
    player, as the prompt passes them, every direction is either a valid
    move, and then has no entry, or is blocked with the reason that
    applies: "out of bounds" when its cell is off the board, "already
    visited" when its cell is on the board and visited.  A direction left
    out of the list although its cell is legal gets no entry either. *)
Theorem getBlockedMoves_reasons (game : GameState) (player : string)
    (d : Direction) :
  let newPos := getNewPosition (getPlayerPos game player) d in
  let blocked := getBlockedMoves game player (GetValidMoves game player) in
  (d ∈ GetValidMoves game player <-> blocked !! d = None)
  /\ (blocked !! d = Some "out of bounds" <-> ~ in_bounds game newPos)
  /\ (blocked !! d = Some "already visited"
      <-> in_bounds game newPos /\ visited_at (Visited game) newPos = true)
  /\ (forall validMoves,
        IsValidMove game newPos = true ->
        getBlockedMoves game player validMoves !! d = None).
Proof.
  intros newPos blocked.
  assert (Hreason : blocked_reason game player d
                    = if (Row newPos <? 0) || (Row newPos >=? Size game)
                         || (Col newPos <? 0) || (Col newPos >=? Size game)
                      then Some "out of bounds"
                      else if visited_at (Visited game) newPos
                           then Some "already visited" else None)
    by reflexivity.
  assert (Hvalid : d ∈ GetValidMoves game player
                   <-> in_bounds game newPos
                       /\ visited_at (Visited game) newPos = false).
  { rewrite elem_of_GetValidMoves. apply IsValidMove_true. }
  split; [|split; [|split]].
  - unfold blocked. rewrite getBlockedMoves_lookup.
    destruct (bool_decide_reflect (d ∈ GetValidMoves game player)) as [Hin|Hout].
    + split; auto.
    + split; [contradiction|]. intros Hnone. exfalso. apply Hout, Hvalid.
      rewrite Hreason in Hnone.
      destruct ((Row newPos <? 0) || _ || _ || _) eqn:Eb; [discriminate|].
      destruct (visited_at (Visited game) newPos); [discriminate|].
      split; [apply off_board_false; exact Eb|reflexivity].
  - unfold blocked. rewrite getBlockedMoves_lookup, Hreason.
    destruct (bool_decide_reflect (d ∈ GetValidMoves game player)) as [Hin|Hout].
    + apply Hvalid in Hin as [Hb _]. split; [discriminate|contradiction].
    + destruct ((Row newPos <? 0) || _ || _ || _) eqn:Eb.
      * split; [|reflexivity]. intros _ Hb. apply off_board_false in Hb. congruence.
      * apply off_board_false in Eb.
        destruct (visited_at (Visited game) newPos);
          (split; [discriminate|contradiction]).
  - unfold blocked. rewrite getBlockedMoves_lookup, Hreason.
    destruct (bool_decide_reflect (d ∈ GetValidMoves game player)) as [Hin|Hout].
    + apply Hvalid in Hin as [Hb Hv]. split; [discriminate|].
      intros [_ Hv']. congruence.
    + destruct ((Row newPos <? 0) || _ || _ || _) eqn:Eb.
      * split; [discriminate|]. intros [Hb _]. apply off_board_false in Hb. congruence.
      * apply off_board_false in Eb.
        destruct (visited_at (Visited game) newPos) eqn:Ev.
        -- split; auto.
        -- split; [discriminate|]. intros [_ ?]. discriminate.
  - intros validMoves Hlegal. rewrite getBlockedMoves_lookup, Hreason.
    apply IsValidMove_true in Hlegal as [Hb Hv].
    apply off_board_false in Hb. rewrite Hb, Hv.
    destruct (bool_decide (d ∈ validMoves)); reflexivity.
Qed.

(** ** The ranking of the prompt *)

Lemma SFltb_trans (a b c : spec_float) :
  SFltb a b = true -> SFltb b c = true -> SFltb a c = true.
Proof.
  unfold SFltb.
  destruct a as [[]|[]| |[] m1 e1], b as [[]|[]| |[] m2 e2],
    c as [[]|[]| |[] m3 e3]; cbn [SFcompare]; try discriminate;
    try reflexivity;
    change (Pos.compare_cont Eq m1 m2) with (Pos.compare m1 m2);
    change (Pos.compare_cont Eq m2 m3) with (Pos.compare m2 m3);
    change (Pos.compare_cont Eq m1 m3) with (Pos.compare m1 m3);
    destruct (Z.compare_spec e1 e2), (Z.compare_spec e2 e3),
      (Z.compare_spec e1 e3); try discriminate; try reflexivity; try lia;
    destruct (Pos.compare_spec m1 m2), (Pos.compare_spec m2 m3),
      (Pos.compare_spec m1 m3); cbn [CompOpp]; try discriminate;
    try reflexivity; lia.
Qed.

Lemma SFltb_asym (a b : spec_float) : SFltb a b = true -> SFltb b a = false.
Proof.
  unfold SFltb. rewrite (SFcompare_antisym a b).
  destruct (SFcompare a b) as [[]|]; cbn; congruence.
Qed.

Lemma float_ltb_trans (a b c : float) :
  (a <? b)%float = true -> (b <? c)%float = true -> (a <? c)%float = true.
Proof. rewrite !ltb_spec. apply SFltb_trans. Qed.

Lemma float_ltb_asym (a b : float) :
  (a <? b)%float = true -> (b <? a)%float = false.
Proof. rewrite !ltb_spec. apply SFltb_asym. Qed.

(** Overwriting an element by another one, with the old one put in
    front, permutes. *)
Lemma insert_Permutation {A : Type} (l : list A) (j : nat) (a b : A) :
  l !! j = Some b -> b :: <[j := a]> l ≡ₚ a :: l.
Proof.
  revert j. induction l as [|x l IH]; intros [|j] Hj; try discriminate.
  - cbn in Hj. injection Hj as ->. apply Permutation_swap.
  - cbn in Hj. cbn [insert list_insert].
    change (list_insert j a l) with (<[j := a]> l).
    etransitivity; [apply Permutation_swap|].
    etransitivity; [apply Permutation_skip, (IH j Hj)|].
    apply Permutation_swap.
Qed.

(** Exchanging two elements of a slice permutes it. *)
Lemma swap_Permutation {A : Type} (l : list A) (i j : nat) (a b : A) :
  l !! i = Some a -> l !! j = Some b ->
  <[j := a]> (<[i := b]> l) ≡ₚ l.
Proof.
  revert i j. induction l as [|x l IH]; intros [|i] [|j] Hi Hj;
    try discriminate; cbn in Hi, Hj.
  - injection Hi as ->. injection Hj as ->. reflexivity.
  - injection Hi as ->. cbn [insert list_insert].
    change (list_insert j a l) with (<[j := a]> l).
    apply insert_Permutation. exact Hj.
  - injection Hj as ->. cbn [insert list_insert].
    change (list_insert i b l) with (<[i := b]> l).
    symmetry. rewrite <- (insert_Permutation l i b a Hi). reflexivity.
  - cbn [insert list_insert]. apply Permutation_skip.
    exact (IH i j Hi Hj).
Qed.

(** One inner loop brings an evaluation no later one beats to [i]. *)
Lemma rank_inner_spec (n i j : nat) (evaluations : list MoveEvaluation) :
  (i < j)%nat ->
  (j + n = length evaluations)%nat ->
  (forall k a b, (i < k < j)%nat ->
     evaluations !! i = Some a -> evaluations !! k = Some b ->
     (TotalScore a <? TotalScore b)%float = false) ->
  exists ranked,
    rank_inner n (Z.of_nat i) (Z.of_nat j) evaluations = Ret ranked
    /\ ranked ≡ₚ evaluations
    /\ (forall p, (p < i)%nat -> ranked !! p = evaluations !! p)
    /\ (forall q b, (i <= q)%nat -> ranked !! q = Some b ->
          exists q', (i <= q')%nat /\ evaluations !! q' = Some b)
    /\ (forall k a b, (i < k)%nat ->
          ranked !! i = Some a -> ranked !! k = Some b ->
          (TotalScore a <? TotalScore b)%float = false).
Proof.
  revert j evaluations.
  induction n as [|n IH]; intros j evaluations Hij Hlen Hseen;
    cbn [rank_inner].
  - exists evaluations. split; [reflexivity|]. split; [reflexivity|].
    split; [reflexivity|]. split; [intros q b Hq Hb; exists q; auto|].
    intros k a b Hk Ha Hb. apply (Hseen k a b); [|exact Ha|exact Hb].
    apply lookup_lt_Some in Hb. lia.
  - destruct (slice_get_Ret evaluations (Z.of_nat j)) as (ej & -> & Hej);
      [lia|].
    destruct (slice_get_Ret evaluations (Z.of_nat i)) as (ei & -> & Hei);
      [lia|].
    rewrite Nat2Z.id in Hej, Hei. cbn [mbind Run_bind].
    replace (Z.of_nat j + 1) with (Z.of_nat (S j)) by lia.
    destruct (TotalScore ei <? TotalScore ej)%float eqn:Ecmp.
    + rewrite slice_set_Ret by lia. cbn [mbind Run_bind].
      rewrite slice_set_Ret by (rewrite length_insert; lia).
      cbn [mbind Run_bind]. rewrite !Nat2Z.id.
      set (swapped := <[j := ei]> (<[i := ej]> evaluations)).
      assert (Hi' : swapped !! i = Some ej).
      { unfold swapped. rewrite list_lookup_insert_ne by lia.
        apply list_lookup_insert_eq. apply lookup_lt_Some in Hei. exact Hei. }
      assert (Hj' : swapped !! j = Some ei).
      { unfold swapped. apply list_lookup_insert_eq. rewrite length_insert.
        apply lookup_lt_Some in Hej. exact Hej. }
      assert (Hother : forall k, k <> i -> k <> j ->
                         swapped !! k = evaluations !! k).
      { intros k Hki Hkj. unfold swapped.
        rewrite !list_lookup_insert_ne by lia. reflexivity. }
      destruct (IH (S j) swapped) as (ranked & Hrun & Hperm & Hpre & Hmem & Htop).
      * lia.
      * unfold swapped. rewrite !length_insert. lia.
      * intros k a b Hk Ha Hb. rewrite Hi' in Ha. injection Ha as <-.
        destruct (decide (k = j)) as [->|Hkj].
        -- rewrite Hj' in Hb. injection Hb as <-.
           apply float_ltb_asym. exact Ecmp.
        -- rewrite Hother in Hb by lia.
           destruct (TotalScore ej <? TotalScore b)%float eqn:Eb;
             [|reflexivity].
           rewrite <- (Hseen k ei b); [|lia|exact Hei|exact Hb].
           symmetry. exact (float_ltb_trans _ _ _ Ecmp Eb).
      * exists ranked. split; [exact Hrun|]. split.
        { rewrite Hperm. unfold swapped.
          apply swap_Permutation; [exact Hei|exact Hej]. }
        split.
        { intros p Hp. rewrite Hpre by exact Hp. apply Hother; lia. }
        split; [|exact Htop].
        intros q b Hq Hb. destruct (Hmem q b Hq Hb) as (q' & Hq' & Hb').
        destruct (decide (q' = i)) as [->|Hqi].
        { rewrite Hi' in Hb'. injection Hb' as <-. exists j. split; [lia|exact Hej]. }
        destruct (decide (q' = j)) as [->|Hqj].
        { rewrite Hj' in Hb'. injection Hb' as <-. exists i. split; [lia|exact Hei]. }
        rewrite Hother in Hb' by assumption. exists q'. auto.
    + cbn [mbind Run_bind].
      apply (IH (S j) evaluations); [lia|lia|].
      intros k a b Hk Ha Hb.
      destruct (decide (k = j)) as [->|Hkj].
      * rewrite Hei in Ha. injection Ha as <-.
        rewrite Hej in Hb. injection Hb as <-. exact Ecmp.
      * apply (Hseen k a b); [lia|exact Ha|exact Hb].
Qed.

(** The outer loop sorts what is left of the slice. *)
Lemma rank_outer_spec (n i : nat) (evaluations : list MoveEvaluation) :
  n = (length evaluations - 1 - i)%nat ->
  (forall p q a b, (p < i)%nat -> (p < q)%nat ->
     evaluations !! p = Some a -> evaluations !! q = Some b ->
     (TotalScore a <? TotalScore b)%float = false) ->
  exists ranked,
    rank_outer n (Z.of_nat i) evaluations = Ret ranked
    /\ ranked ≡ₚ evaluations
    /\ (forall p q a b, (p < q)%nat ->
          ranked !! p = Some a -> ranked !! q = Some b ->
          (TotalScore a <? TotalScore b)%float = false).
Proof.
  revert i evaluations.
  induction n as [|n IH]; intros i evaluations Hn Hsorted; cbn [rank_outer].
  - exists evaluations. split; [reflexivity|]. split; [reflexivity|].
    intros p q a b Hpq Ha Hb. apply (Hsorted p q a b); auto.
    apply lookup_lt_Some in Hb. lia.
  - replace (Z.to_nat (Z.of_nat (length evaluations) - (Z.of_nat i + 1)))
      with (S n) by lia.
    replace (Z.of_nat i + 1) with (Z.of_nat (S i)) by lia.
    destruct (rank_inner_spec (S n) i (S i) evaluations)
      as (pass & -> & Hperm & Hpre & Hmem & Htop); [lia|lia|intros; lia|].
    cbn [mbind Run_bind].
    assert (Hlen : length pass = length evaluations)
      by (rewrite Hperm; reflexivity).
    destruct (IH (S i) pass) as (ranked & Hrun & Hperm' & Hall).
    + lia.
    + intros p q a b Hp Hpq Ha Hb.
      destruct (decide (p = i)) as [->|Hpi].
      * apply (Htop q a b); [lia|exact Ha|exact Hb].
      * rewrite Hpre in Ha by lia.
        destruct (decide (q < i)%nat) as [Hq|Hq].
        -- rewrite Hpre in Hb by lia.
           apply (Hsorted p q a b); [lia|lia|exact Ha|exact Hb].
        -- destruct (Hmem q b ltac:(lia) Hb) as (q' & Hq' & Hb').
           apply (Hsorted p q' a b); [lia|lia|exact Ha|exact Hb'].
    + exists ranked. split; [exact Hrun|].
      split; [rewrite Hperm'; exact Hperm|exact Hall].
Qed.

(** X22: the ranking of the prompt.  The sort of [BuildPrompt] never
    indexes out of range; what it displays is a rearrangement of the
    evaluations of the valid moves, one for each, and no evaluation is
    displayed after one with a strictly smaller total score. *)
Theorem rank_evaluations_sorted (game : GameState) (player : string)
    (validMoves : list Direction) :
  exists ranked,
    rank_evaluations game player validMoves = Ret ranked
    /\ ranked ≡ₚ map (evaluateMove game (getPlayerPos game player)) validMoves
    /\ length ranked = length validMoves
    /\ (forall p q a b, (p < q)%nat ->
          ranked !! p = Some a -> ranked !! q = Some b ->
          (TotalScore a <? TotalScore b)%float = false).
Proof.
  unfold rank_evaluations. cbv zeta.
  set (evaluations := map _ validMoves).
  destruct (rank_outer_spec (length evaluations - 1) 0 evaluations)
    as (ranked & Hrun & Hperm & Hall); [lia|intros; lia|].
  exists ranked.
  replace (Z.to_nat (Z.of_nat (length evaluations) - 1))
    with (length evaluations - 1)%nat by lia.
  split; [exact Hrun|]. split; [exact Hperm|]. split; [|exact Hall].
  rewrite Hperm. unfold evaluations. apply length_map.
Qed.

(** ** Heads *)

(** X23: in a game in play a legal move never lands on the head of a
    player, active or eliminated: the cell of every head is visited. *)
Theorem legal_move_avoids_heads (S : GoStrings) (E : Environment)
    (st : LoopState) (player other : string) (d : Direction) :
  reachable st ->
  d ∈ GetValidMoves (game_of st) player ->
  other ∈ player_ids (game_of st) ->
  getNewPosition (getPlayerPos (game_of st) player) d
  <> getPlayerPos (game_of st) other.
Proof.
  intros Hreach Hd Hother Heq.
  destruct (reachable_ok st Hreach) as [Hgame _].
  destruct (ok_heads _ Hgame other Hother) as [_ Hvisited].
  apply elem_of_GetValidMoves, IsValidMove_true in Hd as [_ Hfree].
  rewrite Heq in Hfree. congruence.
Qed.

(** ** The order of the turns *)

(** The scan stops at the first active slot, [j] slots after [index]. *)
Lemma next_active_order (game : GameState) (attempts : nat) (index : Z) :
  1 <= NumPlayers game <= 10 ->
  0 <= index < NumPlayers game ->
  exists j,
    0 <= j <= Z.of_nat attempts
    /\ next_active attempts game index
       = Ret ((index + j) mod NumPlayers game)
    /\ (forall j', 0 <= j' < j ->
          active_at (ActivePlayers game)
                    (player_id ((index + j') mod NumPlayers game)) = false)
    /\ (j < Z.of_nat attempts ->
        active_at (ActivePlayers game)
                  (player_id ((index + j) mod NumPlayers game)) = true).
Proof.
  intros Hn. revert index.
  induction attempts as [|k IH]; intros index Hi; cbn [next_active].
  - exists 0. rewrite Z.add_0_r, Z.mod_small by lia.
    split; [lia|]. split; [reflexivity|]. split; intros; lia.
  - rewrite slice_get_player_id by lia. cbn [mbind Run_bind].
    destruct (active_at (ActivePlayers game) (player_id index)) eqn:Hact.
    + exists 0. rewrite Z.add_0_r, Z.mod_small by lia.
      split; [lia|]. split; [reflexivity|]. split; [intros; lia|].
      intros _. exact Hact.
    + destruct (NumPlayers game =? 0) eqn:E0; [apply Z.eqb_eq in E0; lia|].
      rewrite Z.rem_mod_nonneg by lia.
      destruct (IH ((index + 1) mod NumPlayers game))
        as (j & Hj & Hrun & Hbefore & Hat).
      { apply Z.mod_pos_bound. lia. }
      rewrite Zplus_mod_idemp_l in Hrun, Hat.
      exists (j + 1).
      replace (index + (j + 1)) with (index + 1 + j) by lia.
      split; [lia|]. split; [exact Hrun|]. split.
      * intros j' Hj'. destruct (Z.eq_dec j' 0) as [->|Hj0].
        -- rewrite Z.add_0_r, Z.mod_small by lia. exact Hact.
        -- specialize (Hbefore (j' - 1) ltac:(lia)).
           rewrite Zplus_mod_idemp_l in Hbefore.
           replace (index + 1 + (j' - 1)) with (index + j') in Hbefore by lia.
           exact Hbefore.
      * intros Hlt. apply Hat. lia.
Qed.

(** X24: the order of the turns.  While a player is active, the scan for
    the next player returns the first active player from the current
    index on, going round the table in the order of the identifiers: no
    active player is passed over, and an eliminated one is never
    returned. *)
Theorem next_active_first_active (game : GameState) (index : Z) :
  1 <= NumPlayers game <= 10 ->
  0 <= index < NumPlayers game ->
  active_players game <> [] ->
  exists j,
    0 <= j < NumPlayers game
    /\ next_active (Z.to_nat (NumPlayers game)) game index
       = Ret ((index + j) mod NumPlayers game)
    /\ player_id ((index + j) mod NumPlayers game) ∈ active_players game
    /\ (forall j', 0 <= j' < j ->
          player_id ((index + j') mod NumPlayers game) ∉ active_players game).
Proof.
  intros Hn Hi Hsome.
  destruct (next_active_order game (Z.to_nat (NumPlayers game)) index Hn Hi)
    as (j & Hj & Hrun & Hbefore & Hat).
  assert (Hslot : forall k, 0 <= (index + k) mod NumPlayers game
                            < NumPlayers game)
    by (intros k; apply Z.mod_pos_bound; lia).
  assert (Hlt : j < NumPlayers game).
  { destruct (Z_lt_dec j (NumPlayers game)) as [|Hge]; [assumption|].
    exfalso. apply Hsome. apply elem_of_nil_inv. intros id Hid.
    apply elem_of_active_players in Hid as [Hid Hact].
    apply elem_of_player_ids in Hid as (i & Hi' & ->); [|lia].
    specialize (Hbefore ((i - index) mod NumPlayers game)).
    rewrite Zplus_mod_idemp_r in Hbefore.
    replace (index + (i - index)) with i in Hbefore by lia.
    rewrite (Z.mod_small i) in Hbefore by lia.
    rewrite Hbefore in Hact; [discriminate|].
    pose proof (Z.mod_pos_bound (i - index) (NumPlayers game)). lia. }
  exists j. split; [lia|]. split; [exact Hrun|]. split.
  - apply elem_of_active_players. split.
    + apply player_id_elem_of; [lia|apply Hslot].
    + apply Hat. lia.
  - intros j' Hj' Hin. apply elem_of_active_players in Hin as [_ Hact].
    rewrite Hbefore in Hact by exact Hj'. discriminate.
Qed.

(** * The properties on concrete games *)

(** The opening of the 3 x 3 game: player 1, in the corner (0,0), may go
    down or right; after the move right, up is off the board and left is
    visited. *)
Example GetValidMoves_demo : GetValidMoves demo_game "1" = [Down; Right].
Proof. reflexivity. Qed.

Example MakeMove_demo : MakeMove demo_game "1" Right = Ret moved_game.
Proof. vm_compute. reflexivity. Qed.

Example getBlockedMoves_moved :
  getBlockedMoves moved_game "1" (GetValidMoves moved_game "1")
  = {[ Up := "out of bounds"; Left := "already visited" ]}.
Proof. vm_compute. reflexivity. Qed.

Example InitGame_demo : @InitGame demo_env = Ret demo_game.
Proof. vm_compute. reflexivity. Qed.

Example evaluateMove_demo :
  evaluateMove demo_game (mkPosition 0 0) Right = demo_eval.
Proof. vm_compute. reflexivity. Qed.

Lemma grid_ok_demo : grid_ok 3 (Grid moved_game).
Proof. split; [reflexivity | repeat constructor]. Qed.

(** On the fresh 3 x 3 game two players are active and player 1 is to
    move. *)
Lemma elimination_iff_no_valid_move_demo :
  @reachable ascii_strings demo_env (start_of demo_game [])
  /\ (2 <= length (active_players (game_of (start_of demo_game []))))%nat
  /\ exists currentPlayer step,
       turn_of (start_of demo_game []) = Ret currentPlayer
       /\ @round ascii_strings demo_env (start_of demo_game []) = Ret step
       /\ (active_at (ActivePlayers (game_of (state_of step))) currentPlayer = false
           <-> GetValidMoves demo_game currentPlayer = []).
Proof.
  assert (Hreach : @reachable ascii_strings demo_env (start_of demo_game [])).
  { apply reachable_start; [cbn; lia | vm_compute; reflexivity]. }
  assert (Hmany : (2 <= length (active_players (game_of (start_of demo_game []))))%nat).
  { vm_compute. lia. }
  split; [exact Hreach|]. split; [exact Hmany|].
  destruct (elimination_iff_no_valid_move ascii_strings demo_env
              (start_of demo_game []) Hreach Hmany)
    as (currentPlayer & step & Hturn & Hround & _ & Hiff & _).
  exists currentPlayer, step. auto.
Defined.

(** On the 1 x 1 board player 1 is eliminated at once and player 2 is the
    lone survivor. *)
Lemma lone_survivor_wins_tiny :
  @reachable ascii_strings tiny_env tiny_after_elimination
  /\ active_players (game_of tiny_after_elimination) = ["2"]
  /\ exists final,
       @round ascii_strings tiny_env tiny_after_elimination
       = Ret (Return "2" final)
       /\ game_of final = game_of tiny_after_elimination
       /\ calls_of final = [].
Proof.
  assert (Hreach : @reachable ascii_strings tiny_env tiny_after_elimination).
  { apply (reachable_round (start_of tiny_game [])).
    - apply reachable_start; [cbn; lia | vm_compute; reflexivity].
    - vm_compute. reflexivity. }
  assert (Hone : active_players (game_of tiny_after_elimination) = ["2"]).
  { vm_compute. reflexivity. }
  split; [exact Hreach|]. split; [exact Hone|].
  destruct (lone_survivor_wins ascii_strings tiny_env tiny_after_elimination "2"
              Hreach Hone)
    as (final & Hround & _ & Hgame & Hcalls & _).
  exists final. auto.
Defined.

(** The game on the 1 x 1 board returns within 1 * 1 * 2 passes. *)
Lemma PlayGame_terminates_tiny :
  2 <= @numPlayers tiny_env <= 10
  /\ @InitGame tiny_env = Ret tiny_game
  /\ exists result final,
       @play_rounds ascii_strings tiny_env
         (Z.to_nat (Size tiny_game * Size tiny_game * NumPlayers tiny_game))
         (start_of tiny_game [])
       = Ret (Some (result, final)).
Proof.
  assert (Hn : 2 <= @numPlayers tiny_env <= 10) by (cbn; lia).
  assert (Hinit : @InitGame tiny_env = Ret tiny_game)
    by (vm_compute; reflexivity).
  split; [exact Hn|]. split; [exact Hinit|].
  destruct (proj1 (PlayGame_terminates ascii_strings tiny_env tiny_game []
                     Hn Hinit)) as (result & final & Hrun & _).
  exists result, final. exact Hrun.
Defined.


(** Player 2 of [demo_game], with up and left legal, is answered
    "up-left": one request, accepted as up. *)
Lemma up_left_is_accepted_demo :
  In Up [Up; Left]
  /\ PlayerConfigs demo_game !! "2" = Some (demo_config "2")
  /\ 1 <= @maxRetries demo_env
  /\ @endpoint demo_env []
       {| call_prompt := @BuildPrompt demo_env demo_game "2" [Up; Left];
          call_config := demo_config "2" |}
     = Response "up-left"
  /\ @ParseDirection ascii_strings "up-left" [Up; Left] = inl Up
  /\ @GetLLMMove ascii_strings demo_env [] demo_game "2" [Up; Left]
     = Ret (inl Up,
            [ {| call_prompt := @BuildPrompt demo_env demo_game "2" [Up; Left];
                 call_config := demo_config "2" |} ]).
Proof.
  assert (Hup : In Up [Up; Left]) by (left; reflexivity).
  assert (Hconfig : PlayerConfigs demo_game !! "2" = Some (demo_config "2"))
    by (vm_compute; reflexivity).
  assert (Hretries : 1 <= @maxRetries demo_env) by (cbn; lia).
  assert (Hreply : @endpoint demo_env []
            {| call_prompt := @BuildPrompt demo_env demo_game "2" [Up; Left];
               call_config := demo_config "2" |}
          = Response "up-left") by reflexivity.
  split; [exact Hup|]. split; [exact Hconfig|]. split; [exact Hretries|].
  split; [exact Hreply|].
  destruct (up_left_is_accepted demo_env [] demo_game "2" [Up; Left]
              (demo_config "2") Hup Hconfig Hretries Hreply)
    as (Hparse & Hmove & _).
  split; [exact Hparse | exact Hmove].
Defined.

(** Player 1 of [moved_game] sent back left, onto the visited cell (0,0):
    the move is executed all the same. *)
Lemma MakeMove_trusts_caller_demo :
  grid_ok (Size moved_game) (Grid moved_game)
  /\ NumPlayers moved_game <= 10
  /\ in_bounds moved_game (getPlayerPos moved_game "1")
  /\ IsValidMove moved_game
       (getNewPosition (getPlayerPos moved_game "1") Left) = false
  /\ exists game',
       MakeMove moved_game "1" Left = Ret game'
       /\ PlayerPos game'
          = <["1" := getNewPosition (getPlayerPos moved_game "1") Left]>
              (PlayerPos moved_game)
       /\ cell_at (Grid game')
            (getNewPosition (getPlayerPos moved_game "1") Left) = Some "1".
Proof.
  assert (Hgrid : grid_ok (Size moved_game) (Grid moved_game))
    by exact grid_ok_demo.
  assert (Hn : NumPlayers moved_game <= 10) by (cbn; lia).
  assert (Hold : in_bounds moved_game (getPlayerPos moved_game "1"))
    by (vm_compute; repeat split; discriminate).
  assert (Hillegal : IsValidMove moved_game
            (getNewPosition (getPlayerPos moved_game "1") Left) = false)
    by reflexivity.
  assert (Hin : in_bounds moved_game
            (getNewPosition (getPlayerPos moved_game "1") Left))
    by (vm_compute; repeat split; discriminate).
  split; [exact Hgrid|]. split; [exact Hn|]. split; [exact Hold|].
  split; [exact Hillegal|].
  destruct (proj1 (MakeMove_trusts_caller moved_game "1" Left
                     Hgrid Hn Hold Hillegal) Hin)
    as (_ & game' & Hrun & Hpos & _ & Hhead & _).
  exists game'. auto.
Defined.

(** C8, against the claim: "up-left" with up and left legal is not
    rejected; it parses as up and [GetLLMMove] returns after the one
    request, without a retry. *)
Lemma up_left_not_rejected :
  @ParseDirection ascii_strings "up-left" [Up; Left] = inl Up
  /\ @GetLLMMove ascii_strings demo_env [] demo_game "2" [Up; Left]
     = Ret (inl Up,
            [ {| call_prompt := "You are playing a Snakes game as Player 2";
                 call_config := demo_config "2" |} ]).
Proof. split; vm_compute; reflexivity. Qed.

(** C9, against the claim: a move onto a visited cell of the board is not
    refused; it returns normally with the board, the player's position
    and the move log changed. *)
Lemma MakeMove_onto_visited_cell :
  IsValidMove moved_game (getNewPosition (getPlayerPos moved_game "1") Left)
  = false
  /\ match MakeMove moved_game "1" Left with
     | Ret game' =>
         Grid game' <> Grid moved_game
         /\ getPlayerPos game' "1" <> getPlayerPos moved_game "1"
         /\ Moves game' <> Moves moved_game
     | Panic _ => False
     end.
Proof.
  split; [reflexivity|]. vm_compute.
  repeat split; intros Heq; discriminate Heq.
Qed.

(** C5, against the code: the centre distance is not measured from the
    centre of the board.  On the fresh 3 x 3 game the move of player 1
    to (0,1) and the move of player 2 to (2,1) are mirror images through
    the centre cell (1,1): each lands at squared distance 1 from it, and
    they agree in immediate moves, territory and depth mobility.
    [evaluateMove] measures from (1.5, 1.5): it stores 2.5 for the first
    and 0.5 for the second, and gives the second the higher score; the
    centre cell itself gets 0.5, like the edge cell (2,1). *)
Lemma DistanceFromCenter_off_center :
  GetValidMoves demo_game "1" = [Down; Right]
  /\ GetValidMoves demo_game "2" = [Up; Left]
  /\ NewPos (evaluateMove demo_game (getPlayerPos demo_game "1") Right)
     = mkPosition 0 1
  /\ NewPos (evaluateMove demo_game (getPlayerPos demo_game "2") Left)
     = mkPosition 2 1
  /\ squared_distance (float64_of_int 0) (float64_of_int 1)
       (geometric_center (Size demo_game)) (geometric_center (Size demo_game))
     = 1%float
  /\ squared_distance (float64_of_int 2) (float64_of_int 1)
       (geometric_center (Size demo_game)) (geometric_center (Size demo_game))
     = 1%float
  /\ DistanceFromCenter
       (evaluateMove demo_game (getPlayerPos demo_game "1") Right)
     = 2.5%float
  /\ DistanceFromCenter
       (evaluateMove demo_game (getPlayerPos demo_game "2") Left)
     = 0.5%float
  /\ ImmediateMoves (evaluateMove demo_game (getPlayerPos demo_game "1") Right)
     = ImmediateMoves (evaluateMove demo_game (getPlayerPos demo_game "2") Left)
  /\ ReachableTerritory
       (evaluateMove demo_game (getPlayerPos demo_game "1") Right)
     = ReachableTerritory
         (evaluateMove demo_game (getPlayerPos demo_game "2") Left)
  /\ AvgDepthMobility
       (evaluateMove demo_game (getPlayerPos demo_game "1") Right)
     = AvgDepthMobility
         (evaluateMove demo_game (getPlayerPos demo_game "2") Left)
  /\ (TotalScore (evaluateMove demo_game (getPlayerPos demo_game "1") Right)
        <? TotalScore
             (evaluateMove demo_game (getPlayerPos demo_game "2") Left))%float
     = true
  /\ NewPos (evaluateMove moved_game (getPlayerPos moved_game "1") Down)
     = mkPosition 1 1
  /\ DistanceFromCenter
       (evaluateMove moved_game (getPlayerPos moved_game "1") Down)
     = 0.5%float.
Proof.
  repeat (split; [vm_compute; reflexivity|]). vm_compute. reflexivity.
Qed.

(** On [demo_eval], one more immediate move, one more reachable cell or
    a larger average depth mobility does not lower the score. *)
Lemma calculateMoveScore_weighted_demo :
  (calculateMoveScore more_moves_eval 3
     <? calculateMoveScore demo_eval 3)%float = false
  /\ (calculateMoveScore more_territory_eval 3
        <? calculateMoveScore demo_eval 3)%float = false
  /\ (calculateMoveScore more_depth_eval 3
        <? calculateMoveScore demo_eval 3)%float = false.
Proof.
  split; [|split].
  - destruct (calculateMoveScore_weighted demo_game (mkPosition 0 0) Right
                demo_eval more_moves_eval 3) as (_ & _ & _ & H).
    destruct (H eq_refl) as (Hmoves & _ & _).
    apply Hmoves; [reflexivity|reflexivity|simpl; lia].
  - destruct (calculateMoveScore_weighted demo_game (mkPosition 0 0) Right
                demo_eval more_territory_eval 3) as (_ & _ & _ & H).
    destruct (H eq_refl) as (_ & Hterritory & _).
    apply Hterritory; [reflexivity|reflexivity|simpl; lia].
  - destruct (calculateMoveScore_weighted demo_game (mkPosition 0 0) Right
                demo_eval more_depth_eval 3) as (_ & _ & _ & H).
    destruct (H eq_refl) as (_ & _ & Hdepth).
    apply Hdepth; reflexivity.
Defined.

(** ** Further properties on the concrete games *)

Lemma game_ok_demo : game_ok demo_game.
Proof.
  refine (proj1 (@InitGame_ok demo_env demo_game _ _));
    [cbn; lia | vm_compute; reflexivity].
Qed.

Lemma reachable_demo :
  @reachable ascii_strings demo_env (start_of demo_game []).
Proof. apply reachable_start; [cbn; lia | vm_compute; reflexivity]. Qed.

Lemma reachable_tiny :
  @reachable ascii_strings tiny_env tiny_after_elimination.
Proof.
  apply (reachable_round (start_of tiny_game [])).
  - apply reachable_start; [cbn; lia | vm_compute; reflexivity].
  - vm_compute. reflexivity.
Qed.

(** From (1,1), up and then down, or down and then up, is back at (1,1). *)
Lemma getNewPosition_opposite_demo :
  int64_range 1
  /\ getNewPosition (getNewPosition (mkPosition 1 1) Up) Down = mkPosition 1 1
  /\ getNewPosition (getNewPosition (mkPosition 1 1) Down) Up = mkPosition 1 1.
Proof.
  assert (Hrange : int64_range 1) by (unfold int64_range; lia).
  split; [exact Hrange|].
  destruct (getNewPosition_opposite (mkPosition 1 1) Up Hrange Hrange)
    as (Hthere & Hback & _).
  split; [exact Hthere | exact Hback].
Defined.

(** Player 1 of [demo_game] moving right: the trail is drawn at (0,0) and
    the head at (0,1). *)
Lemma MakeMove_draws_the_move_demo :
  game_ok demo_game
  /\ 0 <= 0 < NumPlayers demo_game
  /\ Right ∈ GetValidMoves demo_game (player_id 0)
  /\ exists game',
       MakeMove demo_game "1" Right = Ret game'
       /\ cell_at (Grid game') (mkPosition 0 0) = Some "░"
       /\ cell_at (Grid game') (mkPosition 0 1) = Some "1"
       /\ getPlayerPos game' "2" = mkPosition 2 2.
Proof.
  assert (Hok : game_ok demo_game) by exact game_ok_demo.
  assert (Hi : 0 <= 0 < NumPlayers demo_game) by (cbn; lia).
  assert (Hd : Right ∈ GetValidMoves demo_game (player_id 0))
    by (apply (list_elem_of_lookup_2 _ 1%nat); reflexivity).
  split; [exact Hok|]. split; [exact Hi|]. split; [exact Hd|].
  destruct (MakeMove_draws_the_move demo_game 0 Right Hok Hi Hd)
    as (game' & trailChar & Hrun & Htrail & Hold & Hnew & _ & _ & Hothers).
  exists game'. split; [exact Hrun|].
  injection Htrail as <-. split; [exact Hold|]. split; [exact Hnew|].
  rewrite (Hothers "2") by discriminate. reflexivity.
Defined.

(** After player 1 of [demo_game] moved right, player 2 has no legal
    direction it did not have before. *)
Lemma MakeMove_only_blocks_demo :
  game_ok demo_game
  /\ "1" ∈ player_ids demo_game
  /\ Right ∈ GetValidMoves demo_game "1"
  /\ exists game',
       MakeMove demo_game "1" Right = Ret game'
       /\ IsValidMove game' (mkPosition 0 1) = false
       /\ forall d, d ∈ GetValidMoves game' "2" -> d ∈ GetValidMoves demo_game "2".
Proof.
  assert (Hok : game_ok demo_game) by exact game_ok_demo.
  assert (Hp : "1" ∈ player_ids demo_game)
    by (apply (list_elem_of_lookup_2 _ 0%nat); reflexivity).
  assert (Hd : Right ∈ GetValidMoves demo_game "1")
    by (apply (list_elem_of_lookup_2 _ 1%nat); reflexivity).
  split; [exact Hok|]. split; [exact Hp|]. split; [exact Hd|].
  destruct (MakeMove_only_blocks demo_game "1" Right Hok Hp Hd)
    as (game' & Hrun & Hcells & Hmoves).
  exists game'. split; [exact Hrun|]. split.
  - destruct (IsValidMove game' (mkPosition 0 1)) eqn:E; [|reflexivity].
    apply Hcells in E as [_ Hne]. exfalso. apply Hne. reflexivity.
  - intros d. apply Hmoves. discriminate.
Defined.

(** A move for "X", who does not play [demo_game], is executed from
    (0,0): the trail character of player 1 replaces its head. *)
Lemma MakeMove_unknown_player_demo :
  ("X" ∉ player_ids demo_game)
  /\ PlayerPos demo_game !! "X" = None
  /\ exists game',
       MakeMove demo_game "X" Right = Ret game'
       /\ cell_at (Grid game') (mkPosition 0 0) = Some "░"
       /\ cell_at (Grid game') (mkPosition 0 1) = Some "X".
Proof.
  assert (Hgrid : grid_ok (Size demo_game) (Grid demo_game))
    by (split; [reflexivity | repeat constructor]).
  assert (Hn : NumPlayers demo_game <= 10) by (cbn; lia).
  assert (Hp : "X" ∉ player_ids demo_game).
  { intros Hin. apply list_elem_of_In in Hin. cbn in Hin.
    destruct Hin as [H|[H|[]]]; discriminate H. }
  assert (Hpos : PlayerPos demo_game !! "X" = None)
    by (vm_compute; reflexivity).
  assert (Hold : in_bounds demo_game (mkPosition 0 0))
    by (vm_compute; repeat split; discriminate).
  assert (Hnew : in_bounds demo_game (getNewPosition (mkPosition 0 0) Right))
    by (vm_compute; repeat split; discriminate).
  split; [exact Hp|]. split; [exact Hpos|].
  destruct (MakeMove_unknown_player demo_game "X" Right
              Hgrid Hn Hp Hpos Hold Hnew)
    as (game' & Hrun & Htrail & Hhead & _).
  exists game'. auto.
Defined.

(** The 3 x 3 game for two players is created. *)
Lemma InitGame_outcome_demo :
  0 <= @gridSize demo_env
  /\ @numPlayers demo_env <= 10
  /\ exists game, @InitGame demo_env = Ret game.
Proof.
  assert (Hsize : 0 <= @gridSize demo_env) by (cbn; lia).
  assert (Hn : @numPlayers demo_env <= 10) by (cbn; lia).
  assert (Hboard : 1 <= @gridSize demo_env \/ @numPlayers demo_env <= 0)
    by (left; cbn; lia).
  split; [exact Hsize|]. split; [exact Hn|].
  destruct (@InitGame_outcome demo_env) as (_ & _ & _ & Hcreated).
  exact (Hcreated Hsize Hn Hboard).
Defined.

(** The second player of the 3 x 3 game is drawn at (2,2), at distance 4
    of the first. *)
Lemma place_player_separation_demo :
  @place_player demo_env 1000 2 (mkPosition 0 0) {[ "1" := mkPosition 0 0 ]}
  = Ret (mkPosition 2 2, 4%nat)
  /\ (0 <= 2 < @gridSize demo_env)
  /\ ((forall id q,
         ({[ "1" := mkPosition 0 0 ]} : gmap string Position) !! id = Some q ->
         3 <= Z.abs (2 - Row q) + Z.abs (2 - Col q))
      \/ 4%nat = (2 + 2 * 1000)%nat).
Proof.
  assert (Hrun : @place_player demo_env 1000 2 (mkPosition 0 0)
                   {[ "1" := mkPosition 0 0 ]}
                 = Ret (mkPosition 2 2, 4%nat)) by (vm_compute; reflexivity).
  assert (Hsize : @gridSize demo_env <= 2 ^ 61) by (cbn; lia).
  assert (Hplaced : forall id q,
            ({[ "1" := mkPosition 0 0 ]} : gmap string Position) !! id = Some q ->
            0 <= Row q < @gridSize demo_env /\ 0 <= Col q < @gridSize demo_env).
  { intros id q Hq. apply lookup_singleton_Some in Hq as [_ <-]. cbn. lia. }
  assert (Hattempts : (1 <= 1000)%nat) by lia.
  split; [exact Hrun|].
  destruct (@place_player_separation demo_env 1000 2 (mkPosition 0 0)
              {[ "1" := mkPosition 0 0 ]} (mkPosition 2 2) 4
              Hrun Hsize Hplaced Hattempts) as ((Hrow & _) & Hfar).
  split; [exact Hrow | exact Hfar].
Defined.

(** The configuration of player 1 of [demo_game]: the default model. *)
Lemma InitGame_configs_demo :
  @numPlayers demo_env <= 10
  /\ @InitGame demo_env = Ret demo_game
  /\ PlayerConfigs demo_game !! "1" = Some (demo_config "1")
  /\ forall id, id ∉ player_ids demo_game -> PlayerConfigs demo_game !! id = None.
Proof.
  assert (Hn : @numPlayers demo_env <= 10) by (cbn; lia).
  assert (Hinit : @InitGame demo_env = Ret demo_game)
    by (vm_compute; reflexivity).
  split; [exact Hn|]. split; [exact Hinit|].
  destruct (@InitGame_configs demo_env demo_game Hn Hinit) as (Hconfigs & Hnone).
  split; [|exact Hnone].
  exact (Hconfigs 0 ltac:(cbn; lia)).
Defined.

(** Player 1 of [demo_game], answered "up-left" every time: three
    requests, all with its configuration. *)
Lemma GetLLMMove_requests_demo :
  PlayerConfigs demo_game !! "1" = Some (demo_config "1")
  /\ exists answer made,
       @GetLLMMove ascii_strings demo_env [] demo_game "1" [Down; Right]
       = Ret (answer, (made ++ [])%list)
       /\ Z.of_nat (length made) <= Z.max 0 (@maxRetries demo_env)
       /\ Forall (fun call => call_config call = demo_config "1") made.
Proof.
  assert (Hconfig : PlayerConfigs demo_game !! "1" = Some (demo_config "1"))
    by (vm_compute; reflexivity).
  split; [exact Hconfig|].
  destruct (@GetLLMMove_requests ascii_strings demo_env [] demo_game "1"
              [Down; Right] (demo_config "1") Hconfig)
    as (answer & made & Hrun & Hcount & Hall & _).
  exists answer, made. auto.
Defined.

(** On the 1 x 1 game the endpoint refuses the connection: the first
    request is the only one. *)
Lemma GetLLMMove_failure_is_final_tiny :
  PlayerConfigs tiny_game !! "1" = Some (demo_config "1")
  /\ 1 <= @maxRetries tiny_env
  /\ @GetLLMMove ascii_strings tiny_env [] tiny_game "1" [Up]
     = Ret (inr (CallFailed "connection refused"),
            [ {| call_prompt := @BuildPrompt tiny_env tiny_game "1" [Up];
                 call_config := demo_config "1" |} ]).
Proof.
  assert (Hconfig : PlayerConfigs tiny_game !! "1" = Some (demo_config "1"))
    by (vm_compute; reflexivity).
  assert (Hretries : 1 <= @maxRetries tiny_env) by (cbn; lia).
  split; [exact Hconfig|]. split; [exact Hretries|].
  exact (@GetLLMMove_failure_is_final ascii_strings tiny_env [] tiny_game "1"
           [Up] (demo_config "1") "connection refused"
           Hconfig Hretries eq_refl).
Defined.

(** A move asked for "X", who has no configuration in [demo_game]. *)
Lemma GetLLMMove_without_config_demo :
  PlayerConfigs demo_game !! "X" = None
  /\ 1 <= @maxRetries demo_env
  /\ @GetLLMMove ascii_strings demo_env [] demo_game "X" [Up]
     = Panic nil_dereference.
Proof.
  assert (Hconfig : PlayerConfigs demo_game !! "X" = None)
    by (vm_compute; reflexivity).
  assert (Hretries : 1 <= @maxRetries demo_env) by (cbn; lia).
  split; [exact Hconfig|]. split; [exact Hretries|].
  exact (proj1 (@GetLLMMove_without_config ascii_strings demo_env [] demo_game
                  "X" [Up] Hconfig) Hretries).
Defined.

(** The game on the 1 x 1 board is won by player 2. *)
Lemma PlayGame_never_draws_tiny :
  2 <= @numPlayers tiny_env <= 10
  /\ @InitGame tiny_env = Ret tiny_game
  /\ @PlayGame ascii_strings tiny_env []
     = Ret (Some ("2", tiny_after_elimination))
  /\ active_players (game_of tiny_after_elimination) = ["2"].
Proof.
  assert (Hn : 2 <= @numPlayers tiny_env <= 10) by (cbn; lia).
  assert (Hinit : @InitGame tiny_env = Ret tiny_game)
    by (vm_compute; reflexivity).
  assert (Hplay : @PlayGame ascii_strings tiny_env []
                  = Ret (Some ("2", tiny_after_elimination)))
    by (vm_compute; reflexivity).
  split; [exact Hn|]. split; [exact Hinit|]. split; [exact Hplay|].
  destruct (PlayGame_never_draws ascii_strings tiny_env tiny_game [] "2"
              tiny_after_elimination Hn Hinit Hplay)
    as (_ & _ & [Herror|[_ Hactive]]); [discriminate Herror | exact Hactive].
Defined.

(** After the first pass of the 1 x 1 game: no move, one elimination. *)
Lemma moveCount_counts_passes_tiny :
  @reachable ascii_strings tiny_env tiny_after_elimination
  /\ moveCount tiny_after_elimination
     = Z.of_nat (length (Moves (game_of tiny_after_elimination)))
       + (NumPlayers (game_of tiny_after_elimination)
          - Z.of_nat (length (active_players (game_of tiny_after_elimination)))).
Proof.
  assert (Hreach : @reachable ascii_strings tiny_env tiny_after_elimination)
    by exact reachable_tiny.
  split; [exact Hreach|].
  exact (moveCount_counts_passes ascii_strings tiny_env tiny_after_elimination
           Hreach).
Defined.

(** The first pass of the 3 x 3 game makes at most three requests. *)
Lemma round_requests_demo :
  @reachable ascii_strings demo_env (start_of demo_game [])
  /\ exists step made,
       @round ascii_strings demo_env (start_of demo_game []) = Ret step
       /\ calls_of (state_of step) = (made ++ [])%list
       /\ Z.of_nat (length made) <= 3.
Proof.
  assert (Hreach : @reachable ascii_strings demo_env (start_of demo_game []))
    by exact reachable_demo.
  split; [exact Hreach|].
  assert (Hround : exists step,
            @round ascii_strings demo_env (start_of demo_game []) = Ret step)
    by (eexists; vm_compute; reflexivity).
  destruct Hround as (step & Hround).
  destruct (round_requests ascii_strings demo_env (start_of demo_game []) step
              Hreach Hround) as (made & Hcalls & Hcount & _).
  exists step, made. split; [exact Hround|]. split; [exact Hcalls|].
  exact Hcount.
Defined.

(** Simulating the move to (0,1) on the fresh 3 x 3 game only takes the
    cell (0,1) out of play. *)
Lemma simulateMove_in_play_demo :
  @reachable ascii_strings demo_env (start_of demo_game [])
  /\ forall q, IsValidMove (simulateMove demo_game (mkPosition 0 1)) q = true
               <-> IsValidMove demo_game q = true /\ q <> mkPosition 0 1.
Proof.
  assert (Hreach : @reachable ascii_strings demo_env (start_of demo_game []))
    by exact reachable_demo.
  split; [exact Hreach|].
  destruct (simulateMove_in_play ascii_strings demo_env (start_of demo_game [])
              (mkPosition 0 1) Hreach) as (_ & _ & Hlegal).
  exact Hlegal.
Defined.

(** The move right of player 1 of [demo_game] leaves at most three
    immediate moves. *)
Lemma ImmediateMoves_at_most_three_demo :
  visited_at (Visited demo_game) (mkPosition 0 0) = true
  /\ 0 <= ImmediateMoves (evaluateMove demo_game (mkPosition 0 0) Right) <= 3.
Proof.
  assert (Hvisited : visited_at (Visited demo_game) (mkPosition 0 0) = true)
    by reflexivity.
  assert (Hrange : int64_range 0) by (unfold int64_range; lia).
  split; [exact Hvisited|].
  exact (proj1 (ImmediateMoves_at_most_three demo_game (mkPosition 0 0) Right
                  Hvisited Hrange Hrange)).
Defined.

(** The move right of player 1 of [demo_game]: the territory is within
    the free cells and counts the landing cell and its legal neighbours. *)
Lemma ReachableTerritory_free_cells_demo :
  IsValidMove demo_game (getNewPosition (mkPosition 0 0) Right) = true
  /\ ImmediateMoves (evaluateMove demo_game (mkPosition 0 0) Right) + 1
     <= ReachableTerritory (evaluateMove demo_game (mkPosition 0 0) Right)
  /\ ReachableTerritory (evaluateMove demo_game (mkPosition 0 0) Right)
     <= Z.of_nat (length (free_cells demo_game)).
Proof.
  assert (Hlegal : IsValidMove demo_game
                     (getNewPosition (mkPosition 0 0) Right) = true)
    by reflexivity.
  split; [exact Hlegal|].
  exact (ReachableTerritory_free_cells demo_game (mkPosition 0 0) Right Hlegal).
Defined.

(** On the fresh 3 x 3 game the move right of player 1 does not land on
    the head of player 2. *)
Lemma legal_move_avoids_heads_demo :
  @reachable ascii_strings demo_env (start_of demo_game [])
  /\ Right ∈ GetValidMoves demo_game "1"
  /\ "2" ∈ player_ids demo_game
  /\ getNewPosition (getPlayerPos demo_game "1") Right
     <> getPlayerPos demo_game "2".
Proof.
  assert (Hreach : @reachable ascii_strings demo_env (start_of demo_game []))
    by exact reachable_demo.
  assert (Hd : Right ∈ GetValidMoves demo_game "1")
    by (apply (list_elem_of_lookup_2 _ 1%nat); reflexivity).
  assert (Hother : "2" ∈ player_ids demo_game)
    by (apply (list_elem_of_lookup_2 _ 1%nat); reflexivity).
  split; [exact Hreach|]. split; [exact Hd|]. split; [exact Hother|].
  exact (legal_move_avoids_heads ascii_strings demo_env (start_of demo_game [])
           "1" "2" Right Hreach Hd Hother).
Defined.

(** After the elimination of player 1 on the 1 x 1 board the scan from
    index 0 passes it over and returns index 1, player 2. *)
Lemma next_active_first_active_tiny :
  active_players (game_of tiny_after_elimination) <> []
  /\ next_active 2 (game_of tiny_after_elimination) 0 = Ret 1
  /\ "1" ∉ active_players (game_of tiny_after_elimination).
Proof.
  assert (Hn : 1 <= NumPlayers (game_of tiny_after_elimination) <= 10)
    by (cbn; lia).
  assert (Hi : 0 <= 0 < NumPlayers (game_of tiny_after_elimination))
    by (cbn; lia).
  assert (Hsome : active_players (game_of tiny_after_elimination) <> [])
    by (vm_compute; discriminate).
  split; [exact Hsome|].
  destruct (next_active_first_active (game_of tiny_after_elimination) 0
              Hn Hi Hsome) as (j & Hj & Hrun & Hin & Hbefore).
  assert (Hj1 : j = 1).
  { assert (Hcase : j = 0 \/ j = 1) by (cbn in Hj; lia).
    destruct Hcase as [->| ->]; [|reflexivity].
    exfalso. apply elem_of_active_players in Hin as [_ Hact].
    vm_compute in Hact. discriminate Hact. }
  subst j. split; [exact Hrun|]. exact (Hbefore 0 ltac:(lia)).
Defined.
